(** * qtrlb: sequence compilation, acquisition and IQ post-processing

    A shallow embedding of these parts of the qtrlb package:

    - [qtrlb/calibration/calibration.py]: the [Scan] class, which builds
      its pulse tables and assembles one Q1ASM program per qudit by string
      concatenation;
    - [qtrlb/config/DAC_manager.py]: [DACManager.start_sequencer], one
      repetition of arm / start / wait / fetch / clear against the Qblox
      cluster, and [DACManager.tone_to_qudit];
    - [qtrlb/processing/processing.py]: rotation, population normalisation,
      confusion-matrix correction, readout fidelity and the search for the
      two most distant cluster means;
    - [qtrlb/config/variable_manager.py]: the reference tone of an
      anharmonicity.

    Python integers are [Z], Python floats that only carry configured times
    are rationals ([Q]), float64 arrays are arrays of real numbers ([R]),
    Python exceptions are the constructors of [pyexn], and methods that
    mutate [self] or an instrument are computations in a state-and-exception
    monad whose state survives a raised exception.

    Two library routines decide what the code does through floating-point
    rounding, and are modelled accordingly. The relaxation time is rounded
    up with [np.ceil] after a float multiplication, whose rounding error can
    lift a whole number of microseconds to the next one: that product is
    computed in IEEE 754 binary64 ([float64] below). And [np.linalg.solve]
    raises only when the factorisation meets a pivot that is exactly zero in
    floating point, which exact singularity of the matrix does not decide:
    what it does with a singular matrix is a parameter ([lapack]). *)

From HB Require Import structures.
From mathcomp Require Import boot algebra.
From Stdlib Require Import ZArith QArith Qround Lia Reals Lra.
From Stdlib Require Import String Ascii DecimalString.
From Stdlib Require Epsilon FunctionalExtensionality.
From Stdlib Require DecimalFacts DecimalPos SpecFloat.

Set Implicit Arguments.
Unset Strict Implicit.
Unset Printing Implicit Defensive.

Close Scope Q_scope.
Close Scope R_scope.
Close Scope Z_scope.

(** Decidable equality on strings and integers, for membership tests. *)
HB.instance Definition _ := hasDecEq.Build string String.eqb_spec.
HB.instance Definition _ := hasDecEq.Build Z Z.eqb_spec.

(** ** Python exceptions and the state-and-exception monad *)

Inductive pyexn : Type :=
| AssertionError of string
| KeyError of string
| TypeError
| ValueError
| IndexError
| AxisError
| MaskError
| UnboundLocalError
| LinAlgError
| InstrumentError of string
| OverflowError
| AttributeError.

Inductive result (A : Type) : Type :=
| Ok of A
| Raise of pyexn.

Arguments Ok {A} _.
Arguments Raise {A} _.

Definition is_ok {A : Type} (r : result A) : bool :=
  if r is Ok _ then true else false.

Definition result_bind {A B : Type} (r : result A) (f : A -> result B) : result B :=
  match r with
  | Ok a => f a
  | Raise e => Raise e
  end.

(** A computation reads and updates a state of type [S]; when it raises, the
    state reached so far is kept, as the attributes of a Python object are
    when a method raises half-way. *)
Definition M (S A : Type) : Type := S -> result A * S.

Definition ret {S A : Type} (a : A) : M S A := fun s => (Ok a, s).

Definition bind {S A B : Type} (m : M S A) (f : A -> M S B) : M S B :=
  fun s => match m s with
           | (Ok a, s') => f a s'
           | (Raise e, s') => (Raise e, s')
           end.

Definition raise {S A : Type} (e : pyexn) : M S A := fun s => (Raise e, s).

Definition get {S : Type} : M S S := fun s => (Ok s, s).

Definition put {S : Type} (s : S) : M S unit := fun _ => (Ok tt, s).

Definition lift {S A : Type} (r : result A) : M S A := fun s => (r, s).

Declare Scope py_scope.
Delimit Scope py_scope with py.

Notation "x <- c ;; k" := (bind c (fun x => k))
  (at level 61, c at next level, right associativity) : py_scope.
Notation "c ;;; k" := (bind c (fun _ => k))
  (at level 61, right associativity) : py_scope.

(** [for x in xs: body x] *)
Fixpoint for_each {S X : Type} (xs : seq X) (body : X -> M S unit) : M S unit :=
  match xs with
  | [::] => ret tt
  | x :: xs' => bind (body x) (fun _ => for_each xs' body)
  end.

(** Python dictionaries with string keys, in insertion order. *)
Definition dict (V : Type) : Type := seq (string * V).

Fixpoint dict_get {V : Type} (d : dict V) (k : string) : option V :=
  match d with
  | [::] => None
  | (k', v) :: d' => if String.eqb k' k then Some v else dict_get d' k
  end.

Fixpoint dict_set {V : Type} (d : dict V) (k : string) (v : V) : dict V :=
  match d with
  | [::] => [:: (k, v)]
  | (k', v') :: d' =>
      if String.eqb k' k then (k', v) :: d' else (k', v') :: dict_set d' k v
  end.

(** [s.startswith(p)] *)
Definition startswith (s p : string) : bool := String.prefix p s.

(** [str(z)] for a Python integer. *)
Definition str_of_Z (z : Z) : string := NilZero.string_of_int (Z.to_int z).

(** The newline character of the program text. *)
Definition nl : string := String (ascii_of_nat 10) EmptyString.

(** Python's [round(x)] on a number with no [ndigits]: to the nearest
    integer, ties to the even one. *)
Definition py_round (x : Q) : Z :=
  let f := Qfloor x in
  match Qcompare (x - inject_Z f) (1 # 2) with
  | Lt => f
  | Gt => (f + 1)%Z
  | Eq => if Z.even f then f else (f + 1)%Z
  end.

(** ** Binary64 floats

    A Python float is an IEEE 754 binary64 number; the arithmetic is the
    Standard Library's specification of it ([SpecFloat]) at precision 53
    and exponent bound 1024, rounding to nearest with ties to even. *)
Definition float64 : Type := SpecFloat.spec_float.

(** The float that a decimal number of the configuration is read as: the
    binary64 number nearest to it. The quotient of numerator and
    denominator is rounded once. *)
Definition float_of_Q (q : Q) : float64 :=
  match Qnum q with
  | Z0 => SpecFloat.S754_zero false
  | Zpos n =>
      SpecFloat.SFdiv 53 1024 (SpecFloat.S754_finite false n 0)
                              (SpecFloat.S754_finite false (Qden q) 0)
  | Zneg n =>
      SpecFloat.SFdiv 53 1024 (SpecFloat.S754_finite true n 0)
                              (SpecFloat.S754_finite false (Qden q) 0)
  end.

(** [x * y] on floats. *)
Definition float_mul (x y : float64) : float64 := SpecFloat.SFmul 53 1024 x y.

(** [int(np.ceil(x))]: the least integer that is not below [x]. Infinity
    and NaN have no integer. *)
Definition int_ceil (x : float64) : result Z :=
  match x with
  | SpecFloat.S754_zero _ => Ok 0%Z
  | SpecFloat.S754_finite s m e =>
      let v := if s then Zneg m else Zpos m in
      Ok (match e with
          | Z0 => v
          | Zpos _ => (v * 2 ^ e)%Z
          | Zneg e' => (- ((- v) / 2 ^ Zpos e'))%Z
          end)
  | SpecFloat.S754_infinity _ => Raise OverflowError
  | SpecFloat.S754_nan => Raise ValueError
  end.

(** ** Real numbers as the scalars of float64 arrays

    The arrays of processing.py hold float64 numbers; they are modelled by
    the real numbers of the Standard Library, so that every theorem below
    is about exact arithmetic. The instances make [R] a MathComp field,
    which gives matrices over [R] their inverse and determinant; the ring
    operations are, by definition, [Rplus], [Rmult], [Ropp] and [Rinv]. *)

Definition Req_bool (x y : R) : bool := if Req_dec_T x y then true else false.

Lemma Req_boolP : Equality.axiom Req_bool.
Proof. by move=> x y; rewrite /Req_bool; case: Req_dec_T => h; constructor. Qed.

HB.instance Definition _ := hasDecEq.Build R Req_boolP.

Definition R_find (P : pred R) (n : nat) : option R :=
  let x := Epsilon.epsilon (inhabits R0) (fun x => P x) in
  if P x then Some x else None.

Lemma R_find_correct (P : pred R) (n : nat) (x : R) : R_find P n = Some x -> P x.
Proof. by rewrite /R_find; case: ifP => // Px [<-]. Qed.

Lemma R_find_complete (P : pred R) : (exists x, P x) -> exists n, R_find P n.
Proof.
move=> ex; exists 0%nat; rewrite /R_find.
by have -> := Epsilon.epsilon_spec (inhabits R0) (fun x => P x) ex.
Qed.

Lemma R_find_ext (P Q : pred R) : P =1 Q -> R_find P =1 R_find Q.
Proof. by move=> eqPQ n; have -> : P = Q by apply: FunctionalExtensionality.functional_extensionality. Qed.

HB.instance Definition _ :=
  hasChoice.Build R R_find_correct R_find_complete R_find_ext.

Fact RplusA : associative Rplus.
Proof. by move=> x y z; rewrite Rplus_assoc. Qed.

Fact Rplus0 : left_id R0 Rplus.
Proof. exact: Rplus_0_l. Qed.

Fact RplusN : left_inverse R0 Ropp Rplus.
Proof. exact: Rplus_opp_l. Qed.

HB.instance Definition _ := GRing.isZmodule.Build R RplusA Rplus_comm Rplus0 RplusN.

Fact RmultA : associative Rmult.
Proof. by move=> x y z; rewrite Rmult_assoc. Qed.

Fact Rmult1 : left_id R1 Rmult.
Proof. exact: Rmult_1_l. Qed.

Fact RmultDl : left_distributive Rmult Rplus.
Proof. by move=> x y z; rewrite Rmult_plus_distr_r. Qed.

Fact R1_neq_0 : R1 != R0.
Proof. by apply/eqP; exact: R1_neq_R0. Qed.

HB.instance Definition _ :=
  GRing.Zmodule_isComNzRing.Build R RmultA Rmult_comm Rmult1 RmultDl R1_neq_0.

Fact RmultV (x : R) : x != R0 -> Rmult (Rinv x) x = R1.
Proof. by move/eqP => x0; rewrite Rinv_l. Qed.

HB.instance Definition _ := GRing.ComNzRing_isField.Build R RmultV Rinv_0.

(** [x < y] as a boolean, for the comparisons of the code. *)
Definition Rltb (x y : R) : bool := if Rlt_dec x y then true else false.

Lemma RltbP (x y : R) : reflect (x < y)%R (Rltb x y).
Proof. by rewrite /Rltb; case: Rlt_dec => h; constructor. Qed.

(** ** [qtrlb/calibration/calibration.py]: the [Scan] sequence compiler *)

Module Calibration.

Local Open Scope string_scope.
Local Open Scope py_scope.

(** [cfg.variables]: a flat key-path store of floats, strings and flags. *)
Inductive cfg_value : Type :=
| CfgFloat of Q
| CfgStr of string
| CfgBool of bool.

Definition config : Type := string -> option cfg_value.

Definition cfg_float (cfg : config) (key : string) : result Q :=
  match cfg key with
  | Some (CfgFloat q) => Ok q
  | Some _ => Raise TypeError
  | None => Raise (KeyError key)
  end.

Definition cfg_str (cfg : config) (key : string) : result string :=
  match cfg key with
  | Some (CfgStr s) => Ok s
  | Some _ => Raise TypeError
  | None => Raise (KeyError key)
  end.

(** One column of a pulse DataFrame: its [length] attribute in ns and the
    pulse string of every row (qudit). A DataFrame is the list of its
    columns in [items()] order. *)
Record column : Type := Column {
  col_length : Z;
  col_cells : dict string
}.

Definition DataFrame : Type := seq column.

Record acquisition : Type := Acquisition {
  num_bins : Z;
  index : Z
}.

Section Compiler.

(** [qtrlb.utils.waveforms.get_waveform] and
    [qtrlb.utils.pulses.pulse_interpreter] are imported by calibration.py
    from modules outside this development; they are parameters here. The
    last argument of [pulse_interpreter] is [acq_index] when the caller
    passes it. *)
Variable waveform : Type.
Variable get_waveform : Z -> string -> result waveform.
Variable pulse_interpreter :
  config -> string -> string -> Z -> option Z -> result string.

(** One entry of [self.sequences]: the dictionary dumped to the json file
    of a qudit. A key that has not been assigned yet is [None]. *)
Record sequence : Type := Sequence {
  waveforms : option (dict (waveform * Z));
  weights : option (dict unit);
  acquisitions : option (dict acquisition);
  program : option string
}.

Definition empty_sequence : sequence := Sequence None None None None.

(** The attributes of [self] that [make_sequence] reads. *)
Record Scan : Type := MkScan {
  cfg : config;
  qudits : seq string;
  x_points : Z;
  heralding_enable : bool;
  full_prepulse_df : DataFrame;
  postpulse_df : DataFrame;
  readout_df : DataFrame
}.

(** The state threaded through the compiler is [self.sequences]. *)
Definition compiler : Type -> Type := M (dict sequence).

(** [self.sequences[qudit]['program'] = text] *)
Definition program_assign (qudit text : string) : compiler unit :=
  fun seqs =>
    match dict_get seqs qudit with
    | None => (Raise (KeyError qudit), seqs)
    | Some sq =>
        (Ok tt, dict_set seqs qudit
                  (Sequence (waveforms sq) (weights sq) (acquisitions sq) (Some text)))
    end.

(** [self.sequences[qudit]['program'] += text] *)
Definition program_append (qudit text : string) : compiler unit :=
  fun seqs =>
    match dict_get seqs qudit with
    | None => (Raise (KeyError qudit), seqs)
    | Some sq =>
        match program sq with
        | None => (Raise (KeyError "program"), seqs)
        | Some p =>
            (Ok tt, dict_set seqs qudit
                      (Sequence (waveforms sq) (weights sq) (acquisitions sq)
                                (Some (p ++ text))))
        end
    end.

Definition acquisitions_table (self : Scan) : dict acquisition :=
  [:: ("readout", Acquisition (x_points self) 0);
      ("heralding", Acquisition (x_points self) 1)].

Definition set_waveforms_acquisitions (self : Scan) : compiler unit :=
  for_each (qudits self) (fun qudit =>
    let pulse_type := if startswith qudit "Q" then "qubit" else "resonator" in
    len <- lift (cfg_float (cfg self) ("common/" ++ pulse_type ++ "_pulse_length")) ;;
    shape <- lift (cfg_str (cfg self) (qudit ++ "/pulse_shape")) ;;
    wf <- lift (get_waveform (py_round (len * inject_Z (10 ^ 9))%Q) shape) ;;
    fun seqs =>
      match dict_get seqs qudit with
      | None => (Raise (KeyError qudit), seqs)
      | Some sq =>
          (Ok tt, dict_set seqs qudit
                    (Sequence (Some [:: (qudit, (wf, 0%Z))]) (Some [::])
                              (Some (acquisitions_table self)) (program sq)))
      end).

Definition init_text : string :=
  nl ++
  "        # R0 is the value of main parameter of 1D Scan, if needed." ++ nl ++
  "        # R1 is the count of repetition for algorithm or x_points for parameter sweep." ++ nl ++
  "        # R2 is the relaxation time in microseconds." ++ nl ++
  "        # Other register for backup." ++ nl ++
  "        " ++ nl ++
  "                    wait_sync        8" ++ nl ++
  "                    move             0,R0" ++ nl ++
  "                    move             0,R1" ++ nl ++
  "                    move             0,R2" ++ nl ++
  "                    move             0,R3" ++ nl ++
  "                    move             0,R4" ++ nl ++
  "                    move             0,R5" ++ nl ++
  "        ".

Definition init_program (self : Scan) : compiler unit :=
  for_each (qudits self) (fun qudit => program_assign qudit init_text).

(** The base class only prints a notice. *)
Definition add_initparameter (self : Scan) : compiler unit := ret tt.

Definition mainloop_text : string :=
  "        " ++ nl ++
  "        main_loop:  wait_sync        8                               # Sync at beginning of the loop." ++ nl ++
  "                    reset_ph                                         # Reset phase to eliminate effect of previous VZ gate." ++ nl ++
  "                    set_mrk          15                              # Enable all markers (binary 1111) for switching on output." ++ nl ++
  "                    upd_param        8                               # Update parameters and wait 8ns." ++ nl ++
  "        ".

Definition add_mainloop (self : Scan) : compiler unit :=
  for_each (qudits self) (fun qudit => program_append qudit mainloop_text).

Definition relaxation_text (relaxation_time_us : Z) : string :=
  nl ++
  "                #-----------Relaxation-----------" ++ nl ++
  "                    move             " ++ str_of_Z relaxation_time_us ++ ",R2" ++ nl ++
  "        relx_loop:  wait             1000" ++ nl ++
  "                    loop             R2,@relx_loop" ++ nl ++
  "        ".

(** [int(np.ceil(relaxation_time_s * 1e6))]: the product is a float
    product, and it is its rounded value that is rounded up. 0.000123 s
    gives 124, since 0.000123 * 1e6 is 123.00000000000001 in binary64. *)
Definition ceil_us (relaxation_time_s : Q) : result Z :=
  int_ceil (float_mul (float_of_Q relaxation_time_s) (float_of_Q (inject_Z (10 ^ 6)))).

Definition add_relaxation (self : Scan) : compiler unit :=
  relaxation_time_s <- lift (cfg_float (cfg self) "common/relaxation_time") ;;
  relaxation_time_us <- lift (ceil_us relaxation_time_s) ;;
  for_each (qudits self) (fun qudit =>
    program_append qudit (relaxation_text relaxation_time_us)).

(** One stage built from a DataFrame: for every column, for every qudit,
    a header followed by the interpreted pulse of that cell. *)
Definition stage_header (name : string) : string :=
  nl ++ "                #-----------" ++ name ++ "-----------" ++ nl ++
  "                ".

Definition add_stage (self : Scan) (df : DataFrame) (name : string)
    (acq_index : option Z) : compiler unit :=
  for_each df (fun column =>
    for_each (qudits self) (fun qudit =>
      match dict_get (col_cells column) qudit with
      | None => raise (KeyError qudit)
      | Some init_pulse_str =>
          body <- lift (pulse_interpreter (cfg self) qudit init_pulse_str
                          (col_length column) acq_index) ;;
          program_append qudit (stage_header name ++ body)
      end)).

Definition add_prepulse (self : Scan) : compiler unit :=
  add_stage self (full_prepulse_df self) "Prepulse" None.

(** The base class only prints a notice. *)
Definition add_mainpulse (self : Scan) : compiler unit := ret tt.

Definition add_postpulse (self : Scan) : compiler unit :=
  add_stage self (postpulse_df self) "Postpulse" None.

Definition add_readout (self : Scan) (acq_index : Z) : compiler unit :=
  add_stage self (readout_df self) "Readout" (Some acq_index).

Definition stop_text (self : Scan) : string :=
  nl ++
  "                #-----------Stop-----------" ++ nl ++
  "                    add              R1,1,R1" ++ nl ++
  "                    set_mrk          0                               # Disable all markers (binary 0000) for switching off output." ++ nl ++
  "                    upd_param        8                               # Update parameters and wait 4ns." ++ nl ++
  "                    jlt              R1," ++ str_of_Z (x_points self) ++ ",@main_loop" ++ nl ++
  "                    " ++ nl ++
  "                    stop             " ++ nl ++
  "        ".

Definition add_stop (self : Scan) : compiler unit :=
  for_each (qudits self) (fun qudit => program_append qudit (stop_text self)).

(** The condition of the [assert] in [add_wait], as Python parses it.
    [&] binds tighter than the comparisons, so
    [time_ns < 65535 & time_ns >= 4] is the chained comparison
    [time_ns < (65535 & time_ns) >= 4]. *)
Definition wait_time_check (time_ns : Z) : bool :=
  (time_ns <? Z.land 65535 time_ns)%Z && (Z.land 65535 time_ns >=? 4)%Z.

Definition wait_time_message : string :=
  "The wait time can only be in [4,65535).".

Definition wait_text (time_ns : Z) : string :=
  nl ++
  "        #-----------Wait-----------" ++ nl ++
  "                    wait             " ++ str_of_Z time_ns ++
  "                               " ++ nl ++
  "        ".

(** [add_wait] after [time_ns = round(time * 1e9)] has been computed. *)
Definition add_wait_ns (self : Scan) (time_ns : Z) : compiler unit :=
  if wait_time_check time_ns then
    for_each (qudits self) (fun qudit => program_append qudit (wait_text time_ns))
  else raise (AssertionError wait_time_message).

Definition add_wait (self : Scan) (time : Q) : compiler unit :=
  add_wait_ns self (py_round (time * inject_Z (10 ^ 9))%Q).

Definition add_heralding (self : Scan) (acq_index : Z) : compiler unit :=
  heralding_delay <- lift (cfg_float (cfg self) "common/heralding_delay") ;;
  add_readout self acq_index ;;;
  add_wait self heralding_delay.

Definition make_sequence (self : Scan) : compiler unit :=
  put (foldl (fun d qudit => dict_set d qudit empty_sequence) [::] (qudits self)) ;;;
  set_waveforms_acquisitions self ;;;
  init_program self ;;;
  add_initparameter self ;;;
  add_mainloop self ;;;
  add_relaxation self ;;;
  (if heralding_enable self then add_heralding self 1 else ret tt) ;;;
  add_prepulse self ;;;
  add_mainpulse self ;;;
  add_postpulse self ;;;
  add_readout self 0 ;;;
  add_stop self.

(** [allocated self seqs qudit]: the acquisitions table of [qudit] gives
    index 0 to 'readout' and index 1 to 'heralding'. *)
Definition allocated (self : Scan) (seqs : dict sequence) (qudit : string) : Prop :=
  exists2 sq, dict_get seqs qudit = Some sq
            & acquisitions sq = Some (acquisitions_table self).

(** [keeps_tables self m]: [m] leaves the acquisitions tables as they are,
    whether it returns or raises. *)
Definition keeps_tables {A : Type} (self : Scan) (m : compiler A) : Prop :=
  forall seqs qudit, allocated self seqs qudit -> allocated self (m seqs).2 qudit.

End Compiler.

(** *** A two-qudit scan used in the examples

    Qubit Q3 with one pre-gate, resonator R3, a sweep of two points,
    heralding enabled with a delay of 400 ns. The two functions below stand
    in for the absent [get_waveform] and [pulse_interpreter]. *)

Definition example_get_waveform (length : Z) (shape : string) : result (Z * string) :=
  Ok (length, shape).

Definition example_pulse_interpreter (_ : config) (qudit pulse : string)
    (length : Z) (acq_index : option Z) : result string :=
  Ok (nl ++ "                    # " ++ qudit ++ " " ++ pulse ++ " " ++ str_of_Z length ++
      (if acq_index is Some i then " acq " ++ str_of_Z i else "") ++ nl ++ "        ").

Definition example_variables : dict cfg_value :=
  [:: ("common/qubit_pulse_length", CfgFloat (40 # 1000000000));
      ("common/resonator_pulse_length", CfgFloat (2 # 1000000));
      ("common/tof", CfgFloat (300 # 1000000000));
      ("common/relaxation_time", CfgFloat (200 # 1000000));
      ("common/heralding_delay", CfgFloat (400 # 1000000000));
      ("common/heralding", CfgBool true);
      ("common/classification", CfgBool false);
      ("Q3/pulse_shape", CfgStr "gaussian");
      ("R3/pulse_shape", CfgStr "square")].

Definition example_scan : Scan :=
  MkScan (dict_get example_variables) [:: "Q3"; "R3"] 2 true
    [:: Column 40 [:: ("Q3", "X180_01"); ("R3", "I")]]
    [::]
    [:: Column 2300 [:: ("Q3", "I"); ("R3", "RO")]].

(** [self.sequences] of the example after [init_program]. *)
Definition example_sequences : dict (sequence (Z * string)) :=
  [:: ("Q3", Sequence (Some [:: ("Q3", ((40%Z, "gaussian"), 0%Z))]) (Some [::])
               (Some (acquisitions_table example_scan)) (Some init_text));
      ("R3", Sequence (Some [:: ("R3", ((2000%Z, "square"), 0%Z))]) (Some [::])
               (Some (acquisitions_table example_scan)) (Some init_text))].

(** The program of the example up to the point where compilation stops:
    the heralding readout has been appended, the wait and every later
    stage have not. *)
Definition example_partial_program (qudit pulse : string) : string :=
  init_text ++ mainloop_text ++ relaxation_text 200 ++
  stage_header "Readout" ++
  (nl ++ "                    # " ++ qudit ++ " " ++ pulse ++ " 2300 acq 1" ++ nl ++ "        ").

End Calibration.

(** ** [qtrlb/config/DAC_manager.py]: one repetition on the instrument *)

Module DAC.

Local Open Scope string_scope.
Local Open Scope py_scope.

(** The calls [start_sequencer] makes on the Qblox driver. A resonator tone
    [r] names its module, [seq_idx] the sequencer on it. *)
Inductive port_call : Type :=
| arm_sequencer of string
| qblox_start_sequencer
| get_acquisition_state of string & Z & Z
| store_scope_acquisition of string & Z & string
| get_acquisitions of string & Z
| delete_acquisition_data of string & Z & string.

Definition port_call_eqb (c1 c2 : port_call) : bool :=
  match c1, c2 with
  | arm_sequencer t1, arm_sequencer t2 => String.eqb t1 t2
  | qblox_start_sequencer, qblox_start_sequencer => true
  | get_acquisition_state r1 s1 t1, get_acquisition_state r2 s2 t2 =>
      String.eqb r1 r2 && Z.eqb s1 s2 && Z.eqb t1 t2
  | store_scope_acquisition r1 s1 n1, store_scope_acquisition r2 s2 n2 =>
      String.eqb r1 r2 && Z.eqb s1 s2 && String.eqb n1 n2
  | get_acquisitions r1 s1, get_acquisitions r2 s2 =>
      String.eqb r1 r2 && Z.eqb s1 s2
  | delete_acquisition_data r1 s1 n1, delete_acquisition_data r2 s2 n2 =>
      String.eqb r1 r2 && Z.eqb s1 s2 && String.eqb n1 n2
  | _, _ => false
  end.

Section Instrument.

(** The type of one integrated or scope sample. *)
Variable sample : Type.

(** What [get_acquisitions] returns for one named acquisition:
    [['acquisition']['bins']['integration']['path0'/'path1']] and
    [['acquisition']['scope']['path0'/'path1']['data']]. *)
Record acquisition_data : Type := AcquisitionData {
  bins_path0 : seq sample;
  bins_path1 : seq sample;
  scope_path0 : seq sample;
  scope_path1 : seq sample
}.

(** The instrument is any function of the calls issued so far: whether the
    next call raises, and what [get_acquisitions] hands back. *)
Record instrument : Type := Instrument {
  raises : seq port_call -> port_call -> option pyexn;
  acquired : seq port_call -> string -> Z -> dict acquisition_data
}.

(** The entry of one resonator in the [measurement] dictionary; every value
    is the pair [[I, Q]] of lists that grow by one element per repetition. *)
Record record_entry : Type := RecordEntry {
  raw_readout : seq (seq sample) * seq (seq sample);
  raw_heralding : seq (seq sample) * seq (seq sample);
  Heterodyned_readout : seq (seq sample) * seq (seq sample);
  Heterodyned_heralding : seq (seq sample) * seq (seq sample)
}.

(** The attributes of the manager that [start_sequencer] reads: its own
    configuration, the variable manager, and the keys of [self.sequencer]
    and [self.module]. *)
Record DACManager : Type := MkDACManager {
  dac_config : string -> option Z;
  varman : string -> option Z;
  sequencer : seq string;
  module : seq string
}.

(** The state: the calls issued so far, each with whether it returned, and
    the caller's [measurement] dictionary, which is mutated in place. *)
Record world : Type := World {
  log : seq (port_call * bool);
  measurement : dict record_entry
}.

Definition session : Type -> Type := M world.

Variable qblox : instrument.

Definition call (c : port_call) : session unit :=
  fun w =>
    match raises qblox [seq e.1 | e <- log w] c with
    | Some e => (Raise e, World (rcons (log w) (c, false)) (measurement w))
    | None => (Ok tt, World (rcons (log w) (c, true)) (measurement w))
    end.

Definition call_get_acquisitions (r : string) (seq_idx : Z) :
    session (dict acquisition_data) :=
  fun w =>
    let history := [seq e.1 | e <- log w] in
    match raises qblox history (get_acquisitions r seq_idx) with
    | Some e =>
        (Raise e, World (rcons (log w) (get_acquisitions r seq_idx, false)) (measurement w))
    | None =>
        (Ok (acquired qblox history r seq_idx),
         World (rcons (log w) (get_acquisitions r seq_idx, true)) (measurement w))
    end.

Definition has_key (keys : seq string) (k : string) : session unit :=
  if has (String.eqb k) keys then ret tt else raise (KeyError k).

Definition lookup (store : string -> option Z) (key : string) : session Z :=
  if store key is Some v then ret v else raise (KeyError key).

(** [measurement[r][field][i].append(data[name][...])]: one in-place append
    to one of the lists of resonator [r]. The target list is looked up
    before the argument is. *)
Definition measurement_append (r : string) (data : dict acquisition_data)
    (name : string) (upd : record_entry -> acquisition_data -> record_entry) :
    session unit :=
  fun w =>
    match dict_get (measurement w) r with
    | None => (Raise (KeyError r), w)
    | Some entry =>
        match dict_get data name with
        | None => (Raise (KeyError name), w)
        | Some a => (Ok tt, World (log w) (dict_set (measurement w) r (upd entry a)))
        end
    end.

Definition append_I (p : seq (seq sample) * seq (seq sample)) (x : seq sample) :=
  (rcons p.1 x, p.2).

Definition append_Q (p : seq (seq sample) * seq (seq sample)) (x : seq sample) :=
  (p.1, rcons p.2 x).

(** The appends that follow the deletions, for resonator [r]. *)
Definition store_measurement (keep_raw : bool) (r : string)
    (data : dict acquisition_data) : session unit :=
  measurement_append r data "readout" (fun e a =>
    RecordEntry (raw_readout e) (raw_heralding e)
      (append_I (Heterodyned_readout e) (bins_path0 a)) (Heterodyned_heralding e)) ;;;
  measurement_append r data "readout" (fun e a =>
    RecordEntry (raw_readout e) (raw_heralding e)
      (append_Q (Heterodyned_readout e) (bins_path1 a)) (Heterodyned_heralding e)) ;;;
  measurement_append r data "heralding" (fun e a =>
    RecordEntry (raw_readout e) (raw_heralding e)
      (Heterodyned_readout e) (append_I (Heterodyned_heralding e) (bins_path0 a))) ;;;
  measurement_append r data "heralding" (fun e a =>
    RecordEntry (raw_readout e) (raw_heralding e)
      (Heterodyned_readout e) (append_Q (Heterodyned_heralding e) (bins_path1 a))) ;;;
  if keep_raw then
    measurement_append r data "readout" (fun e a =>
      RecordEntry (append_I (raw_readout e) (scope_path0 a)) (raw_heralding e)
        (Heterodyned_readout e) (Heterodyned_heralding e)) ;;;
    measurement_append r data "readout" (fun e a =>
      RecordEntry (append_Q (raw_readout e) (scope_path1 a)) (raw_heralding e)
        (Heterodyned_readout e) (Heterodyned_heralding e)) ;;;
    measurement_append r data "heralding" (fun e a =>
      RecordEntry (raw_readout e) (append_I (raw_heralding e) (scope_path0 a))
        (Heterodyned_readout e) (Heterodyned_heralding e)) ;;;
    measurement_append r data "heralding" (fun e a =>
      RecordEntry (raw_readout e) (append_Q (raw_heralding e) (scope_path1 a))
        (Heterodyned_readout e) (Heterodyned_heralding e))
  else ret tt.

(** The body of the loop over [tones] for one resonator tone. *)
Definition fetch_resonator (self : DACManager) (keep_raw : bool) (r : string) :
    session unit :=
  mod_idx <- lookup (varman self) (r ++ "/module") ;;
  timeout <- lookup (dac_config self)
               ("Module" ++ str_of_Z mod_idx ++ "/acquisition_timeout") ;;
  seq_idx <- lookup (varman self) (r ++ "/sequencer") ;;
  has_key (module self) r ;;;
  call (get_acquisition_state r seq_idx timeout) ;;;
  (if keep_raw then
     call (store_scope_acquisition r seq_idx "readout") ;;;
     call (store_scope_acquisition r seq_idx "heralding")
   else ret tt) ;;;
  data <- call_get_acquisitions r seq_idx ;;
  call (delete_acquisition_data r seq_idx "readout") ;;;
  call (delete_acquisition_data r seq_idx "heralding") ;;;
  store_measurement keep_raw r data.

Definition start_sequencer (self : DACManager) (tones : seq string)
    (keep_raw : bool) : session unit :=
  for_each tones (fun tone =>
    has_key (sequencer self) tone ;;; call (arm_sequencer tone)) ;;;
  call qblox_start_sequencer ;;;
  for_each tones (fun r =>
    if ~~ startswith r "R" then ret tt else fetch_resonator self keep_raw r).

End Instrument.

(** *** Reading the log

    [cleared_after_read log]: every [get_acquisitions] that returned is
    followed at once by [delete_acquisition_data] of 'readout' on the same
    sequencer, and every such deletion that returned is followed at once by
    the deletion of 'heralding'. *)
Definition next_call_is (c : port_call) (rest : seq (port_call * bool)) : bool :=
  if rest is (c', _) :: _ then port_call_eqb c' c else false.

Definition obligation_met (c : port_call) (returned : bool)
    (rest : seq (port_call * bool)) : bool :=
  match c with
  | get_acquisitions r seq_idx =>
      returned ==> next_call_is (delete_acquisition_data r seq_idx "readout") rest
  | delete_acquisition_data r seq_idx name =>
      returned && String.eqb name "readout" ==>
        next_call_is (delete_acquisition_data r seq_idx "heralding") rest
  | _ => true
  end.

Fixpoint cleared_after_read (log : seq (port_call * bool)) : bool :=
  match log with
  | [::] => true
  | (c, returned) :: rest => obligation_met c returned rest && cleared_after_read rest
  end.


(** A log is pending when its last call is a read, or a deletion of
    'readout', that returned: the next call has to be the matching
    deletion. *)
Definition pending (d : seq (port_call * bool)) : bool :=
  match last (qblox_start_sequencer, false) d with
  | (get_acquisitions _ _, returned) => returned
  | (delete_acquisition_data _ _ name, returned) => returned && String.eqb name "readout"
  | _ => false
  end.

Definition settled (d : seq (port_call * bool)) : bool :=
  cleared_after_read d && ~~ pending d.

(** A call other than a read or a deletion of 'readout' leaves nothing
    pending. *)
Definition quiet (c : port_call) : bool :=
  match c with
  | get_acquisitions _ _ => false
  | delete_acquisition_data _ _ name => ~~ String.eqb name "readout"
  | _ => true
  end.

(** [steps m]: whatever happens, [m] only appends to the log, and what it
    appends is settled. *)
Definition steps {sample A : Type} (m : session sample A) : Prop :=
  forall w : world sample, exists2 d, log (m w).2 = (log w ++ d)%SEQ & settled d.



(** *** A one-qubit, one-resonator set-up used in the examples *)

Definition example_dac : DACManager :=
  MkDACManager
    (dict_get [:: ("Module8/acquisition_timeout", 1%Z)])
    (dict_get [:: ("R3/module", 8%Z); ("R3/sequencer", 0%Z)])
    [:: "Q3/01"; "R3"]
    [:: "Q3"; "R3"].

Definition example_tones : seq string := [:: "Q3/01"; "R3"].

Definition example_world : world Q :=
  World [::] [:: ("R3", RecordEntry ([::], [::]) ([::], [::]) ([::], [::]) ([::], [::]))].

(** An instrument on which every call returns, with two bins of two
    points each. *)
Definition example_bins : dict (acquisition_data Q) :=
  [:: ("readout", AcquisitionData [:: 1 # 2; 1 # 4]%Q [:: 0 # 1; 1 # 8]%Q [::] [::]);
      ("heralding", AcquisitionData [:: 1 # 3; 1 # 5]%Q [:: 1 # 7; 1 # 9]%Q [::] [::])].

Definition healthy_instrument : instrument Q :=
  Instrument (fun _ _ => None) (fun _ _ _ => example_bins).

(** An instrument whose [get_acquisitions] raises. *)
Definition read_fails : instrument Q :=
  Instrument
    (fun _ c => if c is get_acquisitions _ _
                then Some (InstrumentError "get_acquisitions") else None)
    (fun _ _ _ => [::]).

End DAC.

(** ** [qtrlb/processing/processing.py]: IQ post-processing *)

Module Processing.

Local Open Scope R_scope.

(** *** Arrays

    A NumPy array is its shape and its elements in C (row-major) order.
    [np.array] applied to a nested list produces such an array. In this
    module arrays are values, and each function is what the Python function
    computes from the contents of its arguments; [np.array(input_data)] of
    an array is then the array itself. Which objects are copied, shared or
    created is the subject of the module [Store] further down. *)
Record ndarray (T : Type) : Type := NdArray {
  shape : seq nat;
  buf : seq T
}.

Definition numel (s : seq nat) : nat := foldr muln 1%nat s.

Definition well_formed {T : Type} (a : ndarray T) : bool :=
  size (buf a) == numel (shape a).

(** [np.array(rows)] for a list of lists of equal length. *)
Definition np_array2 {T : Type} (rows : seq (seq T)) : ndarray T :=
  NdArray [:: size rows; size (head [::] rows)] (flatten rows).

(** [a.reshape(s)] *)
Definition reshape {T : Type} (a : ndarray T) (s : seq nat) : result (ndarray T) :=
  if numel s == size (buf a) then Ok (NdArray s (buf a)) else Raise ValueError.

(** [a.reshape(a.shape[0], -1)]: the unknown dimension is inferred from
    the number of elements. *)
Definition reshape_rows {T : Type} (a : ndarray T) : result (ndarray T) :=
  match shape a with
  | [::] => Raise IndexError
  | n :: _ =>
      let k := (size (buf a) %/ n)%nat in
      if (n != 0%nat) && ((n * k)%nat == size (buf a))
      then Ok (NdArray [:: n; k] (buf a))
      else Raise ValueError
  end.

(** The sub-arrays [a[0], a[1], ...] along the first axis, each flattened. *)
Definition rows_of {T : Type} (a : ndarray T) : result (seq (seq T)) :=
  match shape a with
  | [::] => Raise TypeError
  | n :: rest =>
      let d := numel rest in
      Ok [seq take d (drop (k * d) (buf a)) | k <- iota 0 n]
  end.

(** [np.sum] of a flat list. *)
Definition Rsum (xs : seq R) : R := foldr Rplus 0 xs.

(** *** [rotate_IQ] *)

(** [np.einsum('ij,j...->i...', m, a)]: [result[i, ...]] is the sum over
    [j] of [m[i][j] * a[j, ...]]. The [j] axis of [a] is its first one and
    must be as long as the rows of [m]. *)
Definition einsum_ij_j (m : seq (seq R)) (a : ndarray R) : result (ndarray R) :=
  match shape a with
  | [::] => Raise ValueError
  | n :: rest =>
      if all (fun row => size row == n) m then
        let d := numel rest in
        Ok (NdArray (size m :: rest)
              (flatten [seq mkseq (fun k =>
                              Rsum [seq nth 0 row j * nth 0 (buf a) (j * d + k)%nat
                                   | j <- iota 0 n]) d
                       | row <- m]))
      else Raise ValueError
  end.

(** The message printed for an angle outside [-2 pi, 2 pi] does not change
    the result and is left out. *)
Definition rotate_IQ (input_data : ndarray R) (angle : R) : result (ndarray R) :=
  let rot_matrix := [:: [:: cos angle; - sin angle];
                        [:: sin angle; cos angle]] in
  einsum_ij_j rot_matrix input_data.

(** *** [normalize_population] *)

(** The flat positions of the elements that share all indices but the one
    along [axis]: [p] numbers the positions of the reduced array in C
    order, [len] is the length of [axis] and [inner] the number of elements
    of the trailing axes. *)
Definition lane (len inner p : nat) : seq nat :=
  [seq ((p %/ inner * len + r) * inner + p %% inner)%nat | r <- iota 0 len].

(** [np.mean] of a masked boolean lane, as it stands in the array that
    [np.array(result)] makes of the means: the fraction of the unmasked
    entries that are true. A lane with no element at all has no mean: NumPy
    yields NaN, here [None]. A lane whose elements are all masked yields a
    masked element; [np.array] drops the mask and keeps the number below
    it, which is the sum of no entry divided by nothing and put back by the
    masked division: 0.0. *)
Definition masked_mean (xs : seq (bool * bool)) : option R :=
  let cnt := count (fun x => ~~ x.2) xs in
  if nilp xs then None
  else if cnt == 0%nat then Some 0
  else Some (INR (count (fun x => x.1 && ~~ x.2) xs) / INR cnt).

(** [np.ma.MaskedArray(data, mask=mask)]: no mask, a mask of the size of
    the data, or a single flag for all of it. *)
Definition resolve_mask (n : nat) (mask : option (ndarray bool)) : result (seq bool) :=
  match mask with
  | None => Ok (nseq n false)
  | Some m =>
      if size (buf m) == n then Ok (buf m)
      else if size (buf m) == 1%nat then Ok (nseq n (head false (buf m)))
      else Raise MaskError
  end.

(** One element of [np.mean(masked_data == level, axis=axis)]. *)
Definition level_mean (labels : seq Z) (mk : seq bool) (level : nat)
    (positions : seq nat) : option R :=
  masked_mean [seq (Z.eqb (nth 0%Z labels t) (Z.of_nat level), nth false mk t)
              | t <- positions].

Definition normalize_population (input_data : ndarray Z) (n_levels : nat)
    (axis : nat) (mask : option (ndarray bool)) : result (ndarray (option R)) :=
  match resolve_mask (size (buf input_data)) mask with
  | Raise e => Raise e
  | Ok mk =>
      if n_levels == 0%nat then Ok (NdArray [:: 0%nat] [::])
      else if (axis < size (shape input_data))%nat then
        let s := shape input_data in
        let len := nth 0%nat s axis in
        let inner := numel (drop axis.+1 s) in
        let points := (numel (take axis s) * inner)%nat in
        Ok (NdArray (n_levels :: take axis s ++ drop axis.+1 s)
              (flatten [seq mkseq (fun p =>
                              level_mean (buf input_data) mk level (lane len inner p))
                              points
                       | level <- iota 0 n_levels]))
      else Raise AxisError
  end.

(** The sum over the level axis of a result of [normalize_population] at
    position [p] of the [points] positions of one level; [None] as soon as
    one of the summands is. *)
Definition option_add (x y : option R) : option R :=
  match x, y with
  | Some a, Some b => Some (a + b)
  | _, _ => None
  end.

Definition level_sum (population : ndarray (option R)) (n_levels points p : nat) :
    option R :=
  foldr option_add (Some 0)
    [seq nth None (buf population) (level * points + p)%nat | level <- iota 0 n_levels].

(** *** [correct_population] *)

(** The matrix held by a buffer of [m * n] elements, and back. *)
Definition mx_of_buf (m n : nat) (b : seq R) : 'M[R]_(m, n) :=
  \matrix_(i < m, j < n) nth 0 b (i * n + j)%nat.

Definition buf_of_mx (m n : nat) (A : 'M[R]_(m, n)) : seq R :=
  mkseq (fun t =>
           match insub (t %/ n)%nat, insub (t %% n)%nat with
           | Some i, Some j => A i j
           | _, _ => 0
           end) (m * n)%nat.

(** What LAPACK's [gesv], which [np.linalg.solve] calls, makes of a
    matrix that is singular. It factorises the matrix in floating point and
    reports failure only when a pivot is exactly zero; rounding can leave a
    tiny pivot where exact arithmetic has zero, and then numbers are
    returned without any error. Which of the two happens is not decided by
    the matrix as a matrix of real numbers: [zero_pivot] says whether the
    factorisation meets a zero pivot, [singular_solution] what is returned
    when it does not. *)
Record lapack : Type := Lapack {
  zero_pivot : forall n : nat, 'M[R]_n -> bool;
  singular_solution : forall n k : nat, 'M[R]_n -> 'M[R]_(n, k) -> 'M[R]_(n, k)
}.

Section Solve.

Variable gesv : lapack.

(** [np.linalg.solve(a, b)] for one square matrix [a] and a matrix [b] of
    right-hand sides. When [a] is invertible the result is the solution
    [a^-1 b], in exact arithmetic. When it is not, the result is
    [LinAlgError] ("Singular matrix") if the factorisation meets a zero
    pivot, and the numbers that [gesv] computes otherwise. Stacks of
    matrices (more than two axes) are outside this model. *)
Definition linalg_solve (a b : ndarray R) : result (ndarray R) :=
  match shape a, shape b with
  | [:: n; n'], [:: m; k] =>
      if n != n' then Raise LinAlgError
      else if m != n then Raise ValueError
      else
        let A := mx_of_buf n n (buf a) in
        let B := mx_of_buf n k (buf b) in
        if A \in unitmx then Ok (NdArray [:: n; k] (buf_of_mx (invmx A *m B)))
        else if zero_pivot gesv A then Raise LinAlgError
        else Ok (NdArray [:: n; k] (buf_of_mx (singular_solution gesv A B)))
  | _, _ => Raise LinAlgError
  end.

Definition correct_population (input_data corr_matrix : ndarray R) :
    result (ndarray R) :=
  result_bind (reshape_rows input_data) (fun flat_data =>
  result_bind (linalg_solve corr_matrix flat_data) (fun solved =>
  reshape solved (shape input_data))).

End Solve.

(** The factorisation in exact arithmetic: every singular matrix meets a
    zero pivot. *)
Definition exact_gesv : lapack := Lapack (fun _ _ => true) (fun _ _ _ B => B).


(** The forward model of the confusion matrix, [corr_matrix @ actual], for
    [actual] with one row per level. *)
Definition forward_model (corr_matrix actual : ndarray R) : ndarray R :=
  let n := head 0%nat (shape actual) in
  let k := numel (behead (shape actual)) in
  NdArray (shape actual)
    (buf_of_mx (mx_of_buf n n (buf corr_matrix) *m mx_of_buf n k (buf actual))).



(** *** [find_most_distant_points] *)

(** [np.linalg.norm(i - j)] *)
Definition distance (i j : seq R) : R :=
  sqrt (Rsum [seq (xy.1 - xy.2) * (xy.1 - xy.2) | xy <- zip i j]).

(** The two loop variables: [max_distance], and [point_i], [point_j] once
    they have been assigned. *)
Definition search_state : Type := R * option (seq R * seq R).

Definition inner_step (i : seq R) (st : search_state) (j : seq R) : search_state :=
  let distance_ij := distance i j in
  if Rltb st.1 distance_ij then (distance_ij, Some (i, j)) else st.

Definition outer_step (points : seq (seq R)) (st : search_state) (i : seq R) :
    search_state :=
  foldl (inner_step i) st points.

Definition find_most_distant_points (input_data : ndarray R) :
    result (seq R * seq R) :=
  match rows_of input_data with
  | Raise e => Raise e
  | Ok points =>
      match (foldl (outer_step points) (0, None) points).2 with
      | Some pq => Ok pq
      | None => Raise UnboundLocalError
      end
  end.

(** What the two loops maintain: [max_distance] is never negative, and
    once [point_i] and [point_j] are assigned they are two of the input
    points, at a strictly positive distance. *)
Definition search_inv (points : seq (seq R)) (st : search_state) : Prop :=
  0 <= st.1 /\
  forall i j, st.2 = Some (i, j) ->
    [/\ i \in points, j \in points & 0 < distance i j].

(** While nothing is assigned [max_distance] is still 0, and afterwards it
    is the distance of the assigned pair. *)
Definition search_value (st : search_state) : Prop :=
  match st.2 with
  | None => st.1 = 0
  | Some (i, j) => st.1 = distance i j
  end.

(** *** Gaussian mixtures and [autorotate_IQ]

    The fit and the prediction are scikit-learn's; [np.arctan2] is NumPy's.
    They are parameters. *)
Section Mixture.

(** [GaussianMixture(n_components, 'spherical').fit(samples)], returning
    [means_] of shape (n_components, 2) and [covariances_]. *)
Variable sklearn_fit : nat -> seq (R * R) -> result (ndarray R * ndarray R).

(** [gmm.predict(samples)] for a mixture with the given means, spherical
    covariances and equal weights. *)
Variable sklearn_predict : ndarray R -> ndarray R -> seq (R * R) -> result (seq Z).

Variable arctan2 : R -> R -> R.

(** [a.reshape(2, -1).T]: the list of (I, Q) samples. *)
Definition samples_of (a : ndarray R) : result (seq (R * R)) :=
  let b := buf a in
  if (size b %% 2 == 0)%nat
  then Ok (zip (take (size b %/ 2) b) (drop (size b %/ 2) b))
  else Raise ValueError.

Definition gmm_fit (input_data : ndarray R) (n_components : nat) :
    result (ndarray R * ndarray R) :=
  result_bind (samples_of input_data) (sklearn_fit n_components).

Definition gmm_predict (input_data means covariances : ndarray R) :
    result (ndarray Z) :=
  result_bind (samples_of input_data) (fun samples =>
  result_bind (sklearn_predict means covariances samples) (fun labels =>
  reshape (NdArray [:: size labels] labels) (behead (shape input_data)))).

(** [point[k]] *)
Definition item (point : seq R) (k : nat) : result R :=
  if (k < size point)%nat then Ok (nth 0 point k) else Raise IndexError.

Definition autorotate_IQ (input_data : ndarray R) (n_components : nat) :
    result (ndarray R) :=
  result_bind (gmm_fit input_data n_components) (fun fit =>
  result_bind (find_most_distant_points fit.1) (fun pq =>
  result_bind (item pq.1 1) (fun i1 =>
  result_bind (item pq.2 1) (fun j1 =>
  result_bind (item pq.1 0) (fun i0 =>
  result_bind (item pq.2 0) (fun j0 =>
  let angle := -1 * arctan2 (i1 - j1) (i0 - j0) in
  rotate_IQ input_data angle)))))).

End Mixture.

(** *** [get_readout_fidelity] *)

Definition get_readout_fidelity (confusion_matrix : ndarray R) : result R :=
  match shape confusion_matrix with
  | [:: r; c] =>
      if (0 < r)%nat && (0 < c)%nat then
        let row0 := take c (buf confusion_matrix) in
        Ok ((1 + nth 0 row0 0 - Rsum (drop 1 row0)) / 2)
      else Raise IndexError
  | [::] | [:: _] => Raise IndexError
  | _ => Raise TypeError
  end.

(** [M[i, j]] for a matrix given as a list of rows. *)
Definition entry (M : seq (seq R)) (i j : nat) : R := nth 0 (nth [::] M i) j.

(** *** Matrices used in the examples *)

(** The confusion matrix of the fidelity scenario. *)
Definition example_confusion : ndarray R :=
  NdArray [:: 2; 2]%nat [:: 95 / 100; 5 / 100; 5 / 100; 95 / 100].





End Processing.

(** ** The processing functions on objects

    The functions of processing.py receive references: two names can
    denote the same array, and a view shares the data of the array it was
    made from. Here objects live in a store; a reference is an index in it.
    [np.array] makes a new object with a copy of the data,
    [np.ma.MaskedArray(data, mask=mask)] makes a view that refers to the
    data it was given, and an assignment to an attribute, as in
    [gmm.means_ = means], changes the object it is made on. *)

Module Store.

Import Processing.

Local Open Scope py_scope.

Definition loc : Type := nat.

(** The attributes of a [GaussianMixture] that the functions assign or
    read; an attribute that has been assigned holds a reference. *)
Record mixture : Type := Mixture {
  means_ : option loc;
  covariances_ : option loc;
  precisions_cholesky_ : option loc;
  weights_ : option loc
}.

Inductive pyobj : Type :=
| FloatArray of ndarray R
| IntArray of ndarray Z
| BoolArray of ndarray bool
| PopulationArray of ndarray (option R)
| MaskedArray of loc & option loc
| GaussianMixture of mixture.

(** An array that holds its own data: neither a view nor a mixture. *)
Definition is_plain (o : pyobj) : bool :=
  match o with
  | MaskedArray _ _ | GaussianMixture _ => false
  | _ => true
  end.

Definition heap : Type := seq pyobj.

Definition py : Type -> Type := M heap.

(** A new object, at a fresh reference. *)
Definition alloc (o : pyobj) : py loc := fun h => (Ok (size h), rcons h o).

Definition deref (l : loc) : py pyobj :=
  fun h => if onth h l is Some o then (Ok o, h) else (Raise TypeError, h).

(** A change made on an existing object: the object at the reference is
    replaced. *)
Definition assign (l : loc) (o : pyobj) : py unit :=
  fun h => if (l < size h)%nat then (Ok tt, set_nth o h l o) else (Raise TypeError, h).

(** The array a reference gives access to: the object itself, or for a
    view the object it shares its data with. *)
Definition deref_data (l : loc) : py pyobj :=
  o <- deref l ;;
  match o with
  | MaskedArray data _ =>
      o' <- deref data ;;
      if is_plain o' then ret o' else raise TypeError
  | GaussianMixture _ => raise TypeError
  | _ => ret o
  end.

(** [gmm.attr = value] and [gmm.attr] *)
Definition get_mixture (gmm : loc) : py mixture :=
  o <- deref gmm ;;
  if o is GaussianMixture g then ret g else raise AttributeError.

Definition set_attr (gmm : loc) (upd : mixture -> mixture) : py unit :=
  g <- get_mixture gmm ;; assign gmm (GaussianMixture (upd g)).

Definition get_attr (gmm : loc) (attr : mixture -> option loc) : py loc :=
  g <- get_mixture gmm ;;
  if attr g is Some l then ret l else raise AttributeError.

Definition set_means (l : loc) (g : mixture) : mixture :=
  Mixture (Some l) (covariances_ g) (precisions_cholesky_ g) (weights_ g).

Definition set_covariances (l : loc) (g : mixture) : mixture :=
  Mixture (means_ g) (Some l) (precisions_cholesky_ g) (weights_ g).

Definition set_precisions_cholesky (l : loc) (g : mixture) : mixture :=
  Mixture (means_ g) (covariances_ g) (Some l) (weights_ g).

Definition set_weights (l : loc) (g : mixture) : mixture :=
  Mixture (means_ g) (covariances_ g) (precisions_cholesky_ g) (Some l).

(** [np.array(x)]: a new array holding a copy of the data of [x]. *)
Definition np_array (l : loc) : py loc :=
  o <- deref_data l ;; alloc o.

Definition bool_to_R (b : bool) : R := if b then 1%R else 0%R.

Definition bool_to_Z (b : bool) : Z := if b then 1%Z else 0%Z.

Definition map_array {A B : Type} (f : A -> B) (a : ndarray A) : ndarray B :=
  NdArray (shape a) [seq f x | x <- buf a].

(** The data behind a reference, read as floats, integers or flags. *)
Definition as_float (l : loc) : py (ndarray R) :=
  o <- deref_data l ;;
  match o with
  | FloatArray a => ret a
  | IntArray a => ret (map_array IZR a)
  | BoolArray a => ret (map_array bool_to_R a)
  | PopulationArray a =>
      if all isSome (buf a) then ret (map_array (odflt 0%R) a) else raise ValueError
  | MaskedArray _ _ | GaussianMixture _ => raise TypeError
  end.

Definition as_int (l : loc) : py (ndarray Z) :=
  o <- deref_data l ;;
  match o with
  | IntArray a => ret a
  | BoolArray a => ret (map_array bool_to_Z a)
  | _ => raise TypeError
  end.

Definition as_bool (l : loc) : py (ndarray bool) :=
  o <- deref_data l ;;
  match o with
  | BoolArray a => ret a
  | _ => raise TypeError
  end.

Definition rotate_IQ_ref (input_data : loc) (angle : R) : py loc :=
  input_data' <- np_array input_data ;;
  a <- as_float input_data' ;;
  result <- lift (Processing.rotate_IQ a angle) ;;
  alloc (FloatArray result).

Definition correct_population_ref (gesv : lapack) (input_data : loc)
    (corr_matrix : ndarray R) : py loc :=
  input_data' <- np_array input_data ;;
  a <- as_float input_data' ;;
  result <- lift (Processing.correct_population gesv a corr_matrix) ;;
  alloc (FloatArray result).

(** [masked_data] is a view of [input_data] (and of [mask]); the
    comparisons and the means read the labels through it. Labels are
    integers or flags. *)
Definition normalize_population_ref (input_data : loc) (n_levels axis : nat)
    (mask : option loc) : py loc :=
  masked_data <- alloc (MaskedArray input_data mask) ;;
  labels <- as_int masked_data ;;
  mk <- (if mask is Some m then (b <- as_bool m ;; ret (Some b)) else ret None) ;;
  result <- lift (Processing.normalize_population labels n_levels axis mk) ;;
  alloc (PopulationArray result).

Section Mixture.

Variable sklearn_fit : nat -> seq (R * R) -> result (ndarray R * ndarray R).
Variable sklearn_predict : ndarray R -> ndarray R -> seq (R * R) -> result (seq Z).

(** [sklearn.mixture._gaussian_mixture._compute_precision_cholesky] for
    spherical covariances. *)
Variable compute_precision_cholesky : ndarray R -> result (ndarray R).

Definition unfitted : mixture := Mixture None None None None.

(** [gmm.fit(samples)] stores what it has fitted in new arrays, under the
    attributes of [gmm]; the two that the function reads afterwards are
    modelled. The samples are a reshaped view of the copy of the input,
    which is only read. *)
Definition gmm_fit_ref (input_data : loc) (n_components : nat) : py (loc * loc) :=
  input_data' <- np_array input_data ;;
  gmm <- alloc (GaussianMixture unfitted) ;;
  a <- as_float input_data' ;;
  fit <- lift (Processing.gmm_fit sklearn_fit a n_components) ;;
  means <- alloc (FloatArray fit.1) ;;
  set_attr gmm (set_means means) ;;;
  covariances <- alloc (FloatArray fit.2) ;;
  set_attr gmm (set_covariances covariances) ;;;
  means' <- get_attr gmm means_ ;;
  covariances' <- get_attr gmm covariances_ ;;
  ret (means', covariances').

(** The shape of an array object, and [len(means)]: the length of its
    first axis. *)
Definition shape_of (o : pyobj) : option (seq nat) :=
  match o with
  | FloatArray a => Some (shape a)
  | IntArray a => Some (shape a)
  | BoolArray a => Some (shape a)
  | PopulationArray a => Some (shape a)
  | MaskedArray _ _ | GaussianMixture _ => None
  end.

Definition len (l : loc) : py nat :=
  o <- deref_data l ;;
  if shape_of o is Some (n :: _) then ret n else raise TypeError.

(** [np.ones(n_components) / n_components] *)
Definition equal_weights (n_components : nat) : ndarray R :=
  NdArray [:: n_components] (nseq n_components (1 / INR n_components)%R).

(** The four attributes are assigned on a new mixture; [gmm.predict] then
    reads them and the samples, and returns new labels. *)
Definition gmm_predict_ref (input_data means covariances : loc) : py loc :=
  input_data' <- np_array input_data ;;
  means' <- np_array means ;;
  covariances' <- np_array covariances ;;
  n_components <- len means' ;;
  gmm <- alloc (GaussianMixture unfitted) ;;
  set_attr gmm (set_means means') ;;;
  set_attr gmm (set_covariances covariances') ;;;
  c <- as_float covariances' ;;
  chol <- lift (compute_precision_cholesky c) ;;
  precisions <- alloc (FloatArray chol) ;;
  set_attr gmm (set_precisions_cholesky precisions) ;;;
  weights <- alloc (FloatArray (equal_weights n_components)) ;;
  set_attr gmm (set_weights weights) ;;;
  a <- as_float input_data' ;;
  means_l <- get_attr gmm means_ ;;
  covariances_l <- get_attr gmm covariances_ ;;
  get_attr gmm precisions_cholesky_ ;;;
  get_attr gmm weights_ ;;;
  m' <- as_float means_l ;;
  c' <- as_float covariances_l ;;
  result <- lift (Processing.gmm_predict sklearn_predict a m' c') ;;
  alloc (IntArray result).

End Mixture.

(** [preserves m]: whatever [m] returns or raises, the store it leaves is
    the store it found followed by new objects: no object that existed is
    changed. *)
Definition preserves {A : Type} (m : py A) : Prop :=
  forall h : heap, exists ext, (m h).2 = h ++ ext.

(** [returns_fresh m]: the reference [m] returns did not exist before. *)
Definition returns_fresh (m : py loc) : Prop :=
  forall (h : heap) (l : loc), (m h).1 = Ok l -> (size h <= l)%nat.

(** The same for a pair of references, both new and not the same. *)
Definition returns_fresh_pair (m : py (loc * loc)) : Prop :=
  forall (h : heap) (l1 l2 : loc),
    (m h).1 = Ok (l1, l2) -> [/\ (size h <= l1)%nat, (size h <= l2)%nat & l1 != l2].

(** [keeps n m P]: run from a store of [n] objects or more, [m] leaves
    the first [n] objects as they are, removes nothing, and returns only
    values that satisfy [P]. *)
Definition keeps {A : Type} (n : nat) (m : py A) (P : A -> Prop) : Prop :=
  forall h : heap, (n <= size h)%nat ->
    [/\ take n (m h).2 = take n h, (size h <= size (m h).2)%nat &
        forall a, (m h).1 = Ok a -> P a].

(** [copies_input_first f]: the first thing [f] does with a plain array it
    is given is to make a copy of it, the first new object of the store. *)
Definition copies_input_first {A : Type} (f : loc -> py A) : Prop :=
  forall (h : heap) (l : loc) (o : pyobj),
    onth h l = Some o -> is_plain o ->
    exists ext, (f l h).2 = h ++ o :: ext.

(** [views_input_first f mask]: the first new object is instead a masked
    view that refers to the input itself. *)
Definition views_input_first {A : Type} (f : loc -> py A) (mask : option loc) : Prop :=
  forall (h : heap) (l : loc),
    exists ext, (f l h).2 = h ++ MaskedArray l mask :: ext.

(** *** A store with one array of labels, and one with IQ-like data *)

Definition example_labels : ndarray Z :=
  np_array2 [:: [:: 0; 1; 0]; [:: 0; 0; 0]; [:: 0; 1; 0]; [:: 0; 1; 0]]%Z.

Definition example_heap : heap := [:: IntArray example_labels].

End Store.

(** ** Quantities read off IQ data and population arrays *)

Module ProcessingMeasures.

Import Processing.

Local Open Scope R_scope.

(** The power [I^2 + Q^2] of sample [k] of IQ data of shape (2, ...):
    [I] is [data[0]] and [Q] is [data[1]], both flattened. *)
Definition iq_power (d : ndarray R) (k : nat) : R :=
  let m := numel (behead (shape d)) in
  nth 0 (buf d) k * nth 0 (buf d) k +
  nth 0 (buf d) (m + k) * nth 0 (buf d) (m + k).

(** [np.sum(a, axis=0)] at flat position [k] of the remaining axes: for
    populations of shape (n_levels, ...) the total over the levels. *)
Definition column_total (d : ndarray R) (k : nat) : R :=
  let m := numel (behead (shape d)) in
  Rsum [seq nth 0 (buf d) (i * m + k)%nat | i <- iota 0 (head 0%nat (shape d))].

(** Every column of the matrix sums to 1, as the columns of a confusion
    matrix P(predicted i | actual j) do. *)
Definition column_stochastic (M : ndarray R) : Prop :=
  forall j, (j < numel (behead (shape M)))%nat -> column_total M j = 1.

(** The lane of position [p] has an entry that the mask lets through. *)
Definition lane_seen (mask : ndarray bool) (positions : seq nat) : bool :=
  has (fun t => ~~ nth false (buf mask) t) positions.

(** [np.arctan2(y, x)] on real numbers: the angle in (-pi, pi] of the point
    [(x, y)], and 0 at the origin. *)
Definition arctan2 (y x : R) : R :=
  if Rltb 0 x then atan (y / x)
  else if Rltb x 0 then
    if Rltb y 0 then atan (y / x) - PI else atan (y / x) + PI
  else if Rltb 0 y then PI / 2
  else if Rltb y 0 then - (PI / 2)
  else 0.

(** A fit that returns two blob centres, (0, 0) and (3, 4), whatever the
    samples are. *)
Definition example_fit (n_components : nat) (samples : seq (R * R)) :
    result (ndarray R * ndarray R) :=
  Ok (NdArray [:: 2; 2]%nat [:: 0; 0; 3; 4], NdArray [:: 2%nat] [:: 1; 1]).

End ProcessingMeasures.

(** ** One repetition on the instrument: the calls and the record *)

Module DACTrace.

Import DAC.

Local Open Scope string_scope.
Local Open Scope seq_scope.

(** The sequencer index and the acquisition timeout that [start_sequencer]
    looks up for resonator [r]; 0 stands for a missing key, which makes
    the look-up raise before any call is issued with it. *)
Definition seq_idx_of (self : DACManager) (r : string) : Z :=
  odflt 0%Z (varman self (r ++ "/sequencer")).

Definition timeout_of (self : DACManager) (r : string) : Z :=
  odflt 0%Z (dac_config self
               ("Module" ++ str_of_Z (odflt 0%Z (varman self (r ++ "/module")))
                ++ "/acquisition_timeout")).

(** The calls of the loop body for one resonator, in order. *)
Definition resonator_calls (self : DACManager) (keep_raw : bool) (r : string) :
    seq port_call :=
  let seq_idx := seq_idx_of self r in
  get_acquisition_state r seq_idx (timeout_of self r) ::
  (if keep_raw then [:: store_scope_acquisition r seq_idx "readout";
                        store_scope_acquisition r seq_idx "heralding"]
   else [::]) ++
  [:: get_acquisitions r seq_idx;
      delete_acquisition_data r seq_idx "readout";
      delete_acquisition_data r seq_idx "heralding"].

(** The calls of the loop body for [r] that come before its read. *)
Definition wait_calls (self : DACManager) (keep_raw : bool) (r : string) :
    seq port_call :=
  let seq_idx := seq_idx_of self r in
  get_acquisition_state r seq_idx (timeout_of self r) ::
  (if keep_raw then [:: store_scope_acquisition r seq_idx "readout";
                        store_scope_acquisition r seq_idx "heralding"]
   else [::]).

(** The calls that a repetition has made, all of them returned, when it
    reads the bins of [r]: the arming of every tone, the start, everything
    for the resonator tones that come before [r], and the wait for [r]. *)
Definition calls_before_read (self : DACManager) (tones : seq string)
    (keep_raw : bool) (r : string) : seq port_call :=
  [seq arm_sequencer tone | tone <- tones] ++
  qblox_start_sequencer ::
  flatten [seq resonator_calls self keep_raw r'
          | r' <- take (seq.index r tones) tones & startswith r' "R"] ++
  wait_calls self keep_raw r.

(** The calls of one whole repetition: every tone is armed, the cluster is
    started, then the resonator tones are fetched one after the other. *)
Definition repetition_calls (self : DACManager) (tones : seq string)
    (keep_raw : bool) : seq port_call :=
  [seq arm_sequencer tone | tone <- tones] ++
  qblox_start_sequencer ::
  flatten [seq resonator_calls self keep_raw r | r <- tones & startswith r "R"].

(** The call is an [arm_sequencer], and: the start of the cluster was
    issued among the calls [d]. *)
Definition is_arm (c : port_call) : bool :=
  if c is arm_sequencer _ then true else false.

Definition started (d : seq (port_call * bool)) : bool :=
  has (fun e => port_call_eqb e.1 qblox_start_sequencer) d.

Section Record.

Variable sample : Type.

(** The I list and the Q list of a pair have the same number of rows. *)
Definition balanced_pair (p : seq (seq sample) * seq (seq sample)) : bool :=
  size p.1 == size p.2.

Definition balanced (e : record_entry sample) : bool :=
  [&& balanced_pair (raw_readout e), balanced_pair (raw_heralding e),
      balanced_pair (Heterodyned_readout e) & balanced_pair (Heterodyned_heralding e)].

Definition all_balanced (m : dict (record_entry sample)) : bool :=
  all (fun kv => balanced kv.2) m.

(** The number of rows of the heterodyned lists of an entry, and of its
    raw lists. *)
Definition heterodyned_rows (e : record_entry sample) : seq nat :=
  [:: size (Heterodyned_readout e).1; size (Heterodyned_readout e).2;
      size (Heterodyned_heralding e).1; size (Heterodyned_heralding e).2].

Definition raw_rows (e : record_entry sample) : seq nat :=
  [:: size (raw_readout e).1; size (raw_readout e).2;
      size (raw_heralding e).1; size (raw_heralding e).2].

(** How many times the loop body runs for [r]: its occurrences among the
    tones, when it is a resonator tone. *)
Definition fetches (tones : seq string) (r : string) : nat :=
  count (fun tone => startswith tone "R" && (tone == r)) tones.

(** The entry of a resonator after one repetition: the bins of 'readout'
    and of 'heralding' are appended, path0 to the I list and path1 to the
    Q list, and the scope traces likewise when [keep_raw]. *)
Definition grown (keep_raw : bool) (e : record_entry sample)
    (rd hd : acquisition_data sample) : record_entry sample :=
  RecordEntry
    (if keep_raw
     then (rcons (raw_readout e).1 (scope_path0 rd), rcons (raw_readout e).2 (scope_path1 rd))
     else raw_readout e)
    (if keep_raw
     then (rcons (raw_heralding e).1 (scope_path0 hd),
           rcons (raw_heralding e).2 (scope_path1 hd))
     else raw_heralding e)
    (rcons (Heterodyned_readout e).1 (bins_path0 rd),
     rcons (Heterodyned_readout e).2 (bins_path1 rd))
    (rcons (Heterodyned_heralding e).1 (bins_path0 hd),
     rcons (Heterodyned_heralding e).2 (bins_path1 hd)).

(** [keeps_balanced m]: whatever happens, [m] leaves every entry of the
    measurement record with I and Q lists of equal length. *)
Definition keeps_balanced {A : Type} (m : session sample A) : Prop :=
  forall w, all_balanced (measurement w) -> all_balanced (measurement (m w).2).

(** [stored qblox self keep_raw history m m' r]: the entry of [r] in [m']
    is its entry in [m] grown by the bins that the instrument hands back
    when [get_acquisitions] is called for the sequencer of [r] after the
    calls [history]. *)
Definition stored (qblox : instrument sample) (self : DACManager) (keep_raw : bool)
    (history : seq port_call) (m m' : dict (record_entry sample)) (r : string) : Prop :=
  exists e rd hd,
    [/\ dict_get m r = Some e,
        dict_get (acquired qblox history r (seq_idx_of self r)) "readout" = Some rd,
        dict_get (acquired qblox history r (seq_idx_of self r)) "heralding" = Some hd &
        dict_get m' r = Some (grown keep_raw e rd hd)].

End Record.

(** An instrument whose bins depend on the calls made so far: the first
    sample of 'readout' counts them. *)
Definition counting_instrument : instrument Q :=
  Instrument (fun _ _ => None)
    (fun history _ _ =>
       [:: ("readout",
            AcquisitionData [:: inject_Z (Z.of_nat (size history))] [:: 0%Q] [::] [::]);
           ("heralding", AcquisitionData [:: 0%Q] [:: 0%Q] [::] [::])]).

(** A set-up with two resonators, and a record with an empty entry for
    each. *)
Definition two_resonators : DACManager :=
  MkDACManager
    (dict_get [:: ("Module8/acquisition_timeout", 1%Z)])
    (dict_get [:: ("R3/module", 8%Z); ("R3/sequencer", 0%Z);
                  ("R4/module", 8%Z); ("R4/sequencer", 1%Z)])
    [:: "R3"; "R4"]
    [:: "R3"; "R4"].

Definition empty_entry : record_entry Q :=
  RecordEntry ([::], [::]) ([::], [::]) ([::], [::]) ([::], [::]).

Definition two_entries : world Q :=
  World [::] [:: ("R3", empty_entry); ("R4", empty_entry)].

End DACTrace.

(** ** [DACManager.tone_to_qudit]: from tones to qudits *)

Module Tones.

Local Open Scope string_scope.

(** What [tone_to_qudit] may be given: a string, a list of such values
    (nested to any depth), or a value that is neither; an integer stands
    for the latter. *)
Inductive pyval : Type :=
| PStr of string
| PList of seq pyval
| PInt of Z.

(** Python's [==] on these values, as used by [q not in qudit]. *)
Fixpoint pyval_eqb (a b : pyval) : bool :=
  match a, b with
  | PStr s, PStr t => String.eqb s t
  | PList xs, PList ys =>
      (fix all2 (xs ys : seq pyval) : bool :=
         match xs, ys with
         | [::], [::] => true
         | x :: xs', y :: ys' => pyval_eqb x y && all2 xs' ys'
         | _, _ => false
         end) xs ys
  | PInt m, PInt n => Z.eqb m n
  | _, _ => false
  end.

(** [s.split(sep)] for a separator of one character. *)
Fixpoint split_on (sep : ascii) (s : string) : seq string :=
  match s with
  | EmptyString => [:: EmptyString]
  | String c s' =>
      if Ascii.eqb c sep then EmptyString :: split_on sep s'
      else match split_on sep s' with
           | h :: t => String c h :: t
           | [::] => [:: String c EmptyString]
           end
  end.

Definition translate_message (tone : string) : string :=
  "DAC: Cannot translate " ++ tone ++ " to qudit.".

(** The branch for a string: the assertion, then
    [qudit, _ = tone.split('/')], whose [ValueError] (raised when the
    split does not have exactly two parts) is caught and answered with the
    tone itself. *)
Definition tone_to_qudit_str (tone : string) : result string :=
  if startswith tone "Q" || startswith tone "R" then
    match split_on "/" tone with
    | [:: qudit; _] => Ok qudit
    | _ => Ok tone
    end
  else Raise (AssertionError (translate_message tone)).

Fixpoint tone_to_qudit (tone : pyval) : result pyval :=
  match tone with
  | PStr s =>
      match tone_to_qudit_str s with
      | Ok q => Ok (PStr q)
      | Raise e => Raise e
      end
  | PList ts =>
      (fix loop (ts : seq pyval) (qudit : seq pyval) : result pyval :=
         match ts with
         | [::] => Ok (PList qudit)
         | t :: ts' =>
             match tone_to_qudit t with
             | Raise e => Raise e
             | Ok q => loop ts' (if has (pyval_eqb q) qudit then qudit else rcons qudit q)
             end
         end) ts [::]
  | PInt _ => Raise TypeError
  end.

(** The loop of the list branch, from a given value of [qudit]. *)
Fixpoint qudit_loop (ts : seq pyval) (qudit : seq pyval) : result pyval :=
  match ts with
  | [::] => Ok (PList qudit)
  | t :: ts' =>
      match tone_to_qudit t with
      | Raise e => Raise e
      | Ok q => qudit_loop ts' (if has (pyval_eqb q) qudit then qudit else rcons qudit q)
      end
  end.

(** The number of occurrences of a character in a string, and the part of
    the string before its first occurrence. *)
Fixpoint occurrences (c : ascii) (s : string) : nat :=
  match s with
  | EmptyString => 0
  | String c' s' => (Ascii.eqb c' c : nat) + occurrences c s'
  end.

Fixpoint before (c : ascii) (s : string) : string :=
  match s with
  | EmptyString => EmptyString
  | String c' s' => if Ascii.eqb c' c then EmptyString else String c' (before c s')
  end.

(** A tone that the assertion accepts. *)
Definition valid_tone (tone : string) : bool :=
  startswith tone "Q" || startswith tone "R".

(** The qudit of a valid tone. *)
Definition qudit_of (tone : string) : string :=
  if occurrences "/" tone == 1 then before "/" tone else tone.

(** The list [qudit] after one more result [q] of the loop has been
    looked at, for strings. *)
Definition add_qudit (qudit : seq string) (q : string) : seq string :=
  if q \in qudit then qudit else rcons qudit q.

(** No element of [l] equals, in the sense of Python's [==], an element of
    [seen] or an earlier element of [l]. *)
Fixpoint fresh_after (seen l : seq pyval) : bool :=
  match l with
  | [::] => true
  | x :: l' => ~~ has (pyval_eqb x) seen && fresh_after (rcons seen x) l'
  end.

(** A value that [tone_to_qudit] returns as it is. *)
Definition fixed (q : pyval) : Prop := tone_to_qudit q = Ok q.

End Tones.

(** ** The sequences that [Scan.make_sequence] compiles *)

Module CalibrationPrograms.

Import Calibration.

Local Open Scope string_scope.

Section Programs.

Variable waveform : Type.
Variable get_waveform : Z -> string -> result waveform.
Variable pulse_interpreter :
  config -> string -> string -> Z -> option Z -> result string.

(** The waveform that [set_waveforms_acquisitions] computes for a qudit. *)
Definition waveform_of (self : Scan) (qudit : string) : result waveform :=
  let pulse_type := if startswith qudit "Q" then "qubit" else "resonator" in
  result_bind (cfg_float (cfg self) ("common/" ++ pulse_type ++ "_pulse_length"))
    (fun len =>
  result_bind (cfg_str (cfg self) (qudit ++ "/pulse_shape")) (fun shape =>
  get_waveform (py_round (len * inject_Z (10 ^ 9))%Q) shape)).

(** What one column of a stage adds to the program of a qudit: the header
    of the stage and the interpreted pulse of the cell. *)
Definition cell_text (self : Scan) (name : string) (acq_index : option Z)
    (column : column) (qudit : string) : result string :=
  match dict_get (col_cells column) qudit with
  | None => Raise (KeyError qudit)
  | Some init_pulse_str =>
      result_bind (pulse_interpreter (cfg self) qudit init_pulse_str
                     (col_length column) acq_index)
        (fun body => Ok (stage_header name ++ body))
  end.

Definition text_of (r : result string) : string := if r is Ok s then s else "".

(** What a whole stage adds, column after column. *)
Definition stage_text (self : Scan) (df : DataFrame) (name : string)
    (acq_index : option Z) (qudit : string) : string :=
  foldr (fun column rest => text_of (cell_text self name acq_index column qudit) ++ rest)
        "" df.

(** The relaxation time in microseconds as [add_relaxation] computes it,
    from the float product. *)
Definition relaxation_us (self : Scan) : result Z :=
  result_bind (cfg_float (cfg self) "common/relaxation_time") ceil_us.

Definition relaxation_time_us (self : Scan) : Z :=
  if relaxation_us self is Ok us then us else 0%Z.

(** The program of a qudit when heralding is disabled. *)
Definition compiled_program (self : Scan) (qudit : string) : string :=
  init_text ++ mainloop_text ++ relaxation_text (relaxation_time_us self) ++
  stage_text self (full_prepulse_df self) "Prepulse" None qudit ++
  stage_text self (postpulse_df self) "Postpulse" None qudit ++
  stage_text self (readout_df self) "Readout" (Some 0%Z) qudit ++
  stop_text self.

(** The entry of a qudit in [self.sequences] with a given program. *)
Definition sequence_with (self : Scan) (qudit : string) (p : option string) :
    sequence waveform :=
  Sequence (if waveform_of self qudit is Ok wf then Some [:: (qudit, (wf, 0%Z))] else None)
           (Some [::]) (Some (acquisitions_table self)) p.

Definition compiled_sequence (self : Scan) (qudit : string) : sequence waveform :=
  sequence_with self qudit (Some (compiled_program self qudit)).

(** Every cell of the stage is there and is understood by
    [pulse_interpreter]. *)
Definition stage_ready (self : Scan) (df : DataFrame) (name : string)
    (acq_index : option Z) : bool :=
  all (fun column =>
         all (fun qudit => is_ok (cell_text self name acq_index column qudit))
             (qudits self)) df.

(** The conditions under which the compilation goes through: distinct
    qudits, heralding disabled, a waveform for every qudit, a relaxation
    time whose number of microseconds is finite, and three stages that are
    ready. *)
Definition compilable (self : Scan) : bool :=
  [&& uniq (qudits self), ~~ heralding_enable self,
      all (fun qudit => is_ok (waveform_of self qudit)) (qudits self),
      is_ok (relaxation_us self),
      stage_ready self (full_prepulse_df self) "Prepulse" None,
      stage_ready self (postpulse_df self) "Postpulse" None &
      stage_ready self (readout_df self) "Readout" (Some 0%Z)].

(** A dictionary with one entry per key, in order. *)
Definition tabulate {V : Type} (keys : seq string) (g : string -> V) : dict V :=
  [seq (q, g q) | q <- keys].

End Programs.

(** The example scan with heralding switched off. *)
Definition example_plain_scan : Scan :=
  MkScan (cfg example_scan) (qudits example_scan) (x_points example_scan) false
    (full_prepulse_df example_scan) (postpulse_df example_scan) (readout_df example_scan).

(** The same scan with a relaxation time of 123 microseconds, written
    0.000123 in the configuration. *)
Definition example_scan_123us : Scan :=
  MkScan (fun key => if String.eqb key "common/relaxation_time"
                     then Some (CfgFloat (123 # 1000000)) else cfg example_scan key)
    (qudits example_scan) (x_points example_scan) false
    (full_prepulse_df example_scan) (postpulse_df example_scan) (readout_df example_scan).

End CalibrationPrograms.

(** ** The pulse tables of a scan

    [Scan.dict_to_DataFrame], [Scan.generate_pulse_dataframe] and
    [Scan.add_pulse] of calibration.py. A pandas DataFrame is modelled by
    the list of its columns in [items()] order; a column is its name and
    its cells, one per row label that holds a string. A cell that pandas
    holds as NaN, in a row that the table received from another one by
    [pd.concat], is an absent cell. *)

Module PulseFrames.

Import Calibration Tones.

Local Open Scope string_scope.

Definition pulse_dict : Type := dict (seq string).

Definition named_frame : Type := seq (string * dict string).

(** [for row in rows: if row not in dic: dic[row] = []] *)
Definition fill_rows (dic : pulse_dict) (rows : seq string) : pulse_dict :=
  foldl (fun d row => if dict_get d row is Some _ then d else dict_set d row [::])
        dic rows.

(** [dataframe.shape[1]] of [pd.DataFrame.from_dict(dic, orient='index')]:
    the length of the longest list. *)
Definition n_columns (dic : pulse_dict) : nat :=
  foldr maxn 0%nat [seq size kv.2 | kv <- dic].

(** [pd.DataFrame.from_dict(dic, orient='index')] with its columns renamed
    [name_0], [name_1], ... and its missing cells filled with [padding]:
    a row shorter than [i + 1] has [padding] in column [i]. *)
Definition table_of (dic : pulse_dict) (name padding : string) : named_frame :=
  [seq (name ++ "_" ++ str_of_Z (Z.of_nat i),
        [seq (kv.1, nth padding kv.2 i) | kv <- dic])
  | i <- iota 0 (n_columns dic)].

(** [dict_to_DataFrame(dic, name, rows, padding)]. The dictionary passed
    in is mutated; it is returned with the table. *)
Definition dict_to_DataFrame (dic : pulse_dict) (name : string) (rows : seq string)
    (padding : string) : pulse_dict * named_frame :=
  let dic' := fill_rows dic rows in
  (dic', table_of dic' name padding).

(** [for col_name, column in df.items(): column.length = length]. The
    attribute is set on the column objects that [items()] yields; they are
    the cached columns of the table, the same objects that the later loops
    of [make_sequence] get, so the length is part of the column. *)
Definition with_length (length : Z) (df : named_frame) : DataFrame :=
  [seq Column length c.2 | c <- df].

(** The attributes of [self] that [generate_pulse_dataframe] reads. *)
Record ScanTables : Type := MkScanTables {
  tables_cfg : config;
  drive_qubits : seq string;
  readout_resonators : seq string;
  subspace : seq string;
  prepulse : pulse_dict;
  postpulse : pulse_dict
}.

(** [self.qudits = self.drive_qubits + self.readout_resonators] *)
Definition tables_qudits (self : ScanTables) : seq string :=
  (drive_qubits self ++ readout_resonators self)%SEQ.

(** [int(c)] for one character. *)
Definition int_of_char (c : ascii) : result nat :=
  let n := nat_of_ascii c in
  if (48 <= n)%nat && (n <= 57)%nat then Ok (n - 48)%nat else Raise ValueError.

(** [int(ss[0])] *)
Definition first_level (ss : string) : result nat :=
  match ss with
  | EmptyString => Raise IndexError
  | String c _ => int_of_char c
  end.

(** [[f'X180_{l}{l+1}' for l in range(n)]] *)
Definition subspace_gates (n : nat) : seq string :=
  [seq "X180_" ++ str_of_Z (Z.of_nat l) ++ str_of_Z (Z.of_nat l.+1) | l <- iota 0 n].

(** The loop over [zip(self.drive_qubits, self.subspace)]. *)
Fixpoint subspace_pulses (qs sss : seq string) (subspace_pulse : pulse_dict) :
    result pulse_dict :=
  match qs, sss with
  | q :: qs', ss :: sss' =>
      match first_level ss with
      | Ok n => subspace_pulses qs' sss' (dict_set subspace_pulse q (subspace_gates n))
      | Raise e => Raise e
      end
  | _, _ => Ok subspace_pulse
  end.

(** [{r: ['RO'] for r in self.readout_resonators}] *)
Definition readout_pulses (rs : seq string) : pulse_dict :=
  foldl (fun d r => dict_set d r [:: "RO"]) [::] rs.

(** What [generate_pulse_dataframe] leaves in [self]: the three tables
    that [make_sequence] reads. *)
Record PulseTables : Type := MkPulseTables {
  tables_full_prepulse_df : DataFrame;
  tables_postpulse_df : DataFrame;
  tables_readout_df : DataFrame
}.

Definition ns (seconds : Q) : Z := py_round (seconds * inject_Z (10 ^ 9))%Q.

Definition generate_pulse_dataframe (self : ScanTables) : result PulseTables :=
  let qudits := tables_qudits self in
  result_bind (subspace_pulses (drive_qubits self) (subspace self) [::])
    (fun subspace_pulse =>
  let readout_pulse := readout_pulses (readout_resonators self) in
  let prepulse_df := (dict_to_DataFrame (prepulse self) "prepulse" qudits "I").2 in
  let subspace_df := (dict_to_DataFrame subspace_pulse "subspace" qudits "I").2 in
  let postpulse_df := (dict_to_DataFrame (postpulse self) "postpulse" qudits "I").2 in
  let readout_df := (dict_to_DataFrame readout_pulse "readout" qudits "I").2 in
  let full_prepulse_df := (subspace_df ++ prepulse_df)%SEQ in
  result_bind (cfg_float (tables_cfg self) "common/resonator_pulse_length")
    (fun resonator_pulse_length =>
  result_bind (cfg_float (tables_cfg self) "common/tof") (fun tof =>
  result_bind (cfg_float (tables_cfg self) "common/qubit_pulse_length")
    (fun qubit_pulse_length =>
  let readout_length_ns := ns resonator_pulse_length in
  let tof_ns := ns tof in
  let drive_length_ns := ns qubit_pulse_length in
  Ok (MkPulseTables (with_length drive_length_ns full_prepulse_df)
                    (with_length drive_length_ns postpulse_df)
                    (with_length (tof_ns + readout_length_ns)%Z readout_df)))))).

(** The scan that [make_sequence] compiles from these tables. *)
Definition scan_of (self : ScanTables) (tables : PulseTables) (x_points : Z)
    (heralding_enable : bool) : Scan :=
  MkScan (tables_cfg self) (tables_qudits self) x_points heralding_enable
    (tables_full_prepulse_df tables) (tables_postpulse_df tables)
    (tables_readout_df tables).

(** Every column of the table has a cell for every one of the rows. *)
Definition complete (df : DataFrame) (rows : seq string) : bool :=
  all (fun column => all (fun row => isSome (dict_get (col_cells column) row)) rows) df.

(** No list of the dictionary is longer than [m]. *)
Definition bounded (m : nat) (d : pulse_dict) : bool :=
  all (fun kv => (size kv.2 <= m)%nat) d.

(** *** [add_pulse] *)



Section AddPulse.

Variable waveform : Type.
Variable pulse_interpreter :
  config -> string -> string -> Z -> option Z -> result string.

Local Open Scope py_scope.


End AddPulse.

(** *** The tables of the example scan *)

Definition example_tables : ScanTables :=
  MkScanTables (dict_get example_variables) [:: "Q3"] [:: "R3"] [:: "12"]
    [:: ("Q3", [:: "Y90_12"; "Z90_12"])] [::].

End PulseFrames.

(** ** [qtrlb/config/variable_manager.py]: the reference tone of an
    anharmonicity

    [VariableManager.set_parameters] reads and writes the configuration
    through the [Config] class, which is outside this development. The
    part modelled here is the computation, for a qubit tone
    [qudit/subtone], of the tone against which its anharmonicity is taken:
    it is pure string and integer arithmetic. *)

Module Subtones.

Local Open Scope string_scope.

Definition is_digit (c : ascii) : bool :=
  let n := nat_of_ascii c in (48 <= n)%nat && (n <= 57)%nat.

Fixpoint all_digits (s : string) : bool :=
  match s with
  | EmptyString => true
  | String c s' => is_digit c && all_digits s'
  end.

(** [s.isdecimal()] *)
Definition isdecimal (s : string) : bool :=
  (0 < String.length s)%nat && all_digits s.

(** [s[k:]] *)
Fixpoint string_drop (k : nat) (s : string) : string :=
  match k, s with
  | k'.+1, String _ s' => string_drop k' s'
  | _, _ => s
  end.

(** [int(s)] for a string of decimal digits. *)
Definition int_of_decimal (s : string) : result Z :=
  match s with
  | EmptyString => Raise ValueError
  | _ =>
      match NilEmpty.uint_of_string s with
      | Some d => Ok (Z.of_uint d)
      | None => Raise ValueError
      end
  end.

(** [last_tone] of the loop body, or [None] when the body is left by
    [continue] before it is computed:

    [if (not subtone.isdecimal()) or subtone == '01': continue]
    [level_high = int(subtone[int(len(subtone)/2):])]
    [last_tone = f'{qudit}/{level_high - 2}{level_high - 1}'] *)
Definition last_tone (qudit subtone : string) : result (option string) :=
  if ~~ isdecimal subtone || (subtone == "01") then Ok None
  else
    result_bind (int_of_decimal (string_drop (String.length subtone %/ 2) subtone))
      (fun level_high =>
         Ok (Some (qudit ++ "/" ++ str_of_Z (level_high - 2)
                         ++ str_of_Z (level_high - 1)))).

End Subtones.

(** * Properties *)

(** ** Generic facts about the monad *)

Lemma bind_ok_inv {S A B : Type} (m : M S A) (f : A -> M S B) (s t : S) (b : B) :
  bind m f s = (Ok b, t) ->
  exists a s', m s = (Ok a, s') /\ f a s' = (Ok b, t).
Proof.
rewrite /bind; case: (m s) => [[a|e] s'] //= H.
by exists a, s'.
Qed.

Lemma bind_raise {S A B : Type} (m : M S A) (f : A -> M S B) (s s' : S) (e : pyexn) :
  m s = (Raise e, s') -> bind m f s = (Raise e, s').
Proof. by rewrite /bind => ->. Qed.

Lemma bind_ok {S A B : Type} (m : M S A) (f : A -> M S B) (s s' : S) (a : A) :
  m s = (Ok a, s') -> bind m f s = f a s'.
Proof. by rewrite /bind => ->. Qed.

Lemma dict_get_set {V : Type} (d : dict V) (k q : string) (v : V) :
  dict_get (dict_set d k v) q = if k == q then Some v else dict_get d q.
Proof.
elim: d => [|[k0 v0] d IH] /=; first by [].
have E a b : String.eqb a b = (a == b) by [].
rewrite !E; case: (k0 =P k) => [->|Hk] /=; rewrite !E.
  by case: (k =P q).
rewrite IH; case: (k0 =P q) => [Hq|//].
by case: (k =P q) => // Hkq; case: Hk; rewrite Hq Hkq.
Qed.

(** ** The compiler of [Scan] *)

Module CalibrationFacts.

Import Calibration.

Local Open Scope string_scope.

(** [65535 & time_ns] keeps the low 16 bits of [time_ns]. *)
Lemma land_65535 (z : Z) : Z.land 65535 z = (z mod 65536)%Z.
Proof.
rewrite Z.land_comm.
have -> : 65535%Z = Z.ones 16 by [].
by rewrite Z.land_ones.
Qed.

(** What the assertion of [add_wait] accepts: exactly the negative
    durations whose low 16 bits are at least 4. *)
Lemma wait_time_check_spec (z : Z) :
  wait_time_check z = (z <? 0)%Z && (4 <=? z mod 65536)%Z.
Proof.
rewrite /wait_time_check land_65535.
have Hm : (0 <= z mod 65536 < 65536)%Z by apply: Z.mod_pos_bound.
have -> : (z mod 65536 >=? 4)%Z = (4 <=? z mod 65536)%Z.
  by rewrite Z.geb_leb.
congr (_ && _).
case: (Z.ltb_spec z 0) => Hz.
  by apply/Z.ltb_lt; lia.
apply/Z.ltb_ge.
have := Z.mod_le z 65536 Hz; lia.
Qed.

Lemma wait_time_check_nonneg (z : Z) : (0 <= z)%Z -> wait_time_check z = false.
Proof.
move=> Hz; rewrite wait_time_check_spec.
by have -> : (z <? 0)%Z = false by apply/Z.ltb_ge.
Qed.

Section CompilerFacts.

Variable waveform : Type.
Variable get_waveform : Z -> string -> result waveform.
Variable pulse_interpreter :
  config -> string -> string -> Z -> option Z -> result string.

Notation add_wait_ns := (@add_wait_ns waveform).
Notation add_wait := (@add_wait waveform).
Notation add_heralding := (@add_heralding waveform pulse_interpreter).
Notation make_sequence := (@make_sequence waveform get_waveform pulse_interpreter).

(** Every duration of zero or more nanoseconds is refused, the legal ones
    in [4, 65535) included, and [self.sequences] is left as it was. *)
Lemma add_wait_ns_nonneg_raises (self : Scan) (time_ns : Z) (seqs : dict (sequence waveform)) :
  (0 <= time_ns)%Z ->
  add_wait_ns self time_ns seqs = (Raise (AssertionError wait_time_message), seqs).
Proof. by move=> Hz; rewrite /Calibration.add_wait_ns wait_time_check_nonneg. Qed.

(** With heralding enabled and a heralding delay that rounds to zero or
    more nanoseconds, [add_heralding] never completes. *)
Lemma add_heralding_nonneg_fails (self : Scan) (delay : Q) (seqs seqs' : dict (sequence waveform)) :
  cfg self "common/heralding_delay" = Some (CfgFloat delay) ->
  (0 <= py_round (delay * inject_Z (10 ^ 9))%Q)%Z ->
  add_heralding self 1 seqs <> (Ok tt, seqs').
Proof.
move=> Hcfg Hns; rewrite /Calibration.add_heralding /cfg_float Hcfg.
rewrite (@bind_ok _ _ _ _ _ _ seqs delay) // => H.
have [[] [s1 [_]]] := bind_ok_inv H.
by rewrite /Calibration.add_wait add_wait_ns_nonneg_raises.
Qed.

Lemma make_sequence_heralding_nonneg_fails (self : Scan) (delay : Q)
    (seqs seqs' : dict (sequence waveform)) :
  heralding_enable self ->
  cfg self "common/heralding_delay" = Some (CfgFloat delay) ->
  (0 <= py_round (delay * inject_Z (10 ^ 9))%Q)%Z ->
  make_sequence self seqs <> (Ok tt, seqs').
Proof.
move=> Hh Hcfg Hns; rewrite /Calibration.make_sequence Hh.
do 6![move=> H; have [[] [? [_ {H}]]] := bind_ok_inv H].
move=> H; have [[] [? [{}H _]]] := bind_ok_inv H.
exact: (add_heralding_nonneg_fails Hcfg Hns H).
Qed.

(** *** The acquisitions tables *)

Notation allocated := (@allocated waveform).
Notation keeps_tables := (@keeps_tables waveform).

Lemma keeps_tables_ret {A : Type} (self : Scan) (a : A) : keeps_tables self (ret a).
Proof. by []. Qed.

Lemma keeps_tables_raise {A : Type} (self : Scan) (e : pyexn) :
  keeps_tables self (raise e : compiler waveform A).
Proof. by []. Qed.

Lemma keeps_tables_lift {A : Type} (self : Scan) (r : result A) :
  keeps_tables self (lift r).
Proof. by []. Qed.

Lemma keeps_tables_bind {A B : Type} (self : Scan) (m : compiler waveform A)
    (k : A -> compiler waveform B) :
  keeps_tables self m -> (forall a, keeps_tables self (k a)) ->
  keeps_tables self (bind m k).
Proof.
move=> Hm Hk seqs q Hq; rewrite /bind.
have := Hm seqs q Hq; case: (m seqs) => [[a|e] s1] //=.
exact: Hk.
Qed.

Lemma keeps_tables_for_each {X : Type} (self : Scan) (xs : seq X)
    (body : X -> compiler waveform unit) :
  (forall x, keeps_tables self (body x)) -> keeps_tables self (for_each xs body).
Proof.
move=> Hb; elim: xs => [|x xs IH] //=.
by apply: keeps_tables_bind => // _.
Qed.

Lemma keeps_tables_program_assign (self : Scan) (qudit text : string) :
  keeps_tables self (program_assign qudit text).
Proof.
move=> seqs q [sq Hq Ha]; rewrite /program_assign.
case E: (dict_get seqs qudit) => [sq'|] /=; last by exists sq.
rewrite /Calibration.allocated dict_get_set; case: eqP => [Eq|_]; last by exists sq.
by eexists; first by []; move: E Hq; rewrite Eq => -> [->].
Qed.

Lemma keeps_tables_program_append (self : Scan) (qudit text : string) :
  keeps_tables self (program_append qudit text).
Proof.
move=> seqs q [sq Hq Ha]; rewrite /program_append.
case E: (dict_get seqs qudit) => [sq'|] /=; last by exists sq.
case: (program sq') => [p|] /=; last by exists sq.
rewrite /Calibration.allocated dict_get_set; case: eqP => [Eq|_]; last by exists sq.
by eexists; first by []; move: E Hq; rewrite Eq => -> [->].
Qed.

Lemma keeps_tables_add_stage (self : Scan) (df : DataFrame) (name : string)
    (acq_index : option Z) :
  keeps_tables self (add_stage pulse_interpreter self df name acq_index).
Proof.
apply: keeps_tables_for_each => column; apply: keeps_tables_for_each => qudit.
case: dict_get => [init_pulse_str|]; last exact: keeps_tables_raise.
apply: keeps_tables_bind; first exact: keeps_tables_lift.
by move=> body; exact: keeps_tables_program_append.
Qed.

Lemma keeps_tables_add_wait (self : Scan) (time : Q) :
  keeps_tables self (add_wait self time).
Proof.
rewrite /Calibration.add_wait /Calibration.add_wait_ns.
case: wait_time_check; last exact: keeps_tables_raise.
by apply: keeps_tables_for_each => qudit; exact: keeps_tables_program_append.
Qed.

(** Once [set_waveforms_acquisitions] has returned, every qudit of the scan
    has its table. *)
Lemma set_waveforms_acquisitions_allocates (self : Scan)
    (seqs seqs' : dict (sequence waveform)) :
  set_waveforms_acquisitions get_waveform self seqs = (Ok tt, seqs') ->
  forall qudit, qudit \in qudits self -> allocated self seqs' qudit.
Proof.
rewrite /set_waveforms_acquisitions.
set body := fun qudit : string => _.
have Hbody_keeps q : keeps_tables self (body q).
  rewrite /body; do 3![apply: keeps_tables_bind; first exact: keeps_tables_lift; move=> ?].
  move=> s q' [sq Hq Ha]; case E: (dict_get s q) => [sq'|] /=; last by exists sq.
  rewrite /Calibration.allocated dict_get_set; case: eqP => [Eq|_]; last by exists sq.
  by eexists.
have Hbody_sets q s s' : body q s = (Ok tt, s') -> allocated self s' q.
  rewrite /body => H.
  have [len [s1 [H1 {}H]]] := bind_ok_inv H.
  have [shape [s2 [H2 {}H]]] := bind_ok_inv H.
  have [wf [s3 [H3 {}H]]] := bind_ok_inv H.
  move: H; case E: (dict_get s3 q) => [sq'|] //= [<-].
  by rewrite /Calibration.allocated dict_get_set eqxx; eexists.
elim: (qudits self) seqs => [|q qs IH] s //= H qudit.
have [[] [s1 [Hq Hrest]]] := bind_ok_inv H.
rewrite in_cons => /orP [/eqP ->|Hin]; last exact: IH Hrest _ Hin.
have := @keeps_tables_for_each _ self qs body Hbody_keeps s1 q (Hbody_sets _ _ _ Hq).
by rewrite Hrest.
Qed.

(** In every compiled sequence, with or without heralding, the table of
    each qudit allocates index 0 to 'readout' and index 1 to 'heralding':
    the later stages only touch the programs. *)
Lemma make_sequence_allocates (self : Scan) (seqs seqs' : dict (sequence waveform)) :
  make_sequence self seqs = (Ok tt, seqs') ->
  forall qudit, qudit \in qudits self -> allocated self seqs' qudit.
Proof.
rewrite /Calibration.make_sequence => H qudit Hin.
have [[] [s0 [_ {}H]]] := bind_ok_inv H.
have [[] [s1 [H1 {}H]]] := bind_ok_inv H.
have Hal := set_waveforms_acquisitions_allocates H1 Hin.
have Hstage df name acq := @keeps_tables_add_stage self df name acq.
have Hprog f : keeps_tables self
                 (for_each (qudits self) (fun q => program_append q (f q))).
  by apply: keeps_tables_for_each => q; exact: keeps_tables_program_append.
suff Hk : keeps_tables self
    (bind (init_program self) (fun _ =>
     bind (add_initparameter self) (fun _ =>
     bind (add_mainloop self) (fun _ =>
     bind (add_relaxation self) (fun _ =>
     bind (if heralding_enable self then add_heralding self 1 else ret tt) (fun _ =>
     bind (add_prepulse pulse_interpreter self) (fun _ =>
     bind (add_mainpulse self) (fun _ =>
     bind (add_postpulse pulse_interpreter self) (fun _ =>
     bind (add_readout pulse_interpreter self 0) (fun _ =>
     add_stop self)))))))))).
  by have := Hk s1 qudit Hal; rewrite H.
apply: keeps_tables_bind => [|_].
  by apply: keeps_tables_for_each => q; exact: keeps_tables_program_assign.
apply: keeps_tables_bind => [|_]; first exact: keeps_tables_ret.
apply: keeps_tables_bind => [|_]; first exact: Hprog.
apply: keeps_tables_bind => [|_].
  apply: keeps_tables_bind => [|?]; first exact: keeps_tables_lift.
  apply: keeps_tables_bind => [|?]; first exact: keeps_tables_lift.
  exact: Hprog.
apply: keeps_tables_bind => [|_].
  case: heralding_enable; last exact: keeps_tables_ret.
  apply: keeps_tables_bind => [|?]; first exact: keeps_tables_lift.
  apply: keeps_tables_bind => [|_]; first exact: Hstage.
  exact: keeps_tables_add_wait.
apply: keeps_tables_bind => [|_]; first exact: Hstage.
apply: keeps_tables_bind => [|_]; first exact: keeps_tables_ret.
apply: keeps_tables_bind => [|_]; first exact: Hstage.
apply: keeps_tables_bind => [|_]; first exact: Hstage.
exact: Hprog.
Qed.

End CompilerFacts.

(** The assertion also lets through durations that are not in [4, 65535):
    a wait of -1 ns is emitted. *)
Lemma add_wait_accepts_negative_duration :
  add_wait example_scan (-1 # 1000000000) example_sequences =
    (Ok tt,
     [seq (kv.1, Sequence (waveforms kv.2) (weights kv.2) (acquisitions kv.2)
                   (Some (init_text ++ wait_text (-1))))
     | kv <- example_sequences]).
Proof. by vm_compute. Qed.

(** C1. [add_wait] is meant to accept exactly the durations with
    [4 <= time_ns < 65535], as its assertion message says. On the code a
    wait of 100 ns, [add_wait(1e-7)], is refused with that very message,
    and no wait instruction is appended. *)
Theorem add_wait_rejects_100ns :
  py_round ((1 # 10000000) * inject_Z (10 ^ 9))%Q = 100%Z /\
  (4 <=? 100)%Z && (100 <? 65535)%Z /\
  add_wait example_scan (1 # 10000000) example_sequences =
    (Raise (AssertionError "The wait time can only be in [4,65535)."),
     example_sequences).
Proof. by vm_compute. Qed.

(** C3. With heralding enabled, [make_sequence] is meant to append the
    heralding readout and wait before the pre-gate stage. On the example
    scan (heralding delay 400 ns) it raises the assertion error of
    [add_wait] instead: the acquisitions tables hold index 0 for readout
    and 1 for heralding, the heralding readout is in the programs, and
    neither the wait nor any pre-gate is. *)
Theorem make_sequence_heralding_raises :
  make_sequence example_get_waveform example_pulse_interpreter example_scan [::] =
    (Raise (AssertionError "The wait time can only be in [4,65535)."),
     [:: ("Q3", Sequence (Some [:: ("Q3", ((40%Z, "gaussian"), 0%Z))]) (Some [::])
                  (Some [:: ("readout", Acquisition 2 0); ("heralding", Acquisition 2 1)])
                  (Some (example_partial_program "Q3" "I")));
         ("R3", Sequence (Some [:: ("R3", ((2000%Z, "square"), 0%Z))]) (Some [::])
                  (Some [:: ("readout", Acquisition 2 0); ("heralding", Acquisition 2 1)])
                  (Some (example_partial_program "R3" "RO")))]).
Proof. by vm_compute. Qed.

End CalibrationFacts.

(** ** One repetition on the instrument *)

Module DACFacts.

Import DAC.

Local Open Scope string_scope.
Local Open Scope seq_scope.

Lemma port_call_eqb_refl (c : port_call) : port_call_eqb c c.
Proof. by case: c => *; rewrite /= ?String.eqb_refl ?Z.eqb_refl. Qed.

Lemma cleared_after_read_cat (d1 d2 : seq (port_call * bool)) :
  settled d1 -> cleared_after_read (d1 ++ d2) = cleared_after_read d2.
Proof.
rewrite /settled; elim: d1 => [|[c b] d1 IH] //.
rewrite cat_cons [cleared_after_read (_ :: _ ++ _)]/= [cleared_after_read (_ :: d1)]/=.
case: d1 IH => [|e d1] IH.
  rewrite /pending /= andbT => /andP [_ Hp].
  suff -> : obligation_met c b d2 by [].
  by case: c Hp => [t||r s t|r s n|r s|r s n] //=; case: b => //=; case: String.eqb.
move=> /andP [/andP [Hc Hr] Hp].
have S1 : cleared_after_read (e :: d1) && ~~ pending (e :: d1) by rewrite Hr.
rewrite (IH S1).
suff -> : obligation_met c b ((e :: d1) ++ d2) by [].
by case: c Hc {Hp}.
Qed.

Lemma pending_cat (d1 d2 : seq (port_call * bool)) :
  pending (d1 ++ d2) = if nilp d2 then pending d1 else pending d2.
Proof.
rewrite /pending last_cat; case: d2 => [|e d2] //=.
Qed.

Lemma settled_cat (d1 d2 : seq (port_call * bool)) :
  settled d1 -> settled d2 -> settled (d1 ++ d2).
Proof.
move=> H1 H2; rewrite /settled cleared_after_read_cat // pending_cat.
case/andP: H2 => -> H2 /=.
by case: d2 H2 => [|e d2] //= _; case/andP: H1.
Qed.

Section InstrumentFacts.

Variable sample : Type.
Variable qblox : instrument sample.

Notation session := (session sample).
Notation world := (world sample).

Lemma steps_ret {A : Type} (a : A) : steps (ret a : session A).
Proof. by move=> w; exists [::]; rewrite ?cats0. Qed.

Lemma steps_raise {A : Type} (e : pyexn) : steps (raise e : session A).
Proof. by move=> w; exists [::]; rewrite ?cats0. Qed.

Lemma steps_bind {A B : Type} (m : session A) (f : A -> session B) :
  steps m -> (forall a, steps (f a)) -> steps (bind m f).
Proof.
move=> Hm Hf w; rewrite /bind.
have [d1 E1 S1] := Hm w.
case: (m w) E1 => [[a|e] w1] /= E1; last by exists d1.
have [d2 E2 S2] := Hf a w1.
exists (d1 ++ d2); last exact: settled_cat.
by rewrite E2 E1 catA.
Qed.

Lemma steps_for_each {X : Type} (xs : seq X) (body : X -> session unit) :
  (forall x, steps (body x)) -> steps (for_each xs body).
Proof.
move=> Hb; elim: xs => [|x xs IH] /=; first exact: steps_ret.
by apply: steps_bind => // _.
Qed.

Lemma steps_lookup (store : string -> option Z) (key : string) :
  steps (lookup store key : session Z).
Proof. rewrite /lookup; case: (store key) => [v|]; [exact: steps_ret | exact: steps_raise]. Qed.

Lemma steps_has_key (keys : seq string) (k : string) : steps (has_key keys k : session unit).
Proof. rewrite /has_key; case: has; [exact: steps_ret | exact: steps_raise]. Qed.

Lemma steps_measurement_append r data name upd :
  steps (@measurement_append sample r data name upd).
Proof.
move=> w; exists [::] => //; rewrite cats0 /measurement_append.
by case: dict_get => [entry|] //; case: dict_get.
Qed.

Lemma steps_call (c : port_call) : quiet c -> steps (call qblox c).
Proof.
move=> Hq w; rewrite /call.
case: raises => [e|] /=.
  exists [:: (c, false)]; first by rewrite cats1.
  by case: c Hq.
exists [:: (c, true)]; first by rewrite cats1.
by case: c Hq => //= r s n; rewrite /settled /pending /= => /negbTE ->.
Qed.

Lemma steps_store_measurement keep_raw r data :
  steps (@store_measurement sample keep_raw r data).
Proof.
rewrite /store_measurement.
do 4![apply: steps_bind; first exact: steps_measurement_append; move=> _].
case: keep_raw; last exact: steps_ret.
do 3![apply: steps_bind; first exact: steps_measurement_append; move=> _].
exact: steps_measurement_append.
Qed.

(** The read and the two deletions, with whatever follows them. *)
Lemma steps_read_block (r : string) (seq_idx : Z)
    (k : dict (acquisition_data sample) -> session unit) :
  (forall data, steps (k data)) ->
  steps (bind (call_get_acquisitions qblox r seq_idx) (fun data =>
         bind (call qblox (delete_acquisition_data r seq_idx "readout")) (fun _ =>
         bind (call qblox (delete_acquisition_data r seq_idx "heralding")) (fun _ =>
         k data)))).
Proof.
move=> Hk w; rewrite /bind /call_get_acquisitions.
case: raises => [e|] /=.
  by exists [:: (get_acquisitions r seq_idx, false)]; rewrite ?cats1.
rewrite /call /=.
case: raises => [e|] /=.
  exists [:: (get_acquisitions r seq_idx, true);
             (delete_acquisition_data r seq_idx "readout", false)].
    by rewrite -!cats1 -catA.
  by rewrite /settled /pending /= !String.eqb_refl Z.eqb_refl.
case: raises => [e|] /=.
  exists [:: (get_acquisitions r seq_idx, true);
             (delete_acquisition_data r seq_idx "readout", true);
             (delete_acquisition_data r seq_idx "heralding", false)].
    by rewrite -!cats1 -!catA.
  by rewrite /settled /pending /= !String.eqb_refl Z.eqb_refl.
set w3 := World _ _.
have [d E S] := Hk (acquired qblox [seq e.1 | e <- log w] r seq_idx) w3.
exists ([:: (get_acquisitions r seq_idx, true);
            (delete_acquisition_data r seq_idx "readout", true);
            (delete_acquisition_data r seq_idx "heralding", true)] ++ d).
  by rewrite E /w3 /= -!cats1 -!catA.
apply: settled_cat => //.
by rewrite /settled /pending /= !String.eqb_refl Z.eqb_refl.
Qed.

Lemma steps_fetch_resonator self keep_raw r :
  steps (fetch_resonator qblox self keep_raw r).
Proof.
rewrite /fetch_resonator.
apply: steps_bind; first exact: steps_lookup; move=> mod_idx.
apply: steps_bind; first exact: steps_lookup; move=> timeout.
apply: steps_bind; first exact: steps_lookup; move=> seq_idx.
apply: steps_bind; first exact: steps_has_key; move=> _.
apply: steps_bind; first exact: steps_call; move=> _.
apply: steps_bind.
  case: keep_raw; last exact: steps_ret.
  by apply: steps_bind; [exact: steps_call | move=> _; exact: steps_call].
move=> _; apply: steps_read_block => data.
exact: steps_store_measurement.
Qed.


Lemma lookup_ok (store : string -> option Z) (key : string) (v : Z) (w w1 : world) :
  lookup store key w = (Ok v, w1) -> store key = Some v /\ w1 = w.
Proof. by rewrite /lookup; case: (store key) => [u|] //= [-> ->]. Qed.

Lemma has_key_ok (keys : seq string) (k : string) (w w1 : world) :
  has_key keys k w = (Ok tt, w1) -> w1 = w.
Proof. by rewrite /has_key; case: has => //= [[->]]. Qed.





End InstrumentFacts.




End DACFacts.

(** ** IQ post-processing *)

Module ProcessingFacts.

Import Processing.

Local Open Scope R_scope.

(** *** Readout fidelity *)

Lemma drop1_nth (row : seq R) :
  drop 1 row = [seq nth 0 row j | j <- iota 1 (size row - 1)].
Proof.
case: row => [|x row] //=; rewrite drop0 subn1 /=.
apply: (@eq_from_nth _ 0); first by rewrite size_map size_iota.
move=> k Hk; rewrite (nth_map 0%nat) ?size_iota //.
by rewrite nth_iota.
Qed.

(** C7. For a confusion matrix with at least two rows and two columns,
    given as a list of rows of equal length, [get_readout_fidelity] is
    [(1 + M[0,0] - sum of M[0,1:]) / 2]. *)
Theorem get_readout_fidelity_formula (M : seq (seq R)) (c : nat) :
  (2 <= size M)%nat -> (2 <= c)%nat -> all (fun row => size row == c) M ->
  get_readout_fidelity (np_array2 M) =
    Ok ((1 + entry M 0 0 - Rsum [seq entry M 0 j | j <- iota 1 (c - 1)]) / 2).
Proof.
case: M => [|row0 M] //= _ Hc /andP [/eqP Hrow _].
rewrite /get_readout_fidelity /= Hrow.
have -> : (0 < c)%nat by apply: leq_trans Hc.
rewrite take_size_cat // /entry /= drop1_nth Hrow.
by [].
Qed.

(** The scenario of the specification: fidelity 0.95. *)
Lemma get_readout_fidelity_formula_witness :
  get_readout_fidelity
    (np_array2 [:: [:: 95 / 100; 5 / 100]; [:: 5 / 100; 95 / 100]]) = Ok (95 / 100).
Proof.
rewrite (@get_readout_fidelity_formula
           [:: [:: 95 / 100; 5 / 100]; [:: 5 / 100; 95 / 100]] 2 isT isT isT).
by congr Ok; rewrite /entry /=; Lra.lra.
Defined.

(** *** Rotation *)

Lemma rotate_IQ_shape2 (d : ndarray R) (theta : R) (rest : seq nat) :
  shape d = 2%nat :: rest ->
  rotate_IQ d theta =
    Ok (NdArray (2%nat :: rest)
          (mkseq (fun k => cos theta * nth 0 (buf d) k +
                           (- sin theta * nth 0 (buf d) (numel rest + k) + 0))
                 (numel rest) ++
           mkseq (fun k => sin theta * nth 0 (buf d) k +
                           (cos theta * nth 0 (buf d) (numel rest + k) + 0))
                 (numel rest))).
Proof.
move=> Hs; rewrite /rotate_IQ /einsum_ij_j Hs /= cats0.
congr (Ok (NdArray _ (_ ++ _))); apply: eq_mkseq => k /=;
  by rewrite mul0n add0n mul1n.
Qed.

(** C8. Rotating IQ data (an array whose first axis has length 2) by
    [theta] and then by [- theta] gives the data back. *)
Theorem rotate_IQ_inverse (d : ndarray R) (theta : R) (rest : seq nat) :
  well_formed d -> shape d = 2%nat :: rest ->
  result_bind (rotate_IQ d theta) (fun d' => rotate_IQ d' (- theta)) = Ok d.
Proof.
move=> /eqP Hwf Hs.
rewrite (rotate_IQ_shape2 theta Hs) /= (@rotate_IQ_shape2 _ _ rest) //=.
case: d Hs Hwf => [sh b] /= -> Hwf; congr (Ok (NdArray _ _)).
move: Hwf; rewrite /numel /= -/(numel rest) mul2n -addnn; set m := numel rest => Hb.
have Htrig := sin2_cos2 theta; rewrite /Rsqr in Htrig.
apply: (@eq_from_nth _ 0); first by rewrite size_cat !size_mkseq.
move=> t; rewrite size_cat !size_mkseq => Ht.
rewrite nth_cat size_mkseq; case: ltnP => Htm.
  rewrite nth_mkseq // !nth_cat !size_mkseq Htm ltnNge leq_addr /=.
  rewrite addKn !nth_mkseq // cos_neg sin_neg.
  set x := nth 0 b t; set y := nth 0 b (m + t).
  transitivity ((sin theta * sin theta + cos theta * cos theta) * x); first by ring.
  by rewrite Htrig; ring.
have Hk : (t - m < m)%nat by rewrite ltn_subLR.
rewrite nth_mkseq // !nth_cat !size_mkseq Hk ltnNge leq_addr /=.
rewrite addKn !nth_mkseq // cos_neg sin_neg subnKC //.
set x := nth 0 b (t - m); set y := nth 0 b t.
transitivity ((sin theta * sin theta + cos theta * cos theta) * y); first by ring.
by rewrite Htrig; ring.
Qed.

(** Two IQ points, (1, 2) and (3, 4), rotated by a quarter turn and back. *)
Lemma rotate_IQ_inverse_witness :
  result_bind (rotate_IQ (NdArray [:: 2%nat; 2%nat] [:: 1; 3; 2; 4]) (PI / 2))
              (fun d' => rotate_IQ d' (- (PI / 2))) =
  Ok (NdArray [:: 2%nat; 2%nat] [:: 1; 3; 2; 4]).
Proof. by apply: (@rotate_IQ_inverse _ _ [:: 2%nat]). Defined.

(** *** Population normalisation *)

Lemma numel_cat (s1 s2 : seq nat) : numel (s1 ++ s2) = (numel s1 * numel s2)%nat.
Proof. by elim: s1 => [|n s1 IH] /=; rewrite ?mul1n // IH mulnA. Qed.

Lemma numel_axis (s : seq nat) (axis : nat) :
  (axis < size s)%nat ->
  numel s = (numel (take axis s) * (nth 0%nat s axis * numel (drop axis.+1 s)))%nat.
Proof.
move=> Ha; rewrite -{1}(cat_take_drop axis s) numel_cat.
by rewrite (drop_nth 0%nat Ha).
Qed.

Lemma nth_flatten_mkseq {T : Type} (x0 : T) (f : nat -> nat -> T) (P a n l p : nat) :
  (l < n)%nat -> (p < P)%nat ->
  nth x0 (flatten [seq mkseq (f level) P | level <- iota a n]) (l * P + p) = f (a + l)%nat p.
Proof.
elim: n a l => [|n IH] a l //= Hl Hp.
rewrite nth_cat size_mkseq; case: l Hl => [|l] Hl.
  by rewrite mul0n add0n Hp nth_mkseq // addn0.
rewrite mulSn -addnA ltnNge leq_addr /= addKn IH //.
by rewrite addSnnS.
Qed.

Lemma foldr_option_add_some (vs : seq R) :
  foldr option_add (Some 0) [seq Some v | v <- vs] = Some (Rsum vs).
Proof. by elim: vs => [|v vs IH] //=; rewrite IH. Qed.

Lemma Rsum_INR_div (cs : seq nat) (len : nat) :
  Rsum [seq INR c / INR len | c <- cs] = INR (\sum_(c <- cs) c) / INR len.
Proof.
elim: cs => [|c cs IH] /=; first by rewrite big_nil /= /Rdiv Rmult_0_l.
by rewrite big_cons plus_INR IH /Rdiv Rmult_plus_distr_r.
Qed.

(** A label in range is counted by exactly one level. *)
Lemma sum_level_indicator (n : nat) (z : Z) :
  (0 <=? z)%Z && (z <? Z.of_nat n)%Z ->
  (\sum_(l <- iota 0 n) (Z.eqb z (Z.of_nat l) : nat) = 1)%nat.
Proof.
move=> /andP [/Z.leb_le H0 /Z.ltb_lt Hn].
have Hk : (Z.to_nat z < n)%nat by apply/ltP; lia.
have Hz : z = Z.of_nat (Z.to_nat z) by rewrite Z2Nat.id.
have Hin : Z.to_nat z \in iota 0 n by rewrite mem_iota add0n.
rewrite (bigD1_seq _ Hin (iota_uniq _ _)) /=.
rewrite -Hz Z.eqb_refl big1 // => l Hl.
case: Z.eqb_spec => // E; case/negP: Hl; apply/eqP.
by rewrite E Nat2Z.id.
Qed.

Lemma sum_level_counts (n : nat) (zs : seq Z) :
  all (fun z => (0 <=? z)%Z && (z <? Z.of_nat n)%Z) zs ->
  (\sum_(l <- iota 0 n) count (fun z => Z.eqb z (Z.of_nat l)) zs = size zs)%nat.
Proof.
elim: zs => [|z zs IH] /=; first by rewrite big1.
by move=> /andP [Hz Hzs]; rewrite big_split /= sum_level_indicator // IH.
Qed.

(** Without a mask, the mean over a lane of at least one element is the
    fraction of its labels that equal the level. *)
Lemma level_mean_unmasked (labels : seq Z) (level : nat) (positions : seq nat) :
  (0 < size positions)%nat ->
  level_mean labels (nseq (size labels) false) level positions =
    Some (INR (count (fun z => Z.eqb z (Z.of_nat level))
                 [seq nth 0%Z labels t | t <- positions]) / INR (size positions)).
Proof.
move=> Hpos; rewrite /level_mean /masked_mean.
have Hmk t : nth false (nseq (size labels) false) t = false.
  by rewrite nth_nseq; case: ifP.
have -> : count (fun x : bool * bool => ~~ x.2)
            [seq (Z.eqb (nth 0%Z labels t) (Z.of_nat level),
                  nth false (nseq (size labels) false) t) | t <- positions]
          = size positions.
  rewrite count_map (@eq_count _ _ predT) ?count_predT // => t /=.
  by rewrite Hmk.
have -> : nilp [seq (Z.eqb (nth 0%Z labels t) (Z.of_nat level),
                     nth false (nseq (size labels) false) t) | t <- positions] = false.
  by rewrite /nilp size_map; case: (size positions) Hpos.
rewrite -[_ == _]negbK -lt0n Hpos /=.
congr (Some (INR _ / _)); rewrite !count_map; apply: eq_count => t /=.
by rewrite Hmk andbT.
Qed.

(** C4 (amended). For an array of integer labels that all lie in
    [0, n_levels), with no mask, and with at least one element along the
    reduced axis (at least one repetition for [axis = 0]),
    [normalize_population] returns populations whose sum over the levels
    is exactly 1 at every position. *)
Theorem normalize_population_sums_to_one (labels : ndarray Z) (n_levels axis : nat) :
  well_formed labels ->
  all (fun z => (0 <=? z)%Z && (z <? Z.of_nat n_levels)%Z) (buf labels) ->
  (axis < size (shape labels))%nat ->
  (0 < nth 0%nat (shape labels) axis)%nat ->
  exists2 population,
    normalize_population labels n_levels axis None = Ok population &
    let points := (numel (take axis (shape labels)) *
                   numel (drop axis.+1 (shape labels)))%nat in
    forall p, (p < points)%nat -> level_sum population n_levels points p = Some 1.
Proof.
move=> /eqP Hwf Hall Haxis Hlen.
rewrite /normalize_population /resolve_mask Haxis.
case: n_levels Hall => [|n] Hall.
  exists (NdArray [:: 0%nat] [::]); first by [].
  move=> p Hp.
  have Hsz : (0 < size (buf labels))%nat.
    rewrite Hwf (numel_axis Haxis) !muln_gt0 Hlen /=.
    by move: Hp; case: (numel _) => [|a] //; case: (numel _) => //; rewrite muln0.
  by case: (buf labels) Hsz Hall => [|z zs] //= _ /andP [/andP [/Z.leb_le ? /Z.ltb_lt ?]]; lia.
set len := nth 0%nat (shape labels) axis in Hlen *.
set inner := numel (drop axis.+1 (shape labels)).
set pts := (numel (take axis (shape labels)) * inner)%nat.
eexists; first by [].
move=> p Hp; rewrite /level_sum; set B := buf _.
pose g level q :=
  level_mean (buf labels) (nseq (size (buf labels)) false) level (lane len inner q).
have EB : B = flatten [seq mkseq (g level) pts | level <- iota 0 n.+1] by [].
have -> : [seq nth None B (level * pts + p) | level <- iota 0 n.+1]
        = [seq Some v
          | v <- [seq INR c / INR len
                 | c <- [seq count (fun z => Z.eqb z (Z.of_nat level))
                               [seq nth 0%Z (buf labels) t | t <- lane len inner p]
                        | level <- iota 0 n.+1]]].
  rewrite -2!map_comp EB; apply/eq_in_map => level; rewrite mem_iota add0n => /andP [_ Hl].
  by rewrite nth_flatten_mkseq // add0n /g level_mean_unmasked /lane size_map size_iota.
rewrite foldr_option_add_some Rsum_INR_div big_map.
rewrite sum_level_counts.
  rewrite all_map; apply/allP => t _ /=.
  case: (ltnP t (size (buf labels))) => Ht; last by rewrite nth_default.
  by move/all_nthP: Hall; apply.
rewrite /lane !size_map size_iota /Rdiv Rinv_r //.
by apply: not_0_INR => E; move: Hlen; rewrite E.
Qed.

(** The example of the docstring: four repetitions of three points, two
    levels. *)
Lemma normalize_population_sums_to_one_witness :
  exists2 population,
    normalize_population
      (np_array2 [:: [:: 0; 1; 0]; [:: 0; 0; 0]; [:: 0; 1; 0]; [:: 0; 1; 0]]%Z)
      2 0 None = Ok population &
    forall p, (p < 3)%nat -> level_sum population 2 3 p = Some 1.
Proof.
by apply: (@normalize_population_sums_to_one
             (np_array2 [:: [:: 0; 1; 0]; [:: 0; 0; 0]; [:: 0; 1; 0]; [:: 0; 1; 0]]%Z) 2 0).
Defined.

(** With no repetition at all the labels are vacuously in range, and the
    populations of the one sweep point are undefined: their sum over the
    two levels is not 1. *)
Lemma normalize_population_no_repetition :
  let labels := NdArray [:: 0%nat; 1%nat] ([::] : seq Z) in
  [/\ well_formed labels,
      all (fun z => (0 <=? z)%Z && (z <? 2)%Z) (buf labels),
      normalize_population labels 2 0 None =
        Ok (NdArray [:: 2%nat; 1%nat] [:: None; None]) &
      level_sum (NdArray [:: 2%nat; 1%nat] [:: None; None]) 2 1 0 <> Some 1].
Proof. by split. Qed.

(** *** The two most distant points *)

Lemma distance_self (i : seq R) : distance i i = 0.
Proof.
rewrite /distance.
have -> : Rsum [seq (xy.1 - xy.2) * (xy.1 - xy.2) | xy <- zip i i] = 0.
  elim: i => [|x i IH] //=; rewrite IH.
  by rewrite /Rminus Rplus_opp_r Rmult_0_l Rplus_0_l.
exact: sqrt_0.
Qed.

Lemma inner_step_inv (points : seq (seq R)) (i j : seq R) (st : search_state) :
  i \in points -> j \in points ->
  search_inv points st -> search_inv points (inner_step i st j).
Proof.
move=> Hi Hj [H0 Hst]; rewrite /inner_step.
case: RltbP => Hlt //; split => /=; first by Lra.lra.
by move=> i' j' [<- <-]; split => //; Lra.lra.
Qed.

Lemma inner_loop_inv (points js : seq (seq R)) (i : seq R) (st : search_state) :
  i \in points -> {subset js <= points} ->
  search_inv points st -> search_inv points (foldl (inner_step i) st js).
Proof.
move=> Hi; elim: js st => [|j js IH] st //= Hsub Hst.
apply: IH; first by move=> x Hx; apply: Hsub; rewrite in_cons Hx orbT.
by apply: inner_step_inv => //; apply: Hsub; rewrite in_cons eqxx.
Qed.

Lemma outer_loop_inv (points ps : seq (seq R)) (st : search_state) :
  {subset ps <= points} ->
  search_inv points st -> search_inv points (foldl (outer_step points) st ps).
Proof.
elim: ps st => [|i ps IH] st //= Hsub Hst.
apply: IH; first by move=> x Hx; apply: Hsub; rewrite in_cons Hx orbT.
by apply: inner_loop_inv => //; apply: Hsub; rewrite in_cons eqxx.
Qed.

Lemma inner_loop_same (points js : seq (seq R)) (i : seq R) :
  (forall p q, p \in points -> q \in points -> p = q) ->
  i \in points -> {subset js <= points} ->
  foldl (inner_step i) (0, None) js = (0, None).
Proof.
move=> Hsame Hi; elim: js => [|j js IH] //= Hsub.
have Hj : j \in points by apply: Hsub; rewrite in_cons eqxx.
have Hd : distance i j = 0 by rewrite -(Hsame i j Hi Hj) distance_self.
have -> : inner_step i (0, None) j = (0, None).
  by rewrite /inner_step Hd; case: RltbP => [/Rlt_irrefl|].
by apply: IH => x Hx; apply: Hsub; rewrite in_cons Hx orbT.
Qed.

Lemma outer_loop_same (points ps : seq (seq R)) :
  (forall p q, p \in points -> q \in points -> p = q) ->
  {subset ps <= points} ->
  foldl (outer_step points) (0, None) ps = (0, None).
Proof.
move=> Hsame; elim: ps => [|i ps IH] //= Hsub.
have Hi : i \in points by apply: Hsub; rewrite in_cons eqxx.
have -> : outer_step points (0, None) i = (0, None).
  exact: (inner_loop_same Hsame Hi (fun x Hx => Hx)).
by apply: IH => x Hx; apply: Hsub; rewrite in_cons Hx orbT.
Qed.

(** C10. [find_most_distant_points] returns a pair only if two of the
    input points are at a strictly positive distance, and the pair it
    returns is such a pair. When all the points are identical (a single
    point included) the result variables are never assigned and the
    function raises [UnboundLocalError]; [autorotate_IQ] then raises too,
    whatever the fit: it needs two distinct fitted means. *)
Theorem find_most_distant_points_needs_distinct (input_data : ndarray R)
    (points : seq (seq R)) :
  rows_of input_data = Ok points ->
  (forall point_i point_j,
      find_most_distant_points input_data = Ok (point_i, point_j) ->
      [/\ point_i \in points, point_j \in points & 0 < distance point_i point_j]) /\
  ((forall p q, p \in points -> q \in points -> p = q) ->
      find_most_distant_points input_data = Raise UnboundLocalError /\
      forall sklearn_fit arctan2 (iq : ndarray R) n_components covariances,
        gmm_fit sklearn_fit iq n_components = Ok (input_data, covariances) ->
        autorotate_IQ sklearn_fit arctan2 iq n_components = Raise UnboundLocalError).
Proof.
move=> Hrows; split.
  move=> point_i point_j; rewrite /find_most_distant_points Hrows.
  have [] : search_inv points (foldl (outer_step points) (0, None) points).
    by apply: outer_loop_inv => //; split => //=; exact: Rle_refl.
  case: (foldl _ _ _) => [mx [[i j]|]] //= _ H [<- <-].
  exact: H.
move=> Hsame.
have Hraise : find_most_distant_points input_data = Raise UnboundLocalError.
  by rewrite /find_most_distant_points Hrows outer_loop_same.
split=> // sklearn_fit arctan2 iq n_components covariances Hfit.
by rewrite /autorotate_IQ Hfit /= Hraise.
Qed.

(** The converse direction: [max_distance] dominates every distance seen,
    and it is positive only once the result variables are assigned. So a
    pair is returned as soon as two points differ in distance, and it is a
    pair of maximal distance. *)
Lemma inner_step_max (i j : seq R) (st : search_state) :
  st.1 <= (inner_step i st j).1 /\ distance i j <= (inner_step i st j).1.
Proof.
rewrite /inner_step; case: RltbP => /= H; first by split; Lra.lra.
by split; Lra.lra.
Qed.

Lemma inner_loop_max (js : seq (seq R)) (i : seq R) (st : search_state) :
  st.1 <= (foldl (inner_step i) st js).1 /\
  forall j, j \in js -> distance i j <= (foldl (inner_step i) st js).1.
Proof.
elim: js st => [|j js IH] st /=; first by split=> //; exact: Rle_refl.
have [H1 H2] := inner_step_max i j st.
have [H3 H4] := IH (inner_step i st j).
split; first by Lra.lra.
by move=> k; rewrite in_cons => /orP [/eqP ->|/H4 //]; Lra.lra.
Qed.

Lemma outer_loop_max (points ps : seq (seq R)) (st : search_state) :
  st.1 <= (foldl (outer_step points) st ps).1 /\
  forall i j, i \in ps -> j \in points ->
    distance i j <= (foldl (outer_step points) st ps).1.
Proof.
elim: ps st => [|i ps IH] st /=; first by split=> //; exact: Rle_refl.
have [H1 H2] := inner_loop_max points i st.
have [H3 H4] := IH (outer_step points st i).
split; first by rewrite /outer_step in H3 *; Lra.lra.
move=> k j; rewrite in_cons => /orP [/eqP ->|Hk] Hj; last exact: H4.
by have := H2 j Hj; rewrite /outer_step in H3 *; Lra.lra.
Qed.

Lemma inner_loop_value (js : seq (seq R)) (i : seq R) (st : search_state) :
  search_value st -> search_value (foldl (inner_step i) st js).
Proof.
elim: js st => [|j js IH] st //= Hst; apply: IH.
by rewrite /inner_step; case: RltbP.
Qed.

Lemma outer_loop_value (points ps : seq (seq R)) (st : search_state) :
  search_value st -> search_value (foldl (outer_step points) st ps).
Proof.
elim: ps st => [|i ps IH] st //= Hst; apply: IH.
exact: inner_loop_value.
Qed.

(** X8. As soon as two of the points are at a positive distance,
    [find_most_distant_points] returns a pair of points, and no two points
    of the input are further apart than the two it returns. *)
Lemma find_most_distant_points_returns (input_data : ndarray R)
    (points : seq (seq R)) (p q : seq R) :
  rows_of input_data = Ok points ->
  p \in points -> q \in points -> 0 < distance p q ->
  exists point_i point_j,
    find_most_distant_points input_data = Ok (point_i, point_j) /\
    forall i j, i \in points -> j \in points ->
      distance i j <= distance point_i point_j.
Proof.
move=> Hrows Hp Hq Hpq; rewrite /find_most_distant_points Hrows.
have [_ Hmax] := outer_loop_max points points (0, None).
have := @outer_loop_value points points (0, None) erefl.
case: (foldl _ _ _) Hmax => [mx [[i j]|]]; rewrite /search_value /= => Hmax Hval.
  by exists i, j; split=> // i' j' Hi' Hj'; rewrite -Hval; exact: Hmax.
by have := Hmax p q Hp Hq; move: Hval Hpq => ->; Lra.lra.
Qed.

(** A single fitted mean, (1, 2): nothing to rotate onto. *)
Lemma find_most_distant_points_needs_distinct_witness :
  find_most_distant_points (NdArray [:: 1%nat; 2%nat] [:: 1; 2]) =
    Raise UnboundLocalError.
Proof.
have [_ H] := @find_most_distant_points_needs_distinct
                (NdArray [:: 1%nat; 2%nat] [:: 1; 2]) [:: [:: 1; 2]] erefl.
by case: H => // p q; rewrite !inE => /eqP -> /eqP ->.
Defined.

(** *** Confusion-matrix correction *)

Section Correction.

Local Open Scope ring_scope.

Variable gesv : lapack.

Notation correct_population := (correct_population gesv).

Lemma size_buf_of_mx (m n : nat) (A : 'M[R]_(m, n)) : size (buf_of_mx A) = (m * n)%nat.
Proof. by rewrite /buf_of_mx size_mkseq. Qed.

Lemma mx_of_bufK (m n : nat) (b : seq R) :
  size b = (m * n)%nat -> buf_of_mx (mx_of_buf m n b) = b.
Proof.
move=> Hb; apply: (@eq_from_nth _ 0); first by rewrite size_buf_of_mx.
move=> t; rewrite size_buf_of_mx => Ht.
have Hn : (0 < n)%nat by case: n Ht {Hb} => //; rewrite muln0.
rewrite /buf_of_mx nth_mkseq //.
have Hi : (t %/ n < m)%nat by rewrite ltn_divLR.
have Hj : (t %% n < n)%nat by rewrite ltn_mod.
by rewrite !insubT mxE /= -divn_eq.
Qed.

Lemma buf_of_mxK (m n : nat) (A : 'M[R]_(m, n)) : mx_of_buf m n (buf_of_mx A) = A.
Proof.
apply/matrixP => i j; rewrite mxE /buf_of_mx nth_mkseq.
  apply: (@leq_trans (i.+1 * n)%nat); last by rewrite leq_mul2r ltn_ord orbT.
  by rewrite mulSn [(i * n + j)%nat]addnC ltn_add2r.
have Hn : (0 < n)%nat by case: n j {A} => // [[]].
have Ed : ((i * n + j) %/ n = i)%nat by rewrite divnMDl // divn_small // addn0.
have Em : ((i * n + j) %% n = j)%nat by rewrite modnMDl modn_small.
rewrite Ed Em !insubT //.
by move=> Hi Hj; congr (A _ _); apply: val_inj.
Qed.

(** What [correct_population] computes on data with [n] rows and a
    correction matrix of [n] rows and columns. *)
Lemma correct_population_eq (data M : ndarray R) (n : nat) (rest : seq nat) :
  shape M = [:: n; n] -> shape data = n :: rest -> well_formed data -> (0 < n)%nat ->
  correct_population data M =
    let A := mx_of_buf n n (buf M) in
    let B := mx_of_buf n (numel rest) (buf data) in
    if A \in unitmx then Ok (NdArray (n :: rest) (buf_of_mx (invmx A *m B)))
    else if zero_pivot gesv A then Raise LinAlgError
    else Ok (NdArray (n :: rest) (buf_of_mx (singular_solution gesv A B))).
Proof.
move=> HM Hd /eqP Hwf Hn.
rewrite /Processing.correct_population /reshape_rows Hd.
have Hsz : size (buf data) = (n * numel rest)%nat by rewrite Hwf Hd.
rewrite Hsz mulKn // -lt0n Hn eqxx /= /linalg_solve HM /= !eqxx /=.
case: ifP => _; first by rewrite /= /reshape size_buf_of_mx /= eqxx.
case: ifP => // _.
by rewrite /= /reshape size_buf_of_mx /= eqxx.
Qed.

Lemma correct_population_forward_model (M actual : ndarray R) (n : nat) (rest : seq nat) :
  shape M = [:: n; n] -> mx_of_buf n n (buf M) \in unitmx ->
  shape actual = n :: rest -> well_formed actual -> (0 < n)%nat ->
  correct_population (forward_model M actual) M = Ok actual.
Proof.
move=> HM Hunit; case: actual => sh b /= -> Hwf Hn.
set fwd := forward_model M _.
have Hwf' : well_formed fwd by rewrite /well_formed /fwd /forward_model /= size_buf_of_mx.
have Hsh : shape fwd = n :: rest by [].
rewrite (correct_population_eq HM Hsh Hwf' Hn) /=.
rewrite Hunit /forward_model /= buf_of_mxK mulKmx // mx_of_bufK //.
exact/eqP.
Qed.

(** C5. For an invertible square matrix [M] and a population vector
    [actual] whose entries sum to 1, correcting the forward model
    [M @ actual] with [M] gives [actual] back. *)
Theorem correct_population_left_inverse (M actual : ndarray R) (n : nat) :
  shape M = [:: n; n] -> well_formed M ->
  mx_of_buf n n (buf M) \in unitmx ->
  shape actual = [:: n] -> well_formed actual -> Rsum (buf actual) = 1%R ->
  correct_population (forward_model M actual) M = Ok actual.
Proof.
move=> HM _ Hunit Ha Hwf Hsum.
apply: (@correct_population_forward_model _ _ n [::]) => //.
case: n Ha {HM Hunit} => // Ha.
move/eqP: Hwf; rewrite Ha /=; case: (buf actual) Hsum => //= /esym.
by move/R1_neq_R0.
Qed.

(** Products with a matrix of two columns, entry by entry. *)
Lemma mulmx_buf2 (m k : nat) (a b : seq R) :
  mx_of_buf m 2 a *m mx_of_buf 2 k b =
    \matrix_(i < m, j < k)
      (nth 0 a (i * 2)%nat * nth 0 b j + nth 0 a (i * 2 + 1)%nat * nth 0 b (k + j)%nat)%R.
Proof.
apply/matrixP => i j; rewrite !mxE !big_ord_recl big_ord0 !mxE /=.
by rewrite mul0n add0n addn0 mul1n /GRing.add /GRing.mul /= Rplus_0_r.
Qed.

Lemma unitmx_by_inverse (n : nat) (A B : 'M[R]_n) : A *m B = 1%:M -> A \in unitmx.
Proof. by move=> /mulmx1_unit []. Qed.


Lemma example_confusion_unit : mx_of_buf 2 2 (buf example_confusion) \in unitmx.
Proof.
apply: (@unitmx_by_inverse _ _
          (mx_of_buf 2 2 [:: 19 / 18; - (1 / 18); - (1 / 18); 19 / 18]%R)).
rewrite mulmx_buf2; apply/matrixP => i j; rewrite !mxE.
by case: i => [[|[|i]] Hi] //; case: j => [[|[|j]] Hj] //=;
   rewrite /GRing.natmul /GRing.one /GRing.zero /=; Lra.lra.
Qed.

End Correction.

(** The scenario on the populations (0.7, 0.3). *)
Lemma correct_population_left_inverse_witness :
  correct_population exact_gesv
    (forward_model example_confusion (NdArray [:: 2%nat] [:: 7 / 10; 3 / 10]%R))
    example_confusion
  = Ok (NdArray [:: 2%nat] [:: 7 / 10; 3 / 10]%R).
Proof.
apply: (@correct_population_left_inverse exact_gesv _ _ 2) => //.
  exact: example_confusion_unit.
by rewrite /=; Lra.lra.
Defined.

End ProcessingFacts.

(** ** The processing functions and the caller's objects *)

Module StoreFacts.

Import Processing Store ProcessingFacts.

(** *** Objects that are kept *)

Section Keeps.

Variable n : nat.

Lemma keeps_ret {A : Type} (P : A -> Prop) (a : A) : P a -> keeps n (ret a) P.
Proof. by move=> Ha h Hn; split=> // a' [<-]. Qed.

Lemma keeps_raise {A : Type} (P : A -> Prop) (e : pyexn) : keeps n (raise e : py A) P.
Proof. by move=> h Hn; split. Qed.

Lemma keeps_lift {A : Type} (r : result A) : keeps n (lift r) (fun=> True).
Proof. by move=> h Hn; split. Qed.

Lemma keeps_bind {A B : Type} (m : py A) (k : A -> py B) (P : A -> Prop) (Q : B -> Prop) :
  keeps n m P -> (forall a, P a -> keeps n (k a) Q) -> keeps n (bind m k) Q.
Proof.
move=> Hm Hk h Hn; rewrite /bind; have [] := Hm h Hn.
case: (m h) => [[a|e] h1] /= Ht Hs Hp; last by split.
have [Ht2 Hs2 Hp2] := Hk a (Hp a erefl) h1 (leq_trans Hn Hs).
by split=> //; [rewrite Ht2 | exact: leq_trans Hs Hs2].
Qed.

Lemma keeps_weaken {A : Type} (m : py A) (P Q : A -> Prop) :
  keeps n m P -> (forall a, P a -> Q a) -> keeps n m Q.
Proof.
move=> Hm HPQ h Hn; have [Ht Hs Hp] := Hm h Hn.
by split=> // a /Hp /HPQ.
Qed.

Lemma keeps_alloc (o : pyobj) : keeps n (alloc o) (fun l => (n <= l)%nat).
Proof.
move=> h Hn; rewrite /alloc /=; split; last by move=> a [<-].
  rewrite -cats1 take_cat; case: ltnP => // Hge.
  have -> : n = size h by apply/eqP; rewrite eqn_leq Hn Hge.
  by rewrite subnn take0 cats0 take_size.
by rewrite size_rcons.
Qed.

Lemma keeps_deref (l : loc) : keeps n (deref l) (fun=> True).
Proof. by move=> h Hn; rewrite /deref; case: onth. Qed.

Lemma take_set_nth (o x : pyobj) (h : heap) (l : loc) :
  (n <= l)%nat -> (l < size h)%nat -> take n (set_nth o h l x) = take n h.
Proof.
elim: h l n => [|y h IH] [|l] [|k] //= Hk Hl.
by rewrite IH.
Qed.

Lemma keeps_assign (l : loc) (o : pyobj) :
  (n <= l)%nat -> keeps n (assign l o) (fun=> True).
Proof.
move=> Hl h Hn; rewrite /assign; case: ltnP => Hlt //=.
split=> //; first exact: take_set_nth.
by rewrite size_set_nth; exact: leq_maxr.
Qed.

Lemma keeps_deref_data (l : loc) : keeps n (deref_data l) (fun=> True).
Proof.
apply: keeps_bind; first exact: keeps_deref.
case=> [a|a|a|a|d m|g] _; try exact: keeps_ret.
  apply: keeps_bind; first exact: keeps_deref.
  by move=> o _; case: is_plain; [exact: keeps_ret | exact: keeps_raise].
exact: keeps_raise.
Qed.

Lemma keeps_np_array (l : loc) : keeps n (np_array l) (fun l' => (n <= l')%nat).
Proof.
apply: keeps_bind; first exact: keeps_deref_data.
by move=> o _; exact: keeps_alloc.
Qed.

Lemma keeps_as_float (l : loc) : keeps n (as_float l) (fun=> True).
Proof.
apply: keeps_bind; first exact: keeps_deref_data.
case=> [a|a|a|a|d m|g] _; try exact: keeps_ret; try exact: keeps_raise.
by case: all; [exact: keeps_ret | exact: keeps_raise].
Qed.

Lemma keeps_as_int (l : loc) : keeps n (as_int l) (fun=> True).
Proof.
apply: keeps_bind; first exact: keeps_deref_data.
by case=> [a|a|a|a|d m|g] _; try exact: keeps_ret; exact: keeps_raise.
Qed.

Lemma keeps_as_bool (l : loc) : keeps n (as_bool l) (fun=> True).
Proof.
apply: keeps_bind; first exact: keeps_deref_data.
by case=> [a|a|a|a|d m|g] _; try exact: keeps_ret; exact: keeps_raise.
Qed.

Lemma keeps_len (l : loc) : keeps n (len l) (fun=> True).
Proof.
apply: keeps_bind; first exact: keeps_deref_data.
by move=> o _; case: shape_of => [[|k s]|]; try exact: keeps_ret; exact: keeps_raise.
Qed.

Lemma keeps_get_mixture (gmm : loc) : keeps n (get_mixture gmm) (fun=> True).
Proof.
apply: keeps_bind; first exact: keeps_deref.
by case=> [a|a|a|a|d m|g] _; try exact: keeps_ret; exact: keeps_raise.
Qed.

Lemma keeps_set_attr (gmm : loc) (upd : mixture -> mixture) :
  (n <= gmm)%nat -> keeps n (set_attr gmm upd) (fun=> True).
Proof.
move=> Hg; apply: keeps_bind; first exact: keeps_get_mixture.
by move=> g _; exact: keeps_assign.
Qed.

Lemma keeps_get_attr (gmm : loc) (attr : mixture -> option loc) :
  keeps n (get_attr gmm attr) (fun=> True).
Proof.
apply: keeps_bind; first exact: keeps_get_mixture.
by move=> g _; case: (attr g) => [l|]; [exact: keeps_ret | exact: keeps_raise].
Qed.

End Keeps.

Lemma keeps_preserves {A : Type} (m : py A) (P : nat -> A -> Prop) :
  (forall n, keeps n m (P n)) -> preserves m.
Proof.
move=> Hm h; have [Ht _ _] := Hm (size h) h (leqnn _).
have E := cat_take_drop (size h) (m h).2; rewrite Ht take_size in E.
by exists (drop (size h) (m h).2).
Qed.

Lemma keeps_returns_fresh (m : py loc) :
  (forall n, keeps n m (fun l => (n <= l)%nat)) -> returns_fresh m.
Proof. by move=> Hm h l Hl; have [_ _] := Hm (size h) h (leqnn _); apply. Qed.

Create HintDb store.

#[local] Hint Resolve keeps_lift keeps_alloc keeps_deref keeps_deref_data keeps_np_array
  keeps_as_float keeps_as_int keeps_as_bool keeps_len keeps_get_mixture keeps_get_attr
  keeps_raise : store.

(** One step of a function: the first action keeps the objects, and what
    it returns is named together with what is known of it. *)
Ltac step_keeps :=
  apply: keeps_bind; [by auto with store | move=> ? ?].

Lemma keeps_rotate_IQ n l angle :
  keeps n (rotate_IQ_ref l angle) (fun l' => (n <= l')%nat).
Proof. by rewrite /rotate_IQ_ref; do 3!step_keeps; exact: keeps_alloc. Qed.

Lemma keeps_correct_population n gesv l M :
  keeps n (correct_population_ref gesv l M) (fun l' => (n <= l')%nat).
Proof. by rewrite /correct_population_ref; do 3!step_keeps; exact: keeps_alloc. Qed.

Lemma keeps_normalize_population n l n_levels axis mask :
  keeps n (normalize_population_ref l n_levels axis mask) (fun l' => (n <= l')%nat).
Proof.
rewrite /normalize_population_ref; do 2!step_keeps.
apply: (@keeps_bind _ _ _ _ _ (fun=> True)).
  case: mask => [m|]; last exact: keeps_ret.
  by step_keeps; exact: keeps_ret.
by move=> mk _; step_keeps; exact: keeps_alloc.
Qed.

Lemma keeps_gmm_fit_after n fit n_components input_data' :
  keeps n
    (bind (alloc (GaussianMixture unfitted)) (fun gmm =>
     bind (as_float input_data') (fun a =>
     bind (lift (Processing.gmm_fit fit a n_components)) (fun fitted =>
     bind (alloc (FloatArray fitted.1)) (fun means =>
     bind (set_attr gmm (set_means means)) (fun _ =>
     bind (alloc (FloatArray fitted.2)) (fun covariances =>
     bind (set_attr gmm (set_covariances covariances)) (fun _ =>
     bind (get_attr gmm means_) (fun means' =>
     bind (get_attr gmm covariances_) (fun covariances' =>
     ret (means', covariances')))))))))))
    (fun=> True).
Proof.
apply: keeps_bind; first exact: keeps_alloc.
move=> gmm Hgmm; do 3!step_keeps.
apply: keeps_bind; first exact: keeps_set_attr.
move=> _ _; step_keeps.
apply: keeps_bind; first exact: keeps_set_attr.
by move=> _ _; do 2!step_keeps; exact: keeps_ret.
Qed.

Lemma keeps_gmm_fit n fit l n_components :
  keeps n (gmm_fit_ref fit l n_components) (fun=> True).
Proof.
rewrite /gmm_fit_ref; apply: keeps_bind; first exact: keeps_np_array.
by move=> input_data' _; exact: keeps_gmm_fit_after.
Qed.

Lemma keeps_gmm_predict_after n predict chol input_data' means covariances :
  keeps n
    (bind (np_array means) (fun means' =>
     bind (np_array covariances) (fun covariances' =>
     bind (len means') (fun n_components =>
     bind (alloc (GaussianMixture unfitted)) (fun gmm =>
     bind (set_attr gmm (set_means means')) (fun _ =>
     bind (set_attr gmm (set_covariances covariances')) (fun _ =>
     bind (as_float covariances') (fun c =>
     bind (lift (chol c)) (fun ch =>
     bind (alloc (FloatArray ch)) (fun precisions =>
     bind (set_attr gmm (set_precisions_cholesky precisions)) (fun _ =>
     bind (alloc (FloatArray (equal_weights n_components))) (fun weights =>
     bind (set_attr gmm (set_weights weights)) (fun _ =>
     bind (as_float input_data') (fun a =>
     bind (get_attr gmm means_) (fun means_l =>
     bind (get_attr gmm covariances_) (fun covariances_l =>
     bind (get_attr gmm precisions_cholesky_) (fun _ =>
     bind (get_attr gmm weights_) (fun _ =>
     bind (as_float means_l) (fun m' =>
     bind (as_float covariances_l) (fun c' =>
     bind (lift (Processing.gmm_predict predict a m' c')) (fun result =>
     alloc (IntArray result))))))))))))))))))))))
    (fun l' => (n <= l')%nat).
Proof.
do 3!step_keeps.
apply: keeps_bind; first exact: keeps_alloc.
move=> gmm Hgmm.
apply: keeps_bind; first exact: keeps_set_attr.
move=> _ _; apply: keeps_bind; first exact: keeps_set_attr.
move=> _ _; do 3!step_keeps.
apply: keeps_bind; first exact: keeps_set_attr.
move=> _ _; step_keeps.
apply: keeps_bind; first exact: keeps_set_attr.
by move=> _ _; do 8!step_keeps; exact: keeps_alloc.
Qed.

Lemma keeps_gmm_predict n predict chol l m c :
  keeps n (gmm_predict_ref predict chol l m c) (fun l' => (n <= l')%nat).
Proof.
rewrite /gmm_predict_ref; apply: keeps_bind; first exact: keeps_np_array.
by move=> input_data' _; exact: keeps_gmm_predict_after.
Qed.

(** *** Runs on a store that is known from some reference on *)

Lemma deref_data_heap (l : loc) (h : heap) : (deref_data l h).2 = h.
Proof.
rewrite /deref_data /bind /deref; case: onth => [[a|a|a|a|d m|g]|] //=.
by case: onth => [o|] //=; case: is_plain.
Qed.

Lemma as_float_heap (l : loc) (h : heap) : (as_float l h).2 = h.
Proof.
rewrite /as_float /bind; have := deref_data_heap l h.
case: (deref_data l h) => [[[a|a|a|a|d m|g]|e] h1] /= -> //.
by case: all.
Qed.

Lemma np_array_ok (l l' : loc) (h h1 : heap) :
  np_array l h = (Ok l', h1) -> l' = size h /\ exists o, h1 = rcons h o.
Proof.
rewrite /np_array /bind; have := deref_data_heap l h.
case: (deref_data l h) => [[o|e] h0] //= -> [<- <-].
by split=> //; exists o.
Qed.

Lemma onth_cat_r (h ext : heap) (i : nat) : onth (h ++ ext) (size h + i) = onth ext i.
Proof. by rewrite onth_cat ltnNge leq_addr /= addKn. Qed.

Lemma set_nth_cat_r (d x : pyobj) (h ext : heap) (i : nat) :
  set_nth d (h ++ ext) (size h + i) x = h ++ set_nth d ext i x.
Proof. by elim: h => [|y h IH] //=; rewrite IH. Qed.

Lemma alloc_cat (x : pyobj) (h ext : heap) :
  alloc x (h ++ ext) = (Ok (size h + size ext)%nat, h ++ rcons ext x).
Proof. by rewrite /alloc size_cat rcons_cat. Qed.

Lemma set_attr_run (h ext : heap) (i : nat) (g : mixture) (upd : mixture -> mixture) :
  onth ext i = Some (GaussianMixture g) ->
  set_attr (size h + i) upd (h ++ ext) =
    (Ok tt, h ++ set_nth (GaussianMixture (upd g)) ext i (GaussianMixture (upd g))).
Proof.
move=> Hi; rewrite /set_attr /get_mixture /bind /deref onth_cat_r Hi /= /assign.
have -> : (size h + i < size (h ++ ext))%nat.
  by rewrite size_cat ltn_add2l -onthTE Hi.
by rewrite set_nth_cat_r.
Qed.

Lemma get_attr_run (h ext : heap) (i : nat) (g : mixture) (attr : mixture -> option loc)
    (l : loc) :
  onth ext i = Some (GaussianMixture g) -> attr g = Some l ->
  get_attr (size h + i) attr (h ++ ext) = (Ok l, h ++ ext).
Proof.
by move=> Hi Hl; rewrite /get_attr /get_mixture /bind /deref onth_cat_r Hi /= Hl.
Qed.

(** The two arrays that [gmm_fit] returns are the two that the fit has
    just made. *)
Lemma gmm_fit_returns_fresh fit l n_components :
  returns_fresh_pair (gmm_fit_ref fit l n_components).
Proof.
move=> h l1 l2; rewrite /gmm_fit_ref {1}/bind.
case E1: (np_array l h) => [[l'|e] h1] //=.
have [-> [o ->]] := np_array_ok E1.
rewrite -cats1 {1}/bind alloc_cat /= {1}/bind.
have := as_float_heap (size h) (h ++ [:: o; GaussianMixture unfitted]).
case: (as_float _ _) => [[a|e] h2] //= ->.
rewrite {1}/bind /lift; case: (Processing.gmm_fit fit a n_components) => [fitted|e] //=.
rewrite {1}/bind alloc_cat /=.
rewrite {1}/bind (@set_attr_run h _ 1 unfitted) //=.
rewrite {1}/bind alloc_cat /=.
rewrite {1}/bind (@set_attr_run h _ 1 (set_means (size h + 2) unfitted)) //=.
rewrite {1}/bind
  (@get_attr_run h _ 1 (set_covariances (size h + 3) (set_means (size h + 2) unfitted))
     means_ (size h + 2)%nat) //=.
rewrite /bind
  (@get_attr_run h _ 1 (set_covariances (size h + 3) (set_means (size h + 2) unfitted))
     covariances_ (size h + 3)%nat) //=.
case=> <- <-; split; try exact: leq_addr.
by rewrite eqn_add2l.
Qed.

(** *** The first thing each function does *)

Lemma np_array_plain (h : heap) (l : loc) (o : pyobj) :
  onth h l = Some o -> is_plain o -> np_array l h = (Ok (size h), rcons h o).
Proof.
move=> Hl Hp; rewrite /np_array /deref_data /bind /deref Hl.
by case: o Hp {Hl}.
Qed.

Lemma copies_via_np_array {A : Type} (k : loc -> py A) (P : nat -> A -> Prop) :
  (forall l' n, keeps n (k l') (P n)) ->
  copies_input_first (fun l => bind (np_array l) k).
Proof.
move=> Hk h l o Hl Hp; rewrite /bind (np_array_plain Hl Hp).
have [ext ->] := keeps_preserves (Hk (size h)) (rcons h o).
by exists ext; rewrite -cats1 -catA.
Qed.

Lemma views_via_alloc {A : Type} (o : pyobj) (k : loc -> py A) (P : nat -> A -> Prop)
    (h : heap) :
  (forall l' n, keeps n (k l') (P n)) ->
  exists ext, (bind (alloc o) k h).2 = h ++ o :: ext.
Proof.
move=> Hk; rewrite /bind /alloc.
have [ext ->] := keeps_preserves (Hk (size h)) (rcons h o).
by exists ext; rewrite -cats1 -catA.
Qed.

(** On the store of the example, [normalize_population] builds a masked
    view of the labels at reference 0 and the populations; it makes no copy
    of the labels. So it does not "first convert its input via [np.array]". *)
Lemma normalize_population_makes_no_copy :
  ~ copies_input_first (fun l => normalize_population_ref l 2 0 None).
Proof.
move=> H; have [ext] := H example_heap 0%nat (IntArray example_labels) erefl isT.
by rewrite /normalize_population_ref /bind /=.
Qed.

(** Leaving the objects unchanged is a property that a computation can
    fail to have: an assignment made on the caller's array, as an in-place
    operation makes, changes it. *)
Lemma assign_changes_the_object :
  ~ preserves (assign 0 (IntArray (NdArray [:: 0%nat] [::]))).
Proof. by move=> H; have [ext] := H example_heap. Qed.

(** C9 (amended). None of [rotate_IQ], [gmm_fit], [gmm_predict],
    [normalize_population] and [correct_population] changes an object that
    existed when it was called, whether it returns or raises: the store
    they leave is the one they found followed by new objects, and every
    array they return is new ([gmm_fit] returns two). The one object that
    is changed, by the attribute assignments of [gmm_fit] and [gmm_predict],
    is the mixture that the function has just created. [rotate_IQ],
    [gmm_fit], [gmm_predict] and [correct_population] begin by copying
    their input with [np.array]; [normalize_population] begins by wrapping
    its input in a masked view, without a copy, and only reads it. *)
Theorem processing_leaves_input_unchanged
    (sklearn_fit : nat -> seq (R * R) -> result (ndarray R * ndarray R))
    (sklearn_predict : ndarray R -> ndarray R -> seq (R * R) -> result (seq Z))
    (compute_precision_cholesky : ndarray R -> result (ndarray R))
    (gesv : lapack) :
  [/\ forall l angle, preserves (rotate_IQ_ref l angle) /\ returns_fresh (rotate_IQ_ref l angle),
      forall l n, preserves (gmm_fit_ref sklearn_fit l n) /\
                  returns_fresh_pair (gmm_fit_ref sklearn_fit l n),
      forall l m c,
        preserves (gmm_predict_ref sklearn_predict compute_precision_cholesky l m c) /\
        returns_fresh (gmm_predict_ref sklearn_predict compute_precision_cholesky l m c),
      forall l n axis mask, preserves (normalize_population_ref l n axis mask) /\
                            returns_fresh (normalize_population_ref l n axis mask) &
      forall l M, preserves (correct_population_ref gesv l M) /\
                  returns_fresh (correct_population_ref gesv l M)] /\
  [/\ forall angle, copies_input_first (rotate_IQ_ref^~ angle),
      forall n, copies_input_first (gmm_fit_ref sklearn_fit ^~ n),
      forall m c, copies_input_first
                    (fun l => gmm_predict_ref sklearn_predict compute_precision_cholesky l m c),
      forall M, copies_input_first (correct_population_ref gesv ^~ M) &
      forall n axis mask,
        views_input_first (fun l => normalize_population_ref l n axis mask) mask].
Proof.
split; split.
- move=> l angle; split.
    by apply: keeps_preserves => n; exact: keeps_rotate_IQ.
  by apply: keeps_returns_fresh => n; exact: keeps_rotate_IQ.
- move=> l n; split; last exact: gmm_fit_returns_fresh.
  by apply: keeps_preserves => k; exact: keeps_gmm_fit.
- move=> l m c; split.
    by apply: keeps_preserves => n; exact: keeps_gmm_predict.
  by apply: keeps_returns_fresh => n; exact: keeps_gmm_predict.
- move=> l n axis mask; split.
    by apply: keeps_preserves => k; exact: keeps_normalize_population.
  by apply: keeps_returns_fresh => k; exact: keeps_normalize_population.
- move=> l M; split.
    by apply: keeps_preserves => n; exact: keeps_correct_population.
  by apply: keeps_returns_fresh => n; exact: keeps_correct_population.
- move=> angle; apply: copies_via_np_array => l' n.
  by do 2!step_keeps; exact: keeps_alloc.
- by move=> n; apply: copies_via_np_array => l' k; exact: keeps_gmm_fit_after.
- by move=> m c; apply: copies_via_np_array => l' n; exact: keeps_gmm_predict_after.
- move=> M; apply: copies_via_np_array => l' n.
  by do 2!step_keeps; exact: keeps_alloc.
- move=> n axis mask h l; rewrite /normalize_population_ref.
  apply: views_via_alloc => l' k.
  step_keeps.
  apply: (@keeps_bind _ _ _ _ _ (fun=> True)).
    case: (mask) => [m|]; last exact: keeps_ret.
    by step_keeps; exact: keeps_ret.
  by move=> mk _; step_keeps; exact: keeps_alloc.
Qed.

(** *** A singular or an ill-conditioned correction matrix *)

Section SingularCorrection.

Local Open Scope ring_scope.













End SingularCorrection.

End StoreFacts.

(** ** IQ post-processing: further properties *)

Module ProcessingMeasuresFacts.

Import Processing ProcessingFacts ProcessingMeasures.

Local Open Scope R_scope.

(** *** Rotation *)

(** The two halves of a rotated buffer. *)
Lemma nth_rotated (m k : nat) (f g : nat -> R) :
  (k < m)%nat ->
  nth 0 (mkseq f m ++ mkseq g m) k = f k /\
  nth 0 (mkseq f m ++ mkseq g m) (m + k) = g k.
Proof.
move=> Hk; rewrite !nth_cat !size_mkseq Hk ltnNge leq_addr /= addKn.
by rewrite !nth_mkseq.
Qed.

(** X1. Rotating IQ data by [a] and then by [b] is rotating it by
    [a + b]. *)
Theorem rotate_IQ_compose (d : ndarray R) (a b : R) (rest : seq nat) :
  shape d = 2%nat :: rest ->
  result_bind (rotate_IQ d a) (fun d' => rotate_IQ d' b) = rotate_IQ d (a + b).
Proof.
move=> Hs.
rewrite (rotate_IQ_shape2 a Hs) /= (@rotate_IQ_shape2 _ _ rest) //=.
rewrite (rotate_IQ_shape2 (a + b) Hs).
congr (Ok (NdArray _ (_ ++ _))); apply/eq_in_map => k;
  rewrite mem_iota add0n => /andP [_ Hk];
  have [-> ->] := nth_rotated
     (fun k => cos a * nth 0 (buf d) k + (- sin a * nth 0 (buf d) (numel rest + k) + 0))
     (fun k => sin a * nth 0 (buf d) k + (cos a * nth 0 (buf d) (numel rest + k) + 0)) Hk;
  rewrite cos_plus sin_plus; ring.
Qed.

(** Two IQ points, (1, 2) and (3, 4), rotated by a quarter turn and then by a
    sixth of a turn. *)
Lemma rotate_IQ_compose_witness :
  result_bind (rotate_IQ (NdArray [:: 2%nat; 2%nat] [:: 1; 3; 2; 4]) (PI / 2))
              (fun d' => rotate_IQ d' (PI / 3)) =
  rotate_IQ (NdArray [:: 2%nat; 2%nat] [:: 1; 3; 2; 4]) (PI / 2 + PI / 3).
Proof. by apply: (@rotate_IQ_compose _ _ _ [:: 2%nat]). Defined.

(** X2. On IQ data of shape (2, ...), [rotate_IQ] returns an array of the
    same shape with as many elements as the shape says, and every sample
    keeps its power [I^2 + Q^2]. *)
Theorem rotate_IQ_preserves_power (d : ndarray R) (theta : R) (rest : seq nat) :
  shape d = 2%nat :: rest ->
  exists2 d', rotate_IQ d theta = Ok d' &
    [/\ shape d' = shape d, well_formed d' &
        forall k, (k < numel rest)%nat -> iq_power d' k = iq_power d k].
Proof.
move=> Hs; rewrite (rotate_IQ_shape2 theta Hs); eexists; first by [].
split; first by rewrite Hs.
  by rewrite /well_formed /= size_cat !size_mkseq mul2n addnn.
move=> k Hk; rewrite /iq_power Hs /=.
have [-> ->] := nth_rotated
   (fun k => cos theta * nth 0 (buf d) k +
             (- sin theta * nth 0 (buf d) (numel rest + k) + 0))
   (fun k => sin theta * nth 0 (buf d) k +
             (cos theta * nth 0 (buf d) (numel rest + k) + 0)) Hk.
set x := nth 0 (buf d) k; set y := nth 0 (buf d) (numel rest + k).
have Htrig := sin2_cos2 theta; rewrite /Rsqr in Htrig.
transitivity ((sin theta * sin theta + cos theta * cos theta) * (x * x + y * y)).
  by ring.
by rewrite Htrig; ring.
Qed.

(** The same two points rotated by a sixth of a turn. *)
Lemma rotate_IQ_preserves_power_witness :
  exists2 d', rotate_IQ (NdArray [:: 2%nat; 2%nat] [:: 1; 3; 2; 4]) (PI / 3) = Ok d' &
    [/\ shape d' = [:: 2%nat; 2%nat], well_formed d' &
        forall k, (k < 2)%nat ->
          iq_power d' k = iq_power (NdArray [:: 2%nat; 2%nat] [:: 1; 3; 2; 4]) k].
Proof. by apply: (@rotate_IQ_preserves_power _ _ [:: 2%nat]). Defined.

(** *** Population normalisation under a mask *)

Lemma masked_mean_range (xs : seq (bool * bool)) (v : R) :
  masked_mean xs = Some v -> 0 <= v <= 1.
Proof.
rewrite /masked_mean; case: nilp => //.
case: eqP => [_ [<-]|/eqP Hcnt [<-]]; first by Lra.lra.
set c := count _ xs; set cnt := count _ xs in Hcnt *.
have Hle : (c <= cnt)%nat by apply: sub_count => x /= /andP [].
have Hpos : 0 < INR cnt by apply: lt_0_INR; apply/ltP; rewrite lt0n.
have Hc0 : 0 <= INR c by apply: pos_INR.
have Hc1 : INR c <= INR cnt by apply: le_INR; apply/leP.
split.
  by apply: Rmult_le_pos => //; apply: Rlt_le; apply: Rinv_0_lt_compat.
apply: (Rmult_le_reg_r (INR cnt)) => //.
rewrite /Rdiv Rmult_assoc Rinv_l; first by move=> E; rewrite E in Hpos; Lra.lra.
by Lra.lra.
Qed.

(** A property of every element of a buffer built level by level. *)
Lemma nth_flatten_mkseq_all {T : Type} (Q : T -> Prop) (x0 : T) (f : nat -> nat -> T)
    (P : nat) (ls : seq nat) (t : nat) :
  Q x0 -> (forall l p, Q (f l p)) ->
  Q (nth x0 (flatten [seq mkseq (f l) P | l <- ls]) t).
Proof.
move=> H0 Hf; elim: ls t => [|l ls IH] t /=; first by rewrite nth_nil.
rewrite nth_cat size_mkseq; case: ltnP => Ht; last exact: IH.
by rewrite nth_mkseq.
Qed.

(** X3. Whatever the labels, the mask and the axis, every population that
    [normalize_population] returns as a number lies between 0 and 1. *)
Theorem normalize_population_in_unit_interval (labels : ndarray Z) (n_levels axis : nat)
    (mask : option (ndarray bool)) (population : ndarray (option R)) :
  normalize_population labels n_levels axis mask = Ok population ->
  forall t v, nth None (buf population) t = Some v -> 0 <= v <= 1.
Proof.
rewrite /normalize_population; case: resolve_mask => [mk|e] //.
case: eqP => _; first by move=> [<-] t v /=; rewrite nth_nil.
case: ifP => // _ [<-] t v /=.
set B := flatten _.
pose Q (x : option R) := forall v, x = Some v -> 0 <= v <= 1.
suff : Q (nth None B t) by apply.
apply: nth_flatten_mkseq_all; first by [].
by move=> l p u; exact: masked_mean_range.
Qed.

(** Three repetitions of one point, two levels, the third repetition
    masked. *)
Lemma normalize_population_in_unit_interval_witness :
  normalize_population (np_array2 [:: [:: 0%Z]; [:: 1%Z]; [:: 7%Z]]) 2 0
    (Some (np_array2 [:: [:: false]; [:: false]; [:: true]])) =
    Ok (NdArray [:: 2%nat; 1%nat] [:: Some (1 / 2); Some (1 / 2)]) /\
  forall t v,
    nth None [:: Some (1 / 2); Some (1 / 2)] t = Some v -> 0 <= v <= 1.
Proof.
have E : normalize_population (np_array2 [:: [:: 0%Z]; [:: 1%Z]; [:: 7%Z]]) 2 0
           (Some (np_array2 [:: [:: false]; [:: false]; [:: true]])) =
         Ok (NdArray [:: 2%nat; 1%nat] [:: Some (1 / 2); Some (1 / 2)]).
  rewrite /normalize_population /= /level_mean /masked_mean /=.
  by congr (Ok (NdArray _ [:: Some _; Some _])); Lra.lra.
split=> //.
exact: (normalize_population_in_unit_interval E).
Defined.

(** Among the entries that the mask lets through, a label in range is
    counted by exactly one level. *)
Lemma sum_level_counts_masked (n : nat) (labels : seq Z) (mk : seq bool)
    (positions : seq nat) :
  (forall t, nth false mk t = false ->
     (0 <=? nth 0%Z labels t)%Z && (nth 0%Z labels t <? Z.of_nat n)%Z) ->
  (\sum_(l <- iota 0 n)
      count (fun t => Z.eqb (nth 0%Z labels t) (Z.of_nat l) && ~~ nth false mk t) positions
   = count (fun t => ~~ nth false mk t) positions)%nat.
Proof.
move=> Hin; elim: positions => [|t ps IH] /=; first by rewrite big1.
rewrite big_split /= IH; congr addn.
case Ht: (nth false mk t) => /=.
  by rewrite big1 // => l _; rewrite andbF.
rewrite -(sum_level_indicator (Hin t Ht)).
by apply: eq_bigr => l _; rewrite andbT.
Qed.

(** X4. With a mask of the size of the data, at least one element along
    the reduced axis, and every label that the mask lets through in
    [0, n_levels): at each position the populations returned by
    [normalize_population] sum to 1 over the levels when the mask lets at
    least one entry of the lane through; when it masks the whole lane the
    population of every level is 0, and so is their sum. *)
Theorem normalize_population_masked_sums (labels : ndarray Z) (mask : ndarray bool)
    (n_levels axis : nat) :
  size (buf mask) = size (buf labels) ->
  (0 < n_levels)%nat ->
  (axis < size (shape labels))%nat ->
  (0 < nth 0%nat (shape labels) axis)%nat ->
  (forall t, (t < size (buf labels))%nat -> nth false (buf mask) t = false ->
     (0 <= nth 0%Z (buf labels) t < Z.of_nat n_levels)%Z) ->
  exists2 population,
    normalize_population labels n_levels axis (Some mask) = Ok population &
    let len := nth 0%nat (shape labels) axis in
    let inner := numel (drop axis.+1 (shape labels)) in
    let points := (numel (take axis (shape labels)) * inner)%nat in
    forall p, (p < points)%nat ->
      if lane_seen mask (lane len inner p)
      then level_sum population n_levels points p = Some 1
      else level_sum population n_levels points p = Some 0 /\
           forall level, (level < n_levels)%nat ->
             nth None (buf population) (level * points + p) = Some 0.
Proof.
move=> Hsz; case: n_levels => [|n] // _ Haxis Hlen Hrange.
rewrite /normalize_population /resolve_mask Hsz eqxx Haxis /=.
set len := nth 0%nat (shape labels) axis in Hlen *.
set inner := numel (drop axis.+1 (shape labels)).
set pts := (numel (take axis (shape labels)) * inner)%nat.
eexists; first by [].
move=> p Hp; rewrite /level_sum; set B := buf _.
pose g level q := level_mean (buf labels) (buf mask) level (lane len inner q).
have EB : B = flatten [seq mkseq (g level) pts | level <- iota 0 n.+1] by [].
have Hnth level : (level < n.+1)%nat -> nth None B (level * pts + p) = g level p.
  by move=> Hl; rewrite EB nth_flatten_mkseq.
have Hin t : nth false (buf mask) t = false ->
    (0 <=? nth 0%Z (buf labels) t)%Z && (nth 0%Z (buf labels) t <? Z.of_nat n.+1)%Z.
  move=> Ht; case: (ltnP t (size (buf labels))) => Hlt.
    by have [/Z.leb_le -> /Z.ltb_lt ->] := Hrange t Hlt Ht.
  by rewrite nth_default.
set cnt := count (fun t => ~~ nth false (buf mask) t) (lane len inner p).
have Hcnt level :
    count (fun x : bool * bool => ~~ x.2)
      [seq (Z.eqb (nth 0%Z (buf labels) t) (Z.of_nat level), nth false (buf mask) t)
      | t <- lane len inner p] = cnt.
  by rewrite count_map.
have Hnil level :
    nilp [seq (Z.eqb (nth 0%Z (buf labels) t) (Z.of_nat level), nth false (buf mask) t)
         | t <- lane len inner p] = false.
  by rewrite /nilp /lane !size_map size_iota; case: (len) Hlen.
have Hseen : lane_seen mask (lane len inner p) = (0 < cnt)%nat.
  by rewrite /lane_seen has_count.
rewrite Hseen.
case: (posnP cnt) => [Hc0|Hc].
  have Hzero level : (level < n.+1)%nat -> nth None B (level * pts + p) = Some 0.
    by move=> Hl; rewrite Hnth // /g /level_mean /masked_mean Hnil Hcnt Hc0.
  split=> //.
  have -> : [seq nth None B (level * pts + p) | level <- iota 0 n.+1]
          = [seq Some v | v <- [seq 0 | _ <- iota 0 n.+1]].
    rewrite -map_comp.
    by apply/eq_in_map => level; rewrite mem_iota add0n => /andP [_ /Hzero].
  rewrite foldr_option_add_some; congr Some.
  by elim: (iota 0 n.+1) => [|k l IH] //=; rewrite IH; Lra.lra.
have -> : [seq nth None B (level * pts + p) | level <- iota 0 n.+1]
        = [seq Some v
          | v <- [seq INR c / INR cnt
                 | c <- [seq count (fun t => Z.eqb (nth 0%Z (buf labels) t) (Z.of_nat level)
                                             && ~~ nth false (buf mask) t)
                               (lane len inner p)
                        | level <- iota 0 n.+1]]].
  rewrite -2!map_comp; apply/eq_in_map => level; rewrite mem_iota add0n => /andP [_ Hl].
  rewrite Hnth // /g /level_mean /masked_mean Hnil Hcnt.
  by rewrite -[cnt == 0%nat]negbK -lt0n Hc /= count_map.
rewrite foldr_option_add_some Rsum_INR_div big_map sum_level_counts_masked //.
rewrite -/cnt /Rdiv Rinv_r //.
by apply: not_0_INR => E; move: Hc; rewrite E.
Qed.

(** Four repetitions of two points; the second point is masked in every
    repetition, one repetition of the first is masked. The populations of
    the first point are 2/3 and 1/3, those of the second are both 0. *)
Lemma normalize_population_masked_sums_witness :
  exists2 population,
    normalize_population
      (np_array2 [:: [:: 0; 1]; [:: 1; 0]; [:: 5; 1]; [:: 0; 1]]%Z) 2 0
      (Some (np_array2 [:: [:: false; true]; [:: false; true];
                           [:: true; true]; [:: false; true]])) = Ok population &
    forall p, (p < 2)%nat ->
      if lane_seen (np_array2 [:: [:: false; true]; [:: false; true];
                                  [:: true; true]; [:: false; true]])
                   (lane 4 2 p)
      then level_sum population 2 2 p = Some 1
      else level_sum population 2 2 p = Some 0 /\
           forall level, (level < 2)%nat ->
             nth None (buf population) (level * 2 + p) = Some 0.
Proof.
apply: (@normalize_population_masked_sums
          (np_array2 [:: [:: 0; 1]; [:: 1; 0]; [:: 5; 1]; [:: 0; 1]]%Z)
          (np_array2 [:: [:: false; true]; [:: false; true];
                         [:: true; true]; [:: false; true]]) 2 0) => //.
by do 8![case=> [|] //=]; move=> _ _; lia.
Defined.

(** *** Confusion-matrix correction *)

Section Totals.

Import GRing.Theory.

Local Open Scope ring_scope.

Variable gesv : lapack.

Notation correct_population := (correct_population gesv).








End Totals.



(** *** Readout fidelity of a two-level confusion matrix *)

(** X7. For a two-level confusion matrix whose columns sum to 1, the
    readout fidelity is the mean of the diagonal: the average probability
    of assigning a state correctly. *)
Theorem get_readout_fidelity_two_levels (a b c d : R) :
  column_stochastic (np_array2 [:: [:: a; b]; [:: c; d]]) ->
  get_readout_fidelity (np_array2 [:: [:: a; b]; [:: c; d]]) = Ok ((a + d) / 2).
Proof.
move=> Hst; have := Hst 1%nat isT; rewrite /column_total /= => H.
by rewrite /get_readout_fidelity /=; congr Ok; Lra.lra.
Qed.

(** A confusion matrix with assignment probabilities 0.9 and 0.8. *)
Lemma get_readout_fidelity_two_levels_witness :
  get_readout_fidelity (np_array2 [:: [:: 9 / 10; 2 / 10]; [:: 1 / 10; 8 / 10]]) =
    Ok ((9 / 10 + 8 / 10) / 2).
Proof.
apply: get_readout_fidelity_two_levels => j.
by rewrite /column_total /=; case: j => [|[|j]] //= _; Lra.lra.
Defined.

(** *** The two most distant points, and the automatic rotation *)

Lemma Rltb_true (x y : R) : x < y -> Rltb x y = true.
Proof. by move=> H; case: RltbP. Qed.

Lemma Rltb_false (x y : R) : y <= x -> Rltb x y = false.
Proof. by move=> H; case: RltbP => // H'; Lra.lra. Qed.

Lemma distance2 (p0 p1 q0 q1 : R) :
  distance [:: p0; p1] [:: q0; q1] =
    sqrt ((p0 - q0) * (p0 - q0) + (p1 - q1) * (p1 - q1)).
Proof. by rewrite /distance /=; congr sqrt; ring. Qed.

(** Two blob centres, (0, 0) and (3, 4), at distance 5. *)
Lemma find_most_distant_points_returns_witness :
  exists point_i point_j,
    find_most_distant_points (NdArray [:: 2; 2]%nat [:: 0; 0; 3; 4]) =
      Ok (point_i, point_j) /\
    forall i j, i \in [:: [:: 0; 0]; [:: 3; 4]] -> j \in [:: [:: 0; 0]; [:: 3; 4]] ->
      distance i j <= distance point_i point_j.
Proof.
apply: (@find_most_distant_points_returns _ [:: [:: 0; 0]; [:: 3; 4]]
          [:: 0; 0] [:: 3; 4]) => //.
- by rewrite !inE eqxx.
- by rewrite !inE eqxx orbT.
- by rewrite distance2; apply: sqrt_lt_R0; Lra.lra.
Defined.

Lemma example_means_search :
  find_most_distant_points (NdArray [:: 2; 2]%nat [:: 0; 0; 3; 4]) =
    Ok ([:: 0; 0], [:: 3; 4]).
Proof.
have H5 : sqrt (5 * 5) = 5 by apply: sqrt_square; Lra.lra.
have D01 : distance [:: 0; 0] [:: 3; 4] = 5.
  by rewrite distance2 -[RHS]H5; congr sqrt; ring.
have D10 : distance [:: 3; 4] [:: 0; 0] = 5.
  by rewrite distance2 -[RHS]H5; congr sqrt; ring.
rewrite /find_most_distant_points /rows_of /= /outer_step /= /inner_step.
have E00 : Rltb 0 0 = false by apply: Rltb_false; exact: Rle_refl.
have E05 : Rltb 0 5 = true by apply: Rltb_true; Lra.lra.
have E55 : Rltb 5 5 = false by apply: Rltb_false; exact: Rle_refl.
have E50 : Rltb 5 0 = false by apply: Rltb_false; Lra.lra.
by rewrite !distance_self D01 D10 /= E00 /= E05 /= E55 /= E50.
Qed.

(** The polar form of a point of the plane. *)
Lemma arctan2_polar (y x : R) :
  sqrt (x * x + y * y) * cos (arctan2 y x) = x /\
  sqrt (x * x + y * y) * sin (arctan2 y x) = y.
Proof.
set r := sqrt _.
have Hs t : 0 < sqrt (1 + t²).
  by apply: sqrt_lt_R0; have := Rle_0_sqr t; Lra.lra.
have Hss t : sqrt (1 + t²) * sqrt (1 + t²) = 1 + t * t.
  by rewrite sqrt_sqrt //; have := Rle_0_sqr t; rewrite /Rsqr; Lra.lra.
rewrite /arctan2; case: RltbP => Hx.
  have Hr : r = x * sqrt (1 + (y / x)²).
    have Hnn : 0 <= x * sqrt (1 + (y / x)²).
      by apply: Rmult_le_pos; [Lra.lra | apply: Rlt_le].
    rewrite -[RHS](sqrt_square _ Hnn) /r; congr sqrt.
    have -> : x * sqrt (1 + (y / x)²) * (x * sqrt (1 + (y / x)²)) =
              x * x * (sqrt (1 + (y / x)²) * sqrt (1 + (y / x)²)) by ring.
    by rewrite Hss; field; Lra.lra.
  have Hs0 : sqrt (1 + (y / x)²) <> 0 by have := Hs (y / x); Lra.lra.
  have Hx0 : x <> 0 by Lra.lra.
  by rewrite cos_atan sin_atan Hr; split; field; repeat split; assumption.
case: RltbP => Hx'.
  have Hr : r = - x * sqrt (1 + (y / x)²).
    have Hnn : 0 <= - x * sqrt (1 + (y / x)²).
      by apply: Rmult_le_pos; [Lra.lra | apply: Rlt_le].
    rewrite -[RHS](sqrt_square _ Hnn) /r; congr sqrt.
    have -> : - x * sqrt (1 + (y / x)²) * (- x * sqrt (1 + (y / x)²)) =
              x * x * (sqrt (1 + (y / x)²) * sqrt (1 + (y / x)²)) by ring.
    by rewrite Hss; field; Lra.lra.
  have Hs0 : sqrt (1 + (y / x)²) <> 0 by have := Hs (y / x); Lra.lra.
  have Hx0 : x <> 0 by Lra.lra.
  case: RltbP => Hy.
    rewrite /Rminus cos_plus sin_plus cos_neg sin_neg cos_PI sin_PI cos_atan sin_atan Hr.
    by split; field; repeat split; assumption.
  rewrite cos_plus sin_plus cos_PI sin_PI cos_atan sin_atan Hr.
  by split; field; repeat split; assumption.
have Ex : x = 0 by Lra.lra.
have Hr : r = Rabs y.
  by rewrite /r Ex -sqrt_Rsqr_abs /Rsqr; congr sqrt; ring.
case: RltbP => Hy.
  by rewrite cos_PI2 sin_PI2 Hr Rabs_pos_eq; Lra.lra.
case: RltbP => Hy'.
  by rewrite cos_neg sin_neg cos_PI2 sin_PI2 Hr Rabs_left; Lra.lra.
have Ey : y = 0 by Lra.lra.
by rewrite cos_0 sin_0 Hr Ey Rabs_R0; Lra.lra.
Qed.

(** X9. [autorotate_IQ] rotates the data by the angle that lays the two
    most distant blob centres on a line parallel to the I axis: when the
    fit returns centres whose two most distant points are [(p0, p1)] and
    [(q0, q1)], the result is [rotate_IQ] of the data by an angle with
    which [rotate_IQ] sends these two centres, given as IQ data, to two
    points with the same Q, the first one to the right of the second by
    their distance. *)
Theorem autorotate_IQ_aligns
    (sklearn_fit : nat -> seq (R * R) -> result (ndarray R * ndarray R))
    (d : ndarray R) (n_components : nat) (means covariances : ndarray R)
    (p0 p1 q0 q1 : R) :
  gmm_fit sklearn_fit d n_components = Ok (means, covariances) ->
  find_most_distant_points means = Ok ([:: p0; p1], [:: q0; q1]) ->
  exists angle I_q Q_q,
    autorotate_IQ sklearn_fit arctan2 d n_components = rotate_IQ d angle /\
    rotate_IQ (np_array2 [:: [:: p0; q0]; [:: p1; q1]]) angle =
      Ok (np_array2 [:: [:: I_q + distance [:: p0; p1] [:: q0; q1]; I_q];
                        [:: Q_q; Q_q]]).
Proof.
move=> Hfit Hfind.
set angle := -1 * arctan2 (p1 - q1) (p0 - q0).
exists angle, (cos angle * q0 - sin angle * q1), (sin angle * q0 + cos angle * q1).
split; first by rewrite /autorotate_IQ Hfit /= Hfind.
have [Hc Hs] := arctan2_polar (p1 - q1) (p0 - q0).
have Ea : angle = - arctan2 (p1 - q1) (p0 - q0) by rewrite /angle; ring.
move: Hc Hs; rewrite distance2.
set r := sqrt _; set t := arctan2 _ _ in Ea *; move=> Hc Hs.
have Htrig := sin2_cos2 t; rewrite /Rsqr in Htrig.
have HI : cos angle * (p0 - q0) - sin angle * (p1 - q1) = r.
  rewrite Ea cos_neg sin_neg -{1}Hc -{1}Hs.
  transitivity (r * (sin t * sin t + cos t * cos t)); first by ring.
  by rewrite Htrig; ring.
have HQ : sin angle * (p0 - q0) + cos angle * (p1 - q1) = 0.
  by rewrite Ea cos_neg sin_neg -{1}Hc -{1}Hs; ring.
rewrite /rotate_IQ /einsum_ij_j /np_array2 /=.
congr (Ok (NdArray _ [:: _; _; _; _])).
- by rewrite -HI; ring.
- by ring.
- have -> : sin angle * p0 = sin angle * (p0 - q0) + sin angle * q0 by ring.
  have -> : cos angle * p1 = cos angle * (p1 - q1) + cos angle * q1 by ring.
  transitivity (sin angle * (p0 - q0) + cos angle * (p1 - q1) +
                (sin angle * q0 + cos angle * q1)); first by ring.
  by rewrite HQ; ring.
- by ring.
Qed.

(** With the fit that returns the centres (0, 0) and (3, 4), at distance 5
    of each other. *)
Lemma autorotate_IQ_aligns_witness :
  exists angle I_q Q_q,
    autorotate_IQ example_fit arctan2 (NdArray [:: 2; 2]%nat [:: 1; 3; 2; 4]) 2 =
      rotate_IQ (NdArray [:: 2; 2]%nat [:: 1; 3; 2; 4]) angle /\
    rotate_IQ (np_array2 [:: [:: 0; 3]; [:: 0; 4]]) angle =
      Ok (np_array2 [:: [:: I_q + distance [:: 0; 0] [:: 3; 4]; I_q]; [:: Q_q; Q_q]]).
Proof.
apply: (@autorotate_IQ_aligns example_fit _ 2
          (NdArray [:: 2; 2]%nat [:: 0; 0; 3; 4]) (NdArray [:: 2%nat] [:: 1; 1])) => //.
exact: example_means_search.
Defined.

End ProcessingMeasuresFacts.

(** ** One repetition on the instrument: further properties *)

Module DACTraceFacts.

Import DAC DACFacts DACTrace.

Local Open Scope string_scope.
Local Open Scope seq_scope.

Section TraceFacts.

Variable sample : Type.
Variable qblox : instrument sample.

Notation session := (session sample).
Notation world := (world sample).

Lemma call_returns (c : port_call) (w w1 : world) :
  call qblox c w = (Ok tt, w1) -> w1 = World (rcons (log w) (c, true)) (measurement w).
Proof. by rewrite /call; case: raises => [e|] //= [<-]. Qed.

Lemma call_get_acquisitions_returns r seq_idx data (w w1 : world) :
  call_get_acquisitions qblox r seq_idx w = (Ok data, w1) ->
  w1 = World (rcons (log w) (get_acquisitions r seq_idx, true)) (measurement w).
Proof. by rewrite /call_get_acquisitions; case: raises => [e|] //= [_ <-]. Qed.

Lemma measurement_append_log r data name upd (w w1 : world) (x : result unit) :
  @measurement_append sample r data name upd w = (x, w1) -> log w1 = log w.
Proof.
rewrite /measurement_append; case: dict_get => [e|]; last by case=> _ <-.
by case: dict_get => [a|]; case=> _ <-.
Qed.

Lemma store_measurement_log keep_raw r data (w w1 : world) :
  @store_measurement sample keep_raw r data w = (Ok tt, w1) -> log w1 = log w.
Proof.
rewrite /store_measurement => H.
have [[] [w2 [/measurement_append_log <- {}H]]] := bind_ok_inv H.
have [[] [w3 [/measurement_append_log <- {}H]]] := bind_ok_inv H.
have [[] [w4 [/measurement_append_log <- {}H]]] := bind_ok_inv H.
have [[] [w5 [/measurement_append_log <- {}H]]] := bind_ok_inv H.
move: H; case: keep_raw => H; last by case: H => <-.
have [[] [w6 [/measurement_append_log <- {}H]]] := bind_ok_inv H.
have [[] [w7 [/measurement_append_log <- {}H]]] := bind_ok_inv H.
have [[] [w8 [/measurement_append_log <- {}H]]] := bind_ok_inv H.
by move/measurement_append_log: H.
Qed.

Lemma fetch_resonator_calls self keep_raw r (w w' : world) :
  fetch_resonator qblox self keep_raw r w = (Ok tt, w') ->
  log w' = log w ++ [seq (c, true) | c <- resonator_calls self keep_raw r].
Proof.
rewrite /fetch_resonator /resonator_calls /seq_idx_of /timeout_of.
move=> H; have [mod_idx [w1 [/lookup_ok [-> ->] {}H]]] := bind_ok_inv H.
have [timeout [w2 [/lookup_ok [-> ->] {}H]]] := bind_ok_inv H.
have [seq_idx [w3 [/lookup_ok [-> ->] {}H]]] := bind_ok_inv H.
have [[] [w4 [/has_key_ok -> {}H]]] := bind_ok_inv H.
have [[] [w5 [/call_returns -> {}H]]] := bind_ok_inv H.
have [[] [w6 [H6 {}H]]] := bind_ok_inv H.
have [data [w7 [/call_get_acquisitions_returns E7 {}H]]] := bind_ok_inv H.
have [[] [w8 [/call_returns E8 {}H]]] := bind_ok_inv H.
have [[] [w9 [/call_returns E9 {}H]]] := bind_ok_inv H.
rewrite (store_measurement_log H) E9 /= E8 /= E7 /=.
move: H6; case: (keep_raw) => H6 /=.
  have [[] [wa [/call_returns -> /call_returns ->]]] := bind_ok_inv H6.
  by rewrite /= -!cats1 -!catA.
by case: H6 => <-; rewrite /= -!cats1 -!catA.
Qed.

Lemma arm_loop_calls self (tones : seq string) (w w' : world) :
  for_each tones (fun tone =>
    bind (has_key (sequencer self) tone) (fun _ => call qblox (arm_sequencer tone))) w
    = (Ok tt, w') ->
  w' = World (log w ++ [seq (arm_sequencer tone, true) | tone <- tones]) (measurement w).
Proof.
elim: tones w => [|t ts IH] w /=; first by case=> <-; rewrite cats0; case: w.
move=> H; have [[] [w1 [H1 {}H]]] := bind_ok_inv H.
have [[] [w2 [/has_key_ok -> /call_returns E1]]] := bind_ok_inv H1.
by rewrite (IH _ H) E1 /= -cats1 -catA.
Qed.

Lemma fetch_loop_calls self keep_raw (tones : seq string) (w w' : world) :
  for_each tones (fun r =>
    if ~~ startswith r "R" then ret tt else fetch_resonator qblox self keep_raw r) w
    = (Ok tt, w') ->
  log w' = log w ++
    [seq (c, true)
    | c <- flatten [seq resonator_calls self keep_raw r | r <- tones & startswith r "R"]].
Proof.
elim: tones w => [|t ts IH] w /=; first by case=> <-; rewrite cats0.
move=> H; have [[] [w1 [H1 {}H]]] := bind_ok_inv H.
rewrite (IH _ H); move: H1; case: (startswith t "R") => /=.
  by move/fetch_resonator_calls => ->; rewrite map_cat -catA.
by case=> <-.
Qed.

(** X10. When [start_sequencer] returns, the calls it made on the
    instrument are, in this order and all of them returned: one
    [arm_sequencer] per tone, the start of the cluster, and for each
    resonator tone the wait for the acquisition, the two scope stores if
    [keep_raw], the read, and the deletion of 'readout' and of
    'heralding'. Nothing is started before every tone is armed, and
    nothing is read before the start. *)
Theorem start_sequencer_calls (self : DACManager) (tones : seq string)
    (keep_raw : bool) (w w' : world) :
  start_sequencer qblox self tones keep_raw w = (Ok tt, w') ->
  log w' = log w ++ [seq (c, true) | c <- repetition_calls self tones keep_raw].
Proof.
rewrite /start_sequencer /repetition_calls => H.
have [[] [w1 [/arm_loop_calls E1 {}H]]] := bind_ok_inv H.
have [[] [w2 [/call_returns E2 /fetch_loop_calls ->]]] := bind_ok_inv H.
rewrite E2 E1 /= map_cat /= -cats1 -!catA /=.
by rewrite -map_comp.
Qed.

(** *** The cluster is started only when every tone is armed *)

Lemma has_all_both {T : Type} (P Q : pred T) (s : seq T) :
  has P s -> all Q s -> exists2 x, P x & Q x.
Proof.
elim: s => [|x s IH] //= /orP [Hx|Hs] /andP [Qx Qs]; first by exists x.
exact: IH.
Qed.

Lemma arm_loop_log self (tones : seq string) (w : world) :
  exists2 d,
    log (for_each tones (fun tone =>
           bind (has_key (sequencer self) tone)
                (fun _ => call qblox (arm_sequencer tone))) w).2 = log w ++ d &
    all (fun e => is_arm e.1) d.
Proof.
elim: tones w => [|t ts IH] w /=; first by exists [::]; rewrite ?cats0.
rewrite /bind /has_key; case: has => /=; last by exists [::]; rewrite ?cats0.
rewrite /call; case: raises => [e|] /=.
  by exists [:: (arm_sequencer t, false)]; rewrite ?cats1.
set w1 := World _ _; have [d E Hd] := IH w1.
exists ((arm_sequencer t, true) :: d); last by [].
by rewrite E /w1 /= -cats1 -catA.
Qed.

(** X22. Whatever the instrument does, [start_sequencer] issues the start
    of the cluster only after [arm_sequencer] has returned for every tone:
    if the start is among the calls of a repetition, the calls begin with
    one returned [arm_sequencer] per tone, in order, followed by the
    start. When arming a tone raises, or a tone has no sequencer, the
    cluster is not started. *)
Theorem start_sequencer_starts_armed (self : DACManager) (tones : seq string)
    (keep_raw : bool) (w : world) (d : seq (port_call * bool)) :
  log (start_sequencer qblox self tones keep_raw w).2 = log w ++ d ->
  started d ->
  exists returned post,
    d = [seq (arm_sequencer tone, true) | tone <- tones] ++
        (qblox_start_sequencer, returned) :: post.
Proof.
rewrite /start_sequencer {1}/bind.
have [d1 E1 Harm] := arm_loop_log self tones w.
case Earm: (for_each tones _ w) E1 => [[[]|e] w1] /= E1.
  have -> := arm_loop_calls Earm.
  have Hbody : forall x, steps (if ~~ startswith x "R" then ret tt
                                else fetch_resonator qblox self keep_raw x).
    move=> x; case: (startswith x "R") => /=;
      [exact: steps_fetch_resonator | exact: steps_ret].
  rewrite /bind /call /=; case: raises => [e|] /=.
    rewrite -cats1 -catA => /(congr1 (drop (size (log w)))).
    by rewrite !drop_size_cat // => <- _; exists false, [::].
  set w2 := World _ _; have [d2 -> _] := steps_for_each tones Hbody w2.
  rewrite /w2 /= -cats1 -!catA => /(congr1 (drop (size (log w)))).
  by rewrite !drop_size_cat // => <- _; exists true, d2.
rewrite E1 => /(congr1 (drop (size (log w)))); rewrite !drop_size_cat // => <-.
rewrite /started => Hstart.
have [c] := has_all_both Hstart Harm.
by case: (c.1).
Qed.

(** *** The measurement record *)

Lemma dict_set_set {V : Type} (d : dict V) (k : string) (v v' : V) :
  dict_set (dict_set d k v) k v' = dict_set d k v'.
Proof.
elim: d => [|[k0 v0] d IH] /=; first by rewrite String.eqb_refl.
case E: (String.eqb k0 k) => /=; rewrite E //.
by rewrite IH.
Qed.

Lemma dict_get_all {V : Type} (P : pred V) (d : dict V) (k : string) (v : V) :
  all (fun kv => P kv.2) d -> dict_get d k = Some v -> P v.
Proof.
elim: d => [|[k0 v0] d IH] //= /andP [H0 Hd].
by case: String.eqb => [[<-]|] //; exact: IH.
Qed.

Lemma dict_set_all {V : Type} (P : pred V) (d : dict V) (k : string) (v : V) :
  all (fun kv => P kv.2) d -> P v -> all (fun kv => P kv.2) (dict_set d k v).
Proof.
move=> Hd Hv; elim: d Hd => [|[k0 v0] d IH] /=; first by rewrite Hv.
by move=> /andP [H0 Hd]; case: String.eqb => /=; rewrite ?Hv ?H0 ?Hd ?IH.
Qed.

Lemma measurement_append_run r data name upd (w : world) e a :
  dict_get (measurement w) r = Some e -> dict_get data name = Some a ->
  @measurement_append sample r data name upd w =
    (Ok tt, World (log w) (dict_set (measurement w) r (upd e a))).
Proof. by rewrite /measurement_append => -> ->. Qed.

Lemma measurement_append_ok r data name upd (w w1 : world) :
  @measurement_append sample r data name upd w = (Ok tt, w1) ->
  exists e a, dict_get (measurement w) r = Some e /\ dict_get data name = Some a.
Proof.
rewrite /measurement_append; case: dict_get => [e|] //; case: dict_get => [a|] // _.
by exists e, a.
Qed.

Lemma measurement_append_raise r data name upd (w w1 : world) (x : pyexn) :
  @measurement_append sample r data name upd w = (Raise x, w1) -> w1 = w.
Proof.
rewrite /measurement_append; case: dict_get => [e|]; last by case=> _ <-.
by case: dict_get => [a|] //; case=> _ <-.
Qed.

(** Two consecutive appends for the same resonator and acquisition. *)
Lemma append_pair_run r data name updI updQ (k : session unit) lg m e a :
  dict_get m r = Some e -> dict_get data name = Some a ->
  bind (@measurement_append sample r data name updI) (fun _ =>
  bind (@measurement_append sample r data name updQ) (fun _ => k)) (World lg m) =
  k (World lg (dict_set m r (updQ (updI e a) a))).
Proof.
move=> He Ha.
rewrite (bind_ok _ (@measurement_append_run r data name updI (World lg m) e a He Ha)) /=.
have He1 : dict_get (dict_set m r (updI e a)) r = Some (updI e a).
  by rewrite dict_get_set eqxx.
rewrite (bind_ok _ (@measurement_append_run r data name updQ (World lg _) _ a He1 Ha)) /=.
by rewrite dict_set_set.
Qed.

Lemma append_pair_last r data name updI updQ lg m e a :
  dict_get m r = Some e -> dict_get data name = Some a ->
  bind (@measurement_append sample r data name updI) (fun _ =>
        @measurement_append sample r data name updQ) (World lg m) =
  (Ok tt, World lg (dict_set m r (updQ (updI e a) a))).
Proof.
move=> He Ha.
rewrite (bind_ok _ (@measurement_append_run r data name updI (World lg m) e a He Ha)) /=.
have He1 : dict_get (dict_set m r (updI e a)) r = Some (updI e a).
  by rewrite dict_get_set eqxx.
rewrite (@measurement_append_run r data name updQ (World lg _) _ a He1 Ha) /=.
by rewrite dict_set_set.
Qed.

Lemma store_measurement_run keep_raw r data (w : world) e rd hd :
  dict_get (measurement w) r = Some e ->
  dict_get data "readout" = Some rd -> dict_get data "heralding" = Some hd ->
  store_measurement keep_raw r data w =
    (Ok tt, World (log w) (dict_set (measurement w) r (grown keep_raw e rd hd))).
Proof.
case: w => lg m /= He Hrd Hhd; rewrite /store_measurement.
have Hget (x : record_entry sample) : dict_get (dict_set m r x) r = Some x.
  by rewrite dict_get_set eqxx.
rewrite (append_pair_run _ _ _ _ He Hrd) (append_pair_run _ _ _ _ (Hget _) Hhd).
rewrite dict_set_set.
case: keep_raw => /=; last by [].
rewrite (append_pair_run _ _ _ _ (Hget _) Hrd) dict_set_set.
by rewrite (append_pair_last _ _ _ (Hget _) Hhd) dict_set_set.
Qed.

Lemma store_measurement_ok keep_raw r data (w w' : world) :
  store_measurement keep_raw r data w = (Ok tt, w') ->
  exists e rd hd,
    [/\ dict_get (measurement w) r = Some e,
        dict_get data "readout" = Some rd,
        dict_get data "heralding" = Some hd &
        w' = World (log w) (dict_set (measurement w) r (grown keep_raw e rd hd))].
Proof.
move=> H; have H0 := H; move: H0; rewrite /store_measurement => H0.
have [[] [w1 [/measurement_append_ok [e [rd [He Hrd]]] {}H0]]] := bind_ok_inv H0.
have [[] [w2 [_ {}H0]]] := bind_ok_inv H0.
have [[] [w3 [/measurement_append_ok [e3 [hd [_ Hhd]]] _]]] := bind_ok_inv H0.
exists e, rd, hd; split=> //.
by move: H; rewrite (store_measurement_run keep_raw He Hrd Hhd) => [[]].
Qed.

Lemma call_get_acquisitions_data r seq_idx data (w w1 : world) :
  call_get_acquisitions qblox r seq_idx w = (Ok data, w1) ->
  data = acquired qblox [seq e.1 | e <- log w] r seq_idx.
Proof. by rewrite /call_get_acquisitions; case: raises => [e|] //= [<-]. Qed.

Lemma keep_raw_calls_world (keep_raw : bool) r seq_idx (w w1 : world) :
  (if keep_raw then
     bind (call qblox (store_scope_acquisition r seq_idx "readout")) (fun _ =>
           call qblox (store_scope_acquisition r seq_idx "heralding"))
   else ret tt) w = (Ok tt, w1) ->
  w1 = World (log w ++
              [seq (c, true)
              | c <- if keep_raw then [:: store_scope_acquisition r seq_idx "readout";
                                          store_scope_acquisition r seq_idx "heralding"]
                     else [::]])
             (measurement w).
Proof.
case: keep_raw => H; last by case: H => <-; rewrite cats0; case: (w).
have [[] [wa [/call_returns -> /call_returns ->]]] := bind_ok_inv H.
by rewrite /= -!cats1 -catA.
Qed.

Lemma fetch_resonator_stores self keep_raw r (w w' : world) :
  fetch_resonator qblox self keep_raw r w = (Ok tt, w') ->
  stored qblox self keep_raw ([seq e.1 | e <- log w] ++ wait_calls self keep_raw r)
    (measurement w) (measurement w') r /\
  forall r', r' != r -> dict_get (measurement w') r' = dict_get (measurement w) r'.
Proof.
rewrite /fetch_resonator /stored /wait_calls /seq_idx_of /timeout_of.
move=> H; have [mod_idx [w1 [/lookup_ok [-> ->] {}H]]] := bind_ok_inv H.
have [timeout [w2 [/lookup_ok [-> ->] {}H]]] := bind_ok_inv H.
have [seq_idx [w3 [/lookup_ok [-> ->] {}H]]] := bind_ok_inv H.
have [[] [w4 [/has_key_ok -> {}H]]] := bind_ok_inv H.
have [[] [w5 [/call_returns E5 {}H]]] := bind_ok_inv H.
have [[] [w6 [/keep_raw_calls_world E6 {}H]]] := bind_ok_inv H.
have [data [w7 [H7 {}H]]] := bind_ok_inv H.
have Edata := call_get_acquisitions_data H7.
have E7 := call_get_acquisitions_returns H7.
have [[] [w8 [/call_returns E8 {}H]]] := bind_ok_inv H.
have [[] [w9 [/call_returns E9 {}H]]] := bind_ok_inv H.
have [e [rd [hd [He Hrd Hhd ->]]]] := store_measurement_ok H.
have Em : measurement w9 = measurement w by rewrite E9 /= E8 /= E7 /= E6 /= E5.
have Elog : [seq e.1 | e <- log w6] =
            [seq e.1 | e <- log w] ++
            get_acquisition_state r seq_idx timeout ::
            (if keep_raw then [:: store_scope_acquisition r seq_idx "readout";
                                  store_scope_acquisition r seq_idx "heralding"]
             else [::]).
  rewrite E6 /= E5 /= map_cat map_rcons /= -cats1 -catA /=; congr (_ ++ _ :: _).
  by rewrite -map_comp; case: (keep_raw).
rewrite /= Em in He *; split.
  by exists e, rd, hd; rewrite /= -Elog -Edata; split=> //; rewrite dict_get_set eqxx.
by move=> r' Hr'; rewrite dict_get_set eq_sym (negbTE Hr').
Qed.

Lemma fetch_loop_stores self keep_raw (tones : seq string) (w w' : world) :
  uniq tones ->
  for_each tones (fun r =>
    if ~~ startswith r "R" then ret tt else fetch_resonator qblox self keep_raw r) w
    = (Ok tt, w') ->
  forall r,
    if (r \in tones) && startswith r "R"
    then stored qblox self keep_raw
           ([seq e.1 | e <- log w] ++
            flatten [seq resonator_calls self keep_raw r'
                    | r' <- take (seq.index r tones) tones & startswith r' "R"] ++
            wait_calls self keep_raw r)
           (measurement w) (measurement w') r
    else dict_get (measurement w') r = dict_get (measurement w) r.
Proof.
elim: tones w => [|t ts IH] w /=; first by move=> _ [<-].
move=> /andP [Ht Hts] H r.
have [[] [w1 [H1 {}H]]] := bind_ok_inv H.
have {IH} := IH _ Hts H r; rewrite in_cons [t == r]eq_sym.
case: (r =P t) => [->|/eqP Hrt] /=.
  rewrite (negbTE Ht) /= => Hkeep.
  move: H1 Hkeep; case: (startswith t "R") => /=; last by case=> <-.
  move/fetch_resonator_stores => [[e [rd [hd [He Hrd Hhd Hm]]]] _] Hkeep.
  by exists e, rd, hd; rewrite Hkeep.
have Hother : dict_get (measurement w1) r = dict_get (measurement w) r.
  move: H1; case: (startswith t "R") => /=; last by case=> <-.
  by move/fetch_resonator_stores => [_]; apply.
case: ifP => _; last by rewrite Hother.
have Ehist : [seq e.1 | e <- log w1] =
             [seq e.1 | e <- log w] ++
             (if startswith t "R" then resonator_calls self keep_raw t else [::]).
  move: H1; case: (startswith t "R") => /=; last by case=> <-; rewrite cats0.
  move/fetch_resonator_calls => ->.
  by rewrite map_cat -map_comp map_id.
move=> [e [rd [hd [He Hrd Hhd Hm]]]]; exists e, rd, hd; rewrite -Hother.
suff <- : [seq e.1 | e <- log w1] ++
          flatten [seq resonator_calls self keep_raw r'
                  | r' <- take (seq.index r ts) ts & startswith r' "R"] ++
          wait_calls self keep_raw r =
          [seq e.1 | e <- log w] ++
          flatten [seq resonator_calls self keep_raw r'
                  | r' <- if startswith t "R"
                          then t :: filter (fun x => startswith x "R")
                                      (take (seq.index r ts) ts)
                          else filter (fun x => startswith x "R")
                                 (take (seq.index r ts) ts)] ++
          wait_calls self keep_raw r by [].
rewrite Ehist; case: (startswith t "R"); last by rewrite cats0.
by rewrite map_cons -[flatten (_ :: _)]/(_ ++ flatten _) -!catA.
Qed.

(** X11. When [start_sequencer] returns for a list of distinct tones, the
    record of every resonator tone has grown by exactly one row per list:
    the 'readout' and 'heralding' bins (and scope traces, if [keep_raw])
    that the instrument handed back to the [get_acquisitions] of this
    repetition for its sequencer, that is after the calls made before the
    repetition, the arming of every tone, the start, the calls for the
    resonator tones that come earlier in the list and the wait for this
    one; path0 is appended to the I list and path1 to the Q list. Every
    other entry of the measurement dictionary is as it was. *)
Theorem start_sequencer_stores (self : DACManager) (tones : seq string)
    (keep_raw : bool) (w w' : world) :
  uniq tones ->
  start_sequencer qblox self tones keep_raw w = (Ok tt, w') ->
  forall r,
    if (r \in tones) && startswith r "R"
    then stored qblox self keep_raw
           ([seq e.1 | e <- log w] ++ calls_before_read self tones keep_raw r)
           (measurement w) (measurement w') r
    else dict_get (measurement w') r = dict_get (measurement w) r.
Proof.
rewrite /start_sequencer /calls_before_read => Hu H.
have [[] [w1 [/arm_loop_calls E1 {}H]]] := bind_ok_inv H.
have [[] [w2 [/call_returns E2 {}H]]] := bind_ok_inv H.
have Em : measurement w2 = measurement w by rewrite E2 /= E1.
have El : [seq e.1 | e <- log w2] =
          [seq e.1 | e <- log w] ++ [seq arm_sequencer tone | tone <- tones] ++
          [:: qblox_start_sequencer].
  by rewrite E2 /= E1 /= map_rcons map_cat -map_comp /= -cats1 -catA.
move=> r; have := fetch_loop_stores Hu H r; rewrite Em El.
by rewrite -!catA /=.
Qed.

(** *** I and Q stay paired *)

Notation keeps_balanced := (@keeps_balanced sample).

Lemma keeps_balanced_ret {A : Type} (a : A) : keeps_balanced (ret a).
Proof. by []. Qed.

Lemma keeps_balanced_raise {A : Type} (e : pyexn) : keeps_balanced (raise e : session A).
Proof. by []. Qed.

Lemma keeps_balanced_bind {A B : Type} (m : session A) (k : A -> session B) :
  keeps_balanced m -> (forall a, keeps_balanced (k a)) -> keeps_balanced (bind m k).
Proof.
move=> Hm Hk w Hw; rewrite /bind.
have := Hm w Hw; case: (m w) => [[a|e] w1] //=.
exact: Hk.
Qed.

Lemma keeps_balanced_for_each {X : Type} (xs : seq X) (body : X -> session unit) :
  (forall x, keeps_balanced (body x)) -> keeps_balanced (for_each xs body).
Proof.
move=> Hb; elim: xs => [|x xs IH] //=.
by apply: keeps_balanced_bind => // _.
Qed.

Lemma keeps_balanced_lookup (store : string -> option Z) (key : string) :
  keeps_balanced (lookup store key : session Z).
Proof.
rewrite /lookup; case: (store key) => [v|];
  [exact: keeps_balanced_ret | exact: keeps_balanced_raise].
Qed.

Lemma keeps_balanced_has_key (keys : seq string) (k : string) :
  keeps_balanced (has_key keys k : session unit).
Proof.
rewrite /has_key; case: has; [exact: keeps_balanced_ret | exact: keeps_balanced_raise].
Qed.

Lemma keeps_balanced_call (c : port_call) : keeps_balanced (call qblox c).
Proof. by move=> w; rewrite /call; case: raises. Qed.

Lemma keeps_balanced_call_get_acquisitions r seq_idx :
  keeps_balanced (call_get_acquisitions qblox r seq_idx).
Proof. by move=> w; rewrite /call_get_acquisitions; case: raises. Qed.

Lemma keeps_balanced_pair r data name updI updQ (k : session unit) :
  (forall e a, balanced e -> balanced (updQ (updI e a) a)) ->
  keeps_balanced k ->
  keeps_balanced
    (bind (@measurement_append sample r data name updI) (fun _ =>
     bind (@measurement_append sample r data name updQ) (fun _ => k))).
Proof.
move=> Hupd Hk [lg m] /= Hb.
case He: (dict_get m r) => [e|]; last by rewrite /bind /measurement_append /= He.
case Ha: (dict_get data name) => [a|]; last by rewrite /bind /measurement_append /= He Ha.
rewrite (append_pair_run _ _ _ _ He Ha); apply: Hk => /=.
by apply: dict_set_all => //; apply: Hupd; exact: dict_get_all Hb He.
Qed.

Lemma keeps_balanced_pair_last r data name updI updQ :
  (forall e a, balanced e -> balanced (updQ (updI e a) a)) ->
  keeps_balanced
    (bind (@measurement_append sample r data name updI) (fun _ =>
           @measurement_append sample r data name updQ)).
Proof.
move=> Hupd [lg m] /= Hb.
case He: (dict_get m r) => [e|]; last by rewrite /bind /measurement_append /= He.
case Ha: (dict_get data name) => [a|]; last by rewrite /bind /measurement_append /= He Ha.
rewrite (append_pair_last _ _ _ He Ha) /=.
by apply: dict_set_all => //; apply: Hupd; exact: dict_get_all Hb He.
Qed.

Lemma keeps_balanced_store_measurement keep_raw r data :
  keeps_balanced (@store_measurement sample keep_raw r data).
Proof.
have Hsz (e : record_entry sample) : balanced e ->
    forall x y,
      [/\ balanced (RecordEntry (rcons (raw_readout e).1 x, rcons (raw_readout e).2 y)
                      (raw_heralding e) (Heterodyned_readout e) (Heterodyned_heralding e)),
          balanced (RecordEntry (raw_readout e)
                      (rcons (raw_heralding e).1 x, rcons (raw_heralding e).2 y)
                      (Heterodyned_readout e) (Heterodyned_heralding e)),
          balanced (RecordEntry (raw_readout e) (raw_heralding e)
                      (rcons (Heterodyned_readout e).1 x, rcons (Heterodyned_readout e).2 y)
                      (Heterodyned_heralding e)) &
          balanced (RecordEntry (raw_readout e) (raw_heralding e) (Heterodyned_readout e)
                      (rcons (Heterodyned_heralding e).1 x,
                       rcons (Heterodyned_heralding e).2 y))].
  case: e => [[a1 a2] [b1 b2] [c1 c2] [d1 d2]].
  rewrite /balanced /balanced_pair /= => /and4P [Ha Hb Hc Hd] x y.
  by rewrite !size_rcons !eqSS Ha Hb Hc Hd.
rewrite /store_measurement.
apply: keeps_balanced_pair; first by move=> e a /Hsz H; case: (H (bins_path0 a) (bins_path1 a)).
apply: keeps_balanced_pair; first by move=> e a /Hsz H; case: (H (bins_path0 a) (bins_path1 a)).
case: keep_raw; last exact: keeps_balanced_ret.
apply: keeps_balanced_pair;
  first by move=> e a /Hsz H; case: (H (scope_path0 a) (scope_path1 a)).
apply: keeps_balanced_pair_last.
by move=> e a /Hsz H; case: (H (scope_path0 a) (scope_path1 a)).
Qed.

(** X12. Whatever the instrument does and wherever [start_sequencer]
    stops, it leaves the I list and the Q list of every entry of the
    measurement record with the same number of rows, provided they had
    the same number before: an append to an I list is always completed by
    the append to the Q list. (Every acquisition that the driver returns
    is taken to hold both paths.) *)
Theorem start_sequencer_keeps_balanced (self : DACManager) (tones : seq string)
    (keep_raw : bool) (w : world) :
  all_balanced (measurement w) ->
  all_balanced (measurement (start_sequencer qblox self tones keep_raw w).2).
Proof.
move: w; rewrite -/(keeps_balanced _) /start_sequencer.
apply: keeps_balanced_bind.
  apply: keeps_balanced_for_each => tone.
  apply: keeps_balanced_bind; first exact: keeps_balanced_has_key.
  by move=> _; exact: keeps_balanced_call.
move=> _; apply: keeps_balanced_bind; first exact: keeps_balanced_call.
move=> _; apply: keeps_balanced_for_each => r.
case: (startswith r "R") => /=; last exact: keeps_balanced_ret.
rewrite /fetch_resonator.
do 3![apply: keeps_balanced_bind; first exact: keeps_balanced_lookup; move=> ?].
apply: keeps_balanced_bind; first exact: keeps_balanced_has_key.
move=> _; apply: keeps_balanced_bind; first exact: keeps_balanced_call.
move=> _; apply: keeps_balanced_bind.
  case: keep_raw; last exact: keeps_balanced_ret.
  by apply: keeps_balanced_bind; [exact: keeps_balanced_call
                                 | move=> _; exact: keeps_balanced_call].
move=> _; apply: keeps_balanced_bind; first exact: keeps_balanced_call_get_acquisitions.
move=> data; apply: keeps_balanced_bind; first exact: keeps_balanced_call.
move=> _; apply: keeps_balanced_bind; first exact: keeps_balanced_call.
by move=> _; exact: keeps_balanced_store_measurement.
Qed.

End TraceFacts.

(** The calls of the run on the healthy example instrument. *)
Lemma start_sequencer_calls_witness :
  log (start_sequencer healthy_instrument example_dac example_tones false
         example_world).2 =
  [:: (arm_sequencer "Q3/01", true); (arm_sequencer "R3", true);
      (qblox_start_sequencer, true);
      (get_acquisition_state "R3" 0 1, true);
      (get_acquisitions "R3" 0, true);
      (delete_acquisition_data "R3" 0 "readout", true);
      (delete_acquisition_data "R3" 0 "heralding", true)].
Proof.
by rewrite (@start_sequencer_calls _ healthy_instrument example_dac example_tones false
              example_world
              (start_sequencer healthy_instrument example_dac example_tones false
                 example_world).2 erefl).
Defined.

(** On the instrument whose bins count the calls made so far, with two
    resonators: the entry of R3 has grown by the bins handed back after 4
    calls, that of R4 by the bins handed back after 8 calls, and a tone
    that was not played has no entry. *)
Lemma start_sequencer_stores_witness :
  let w' := (start_sequencer counting_instrument two_resonators [:: "R3"; "R4"] false
               two_entries).2 in
  [/\ stored counting_instrument two_resonators false
        ([::] ++ calls_before_read two_resonators [:: "R3"; "R4"] false "R3")
        (measurement two_entries) (measurement w') "R3",
      stored counting_instrument two_resonators false
        ([::] ++ calls_before_read two_resonators [:: "R3"; "R4"] false "R4")
        (measurement two_entries) (measurement w') "R4",
      (Heterodyned_readout (odflt empty_entry (dict_get (measurement w') "R3"))).1 =
        [:: [:: inject_Z 4]],
      (Heterodyned_readout (odflt empty_entry (dict_get (measurement w') "R4"))).1 =
        [:: [:: inject_Z 8]] &
      dict_get (measurement w') "Q3/01" = None].
Proof.
move=> w'.
have Hu : uniq [:: "R3"; "R4"] by vm_compute.
have Hrun : start_sequencer counting_instrument two_resonators [:: "R3"; "R4"] false
              two_entries = (Ok tt, w') by vm_compute.
have H := start_sequencer_stores Hu Hrun.
split; [exact: (H "R3") | exact: (H "R4") | by vm_compute | by vm_compute
       | exact: (H "Q3/01")].
Defined.

(** On the instrument whose read raises, the record is still balanced. *)
Lemma start_sequencer_keeps_balanced_witness :
  all_balanced (measurement (start_sequencer read_fails example_dac example_tones true
                               example_world).2) /\
  all_balanced (measurement (start_sequencer healthy_instrument example_dac example_tones
                               true example_world).2).
Proof.
by split; apply: start_sequencer_keeps_balanced.
Defined.

(** The run on the instrument whose read raises: the cluster was started,
    after both tones were armed. *)
Lemma start_sequencer_starts_armed_witness :
  exists returned post,
    [:: (arm_sequencer "Q3/01", true); (arm_sequencer "R3", true);
        (qblox_start_sequencer, true);
        (get_acquisition_state "R3" 0 1, true);
        (get_acquisitions "R3" 0, false)] =
    [:: (arm_sequencer "Q3/01", true); (arm_sequencer "R3", true)] ++
    (qblox_start_sequencer, returned) :: post.
Proof.
exact: (@start_sequencer_starts_armed _ read_fails example_dac example_tones false
          example_world _ erefl isT).
Defined.

End DACTraceFacts.

(** ** From tones to qudits *)

Module TonesFacts.

Import Tones.

Local Open Scope string_scope.
Local Open Scope seq_scope.

Lemma split_on_size (c : ascii) (s : string) :
  size (split_on c s) = (occurrences c s).+1.
Proof.
elim: s => [|c' s IH] //=; case: Ascii.eqb => /=; first by rewrite IH.
by case: (split_on c s) IH => [|h t].
Qed.

Lemma split_on_head (c : ascii) (s : string) :
  head EmptyString (split_on c s) = before c s.
Proof.
elim: s => [|c' s IH] //=; case: Ascii.eqb => //=.
by case: (split_on c s) IH => [|h t] //= ->.
Qed.

Lemma tone_to_qudit_str_valid (tone : string) :
  valid_tone tone -> tone_to_qudit_str tone = Ok (qudit_of tone).
Proof.
rewrite /valid_tone /tone_to_qudit_str /qudit_of => ->.
have := split_on_size "/" tone; have := split_on_head "/" tone.
case: (split_on "/" tone) => [|q [|x [|y l]]] //=.
- by move=> _ [<-].
- by move=> <- [<-].
- by move=> _ [<-].
Qed.

(** X13. For a string that starts with 'Q' or 'R', [tone_to_qudit]
    returns the part before the slash when the string holds exactly one
    slash ('Q2/12' gives 'Q2'), and the string itself otherwise: with no
    slash ('R2'), and also with two slashes or more. Any other string is
    refused with an [AssertionError]. *)
Theorem tone_to_qudit_string (tone : string) :
  tone_to_qudit (PStr tone) =
    if startswith tone "Q" || startswith tone "R" then
      Ok (PStr (if occurrences "/" tone == 1 then before "/" tone else tone))
    else Raise (AssertionError (translate_message tone)).
Proof.
rewrite /=; case E: (_ || _); first by rewrite tone_to_qudit_str_valid.
by rewrite /tone_to_qudit_str E.
Qed.

(** *** Lists of tones *)

Lemma list_branch_is_loop (ts : seq pyval) :
  tone_to_qudit (PList ts) = qudit_loop ts [::].
Proof.
rewrite /=; move: [::] => acc.
by elim: ts acc => [|t ts IH] acc //=.
Qed.

Lemma has_pyval_eqb_str (q : string) (acc : seq string) :
  has (pyval_eqb (PStr q)) [seq PStr x | x <- acc] = (q \in acc).
Proof.
elim: acc => [|x acc IH] //=; rewrite IH in_cons.
by congr (_ || _).
Qed.

Lemma qudit_loop_strings (tones acc : seq string) :
  all valid_tone tones ->
  qudit_loop [seq PStr t | t <- tones] [seq PStr q | q <- acc] =
    Ok (PList [seq PStr q | q <- foldl add_qudit acc [seq qudit_of t | t <- tones]]).
Proof.
elim: tones acc => [|t ts IH] acc //= /andP [Ht Hts].
rewrite tone_to_qudit_str_valid // has_pyval_eqb_str -IH // /add_qudit.
by case: ifP => _ //; rewrite map_rcons.
Qed.

Lemma add_qudits_spec (qs acc : seq string) :
  uniq acc ->
  exists l,
    [/\ foldl add_qudit acc qs = acc ++ l, uniq (acc ++ l),
        subseq l qs & forall q, (q \in acc ++ l) = (q \in acc ++ qs)].
Proof.
elim: qs acc => [|q qs IH] acc Hu /=.
  by exists [::]; rewrite cats0.
rewrite /add_qudit; case Hq: (q \in acc).
  have [l [E U S Hmem]] := IH acc Hu; exists l; split=> //.
    by apply: subseq_trans S (subseq_cons _ _).
  move=> x; rewrite Hmem !mem_cat in_cons.
  by case: (x =P q) => [->|_]; rewrite ?Hq ?orbT.
have Hu' : uniq (rcons acc q) by rewrite rcons_uniq Hq.
have [l [E U S Hmem]] := IH _ Hu'; exists (q :: l).
rewrite -cats1 -catA /= in E U Hmem *; split=> //; first by rewrite eqxx.
by move=> x; rewrite Hmem -catA.
Qed.

(** X14. On a list of strings that all start with 'Q' or 'R',
    [tone_to_qudit] returns the qudits of the tones with every repetition
    left out: the result has no duplicate, holds exactly the qudits of the
    tones, and keeps them in the order of the tones. *)
Theorem tone_to_qudit_list (tones : seq string) :
  all valid_tone tones ->
  exists qudits : seq string,
    [/\ tone_to_qudit (PList [seq PStr t | t <- tones]) =
          Ok (PList [seq PStr q | q <- qudits]),
        uniq qudits,
        subseq qudits [seq qudit_of t | t <- tones] &
        forall q, (q \in qudits) = (q \in [seq qudit_of t | t <- tones])].
Proof.
move=> Hv; rewrite list_branch_is_loop.
have [l [E U S Hmem]] := @add_qudits_spec [seq qudit_of t | t <- tones] [::] isT.
by exists l; split=> //; rewrite (qudit_loop_strings [::] Hv) E.
Qed.

(** The example of the docstring. *)
Lemma tone_to_qudit_list_witness :
  exists qudits : seq string,
    [/\ tone_to_qudit (PList [:: PStr "Q2/01"; PStr "Q2/12"; PStr "R2"]) =
          Ok (PList [seq PStr q | q <- qudits]),
        uniq qudits,
        subseq qudits [:: "Q2"; "Q2"; "R2"] &
        forall q, (q \in qudits) = (q \in [:: "Q2"; "Q2"; "R2"])].
Proof. exact: (@tone_to_qudit_list [:: "Q2/01"; "Q2/12"; "R2"] isT). Defined.

(** *** Qudits are fixed points *)

Lemma before_occurrences (c : ascii) (s : string) : occurrences c (before c s) = 0%nat.
Proof. by elim: s => [|c' s IH] //=; case E: Ascii.eqb => //=; rewrite E. Qed.

Lemma startswith_char (a c : ascii) (s : string) :
  startswith (String c s) (String a EmptyString) = Ascii.eqb a c.
Proof.
rewrite /startswith /=; case: ascii_dec => [->|H].
  by rewrite Ascii.eqb_refl; case: s.
by symmetry; apply/Ascii.eqb_neq.
Qed.

Lemma valid_tone_before (s : string) : valid_tone s -> valid_tone (before "/" s).
Proof.
case: s => [|c s] //; rewrite /valid_tone !startswith_char /=.
by case: (Ascii.eqb_spec c "/") => [->|_] //; rewrite !startswith_char.
Qed.

Lemma qudit_of_fixed (s : string) :
  valid_tone s -> valid_tone (qudit_of s) /\ qudit_of (qudit_of s) = qudit_of s.
Proof.
move=> Hv; rewrite {1 3 4}/qudit_of; case E: (_ == _); last by rewrite /qudit_of E.
by split; [exact: valid_tone_before | rewrite /qudit_of before_occurrences].
Qed.

Lemma tone_to_qudit_str_ok (s q : string) :
  tone_to_qudit_str s = Ok q -> valid_tone s /\ q = qudit_of s.
Proof.
case Hv: (valid_tone s); first by rewrite tone_to_qudit_str_valid // => [[<-]].
by rewrite /tone_to_qudit_str; move: Hv; rewrite /valid_tone => ->.
Qed.

(** Induction on values, with the hypothesis for every element of a
    list. *)
Lemma pyval_induction (P : pyval -> Prop) :
  (forall s, P (PStr s)) ->
  (forall ts, (forall t, List.In t ts -> P t) -> P (PList ts)) ->
  (forall z, P (PInt z)) ->
  forall v, P v.
Proof.
move=> Hs Hl Hz; fix IH 1.
case=> [s|ts|z]; [exact: Hs | | exact: Hz].
apply: Hl; elim: ts => [|t ts IHts] x /=; first by case.
by case=> [<-|Hx]; [apply: (IH t) | apply: IHts].
Qed.

Lemma qudit_loop_fixed (l acc : seq pyval) :
  (forall x, List.In x l -> fixed x) -> fresh_after acc l ->
  qudit_loop l acc = Ok (PList (acc ++ l)).
Proof.
elim: l acc => [|x l IH] acc Hfix /=; first by rewrite cats0.
move=> /andP [Hx Hl]; rewrite (Hfix x (or_introl erefl)) (negbTE Hx).
have Hfix' : forall y, List.In y l -> fixed y by move=> y Hy; apply: Hfix; right.
by rewrite (IH _ Hfix' Hl) -cats1 -catA.
Qed.

Lemma qudit_loop_result (ts acc : seq pyval) (r : seq pyval) :
  (forall t, List.In t ts -> forall q, tone_to_qudit t = Ok q -> fixed q) ->
  qudit_loop ts acc = Ok (PList r) ->
  exists l, [/\ r = acc ++ l, forall x, List.In x l -> fixed x & fresh_after acc l].
Proof.
elim: ts acc => [|t ts IH] acc Hts /=.
  by case=> <-; exists [::]; rewrite cats0.
case Ht: (tone_to_qudit t) => [q|e] // Hloop.
have Hq : fixed q by apply: (Hts t (or_introl erefl)).
have Hts' : forall t', List.In t' ts -> forall q', tone_to_qudit t' = Ok q' -> fixed q'.
  by move=> t' Ht'; apply: Hts; right.
have [l [E Hfix Hfresh]] := IH _ Hts' Hloop.
move: E Hfresh; case Hhas: (has (pyval_eqb q) acc) => E Hfresh; first by exists l.
exists (q :: l); split; first by rewrite E -cats1 -catA.
  by move=> x [<-|Hx] //; exact: Hfix.
by rewrite /= Hhas.
Qed.

Lemma qudit_loop_is_list (ts acc : seq pyval) (v : pyval) :
  qudit_loop ts acc = Ok v -> exists r, v = PList r.
Proof.
elim: ts acc => [|t ts IH] acc /=; first by case=> <-; exists acc.
by case: (tone_to_qudit t) => [q|e] //; exact: IH.
Qed.

(** X15. Whatever value [tone_to_qudit] returns, on strings and on lists
    nested to any depth, is left unchanged by [tone_to_qudit]: a qudit is
    its own qudit, and a list of qudits is returned as it is. *)
Theorem tone_to_qudit_idempotent (tone qudit : pyval) :
  tone_to_qudit tone = Ok qudit -> tone_to_qudit qudit = Ok qudit.
Proof.
elim/pyval_induction: tone qudit => [s|ts IH|z] qudit //.
  rewrite /=; case E: (tone_to_qudit_str s) => [q|e] // [<-] /=.
  have [Hv ->] := tone_to_qudit_str_ok E.
  have [Hv' Hfix] := qudit_of_fixed Hv.
  by rewrite tone_to_qudit_str_valid // Hfix.
rewrite list_branch_is_loop => E.
have [r Er] := qudit_loop_is_list E; rewrite Er in E *.
have [l [-> Hfix Hfresh]] := qudit_loop_result IH E.
by rewrite list_branch_is_loop (qudit_loop_fixed Hfix Hfresh).
Qed.

(** The nested example of the docstring. *)
Lemma tone_to_qudit_idempotent_witness :
  tone_to_qudit (PList [:: PList [:: PStr "Q2"; PStr "Q3"; PStr "R2"];
                           PList [:: PStr "Q2"; PStr "R2"]]) =
    Ok (PList [:: PList [:: PStr "Q2"; PStr "Q3"; PStr "R2"];
                  PList [:: PStr "Q2"; PStr "R2"]]).
Proof.
apply: (@tone_to_qudit_idempotent
          (PList [:: PList [:: PStr "Q2/01"; PStr "Q3/12"; PStr "R2"];
                     PList [:: PStr "Q2/01"; PStr "Q2/12"; PStr "R2"]])).
by vm_compute.
Defined.

End TonesFacts.

(** ** The sequences that [Scan.make_sequence] compiles: properties *)

Module CalibrationProgramsFacts.

Import Calibration CalibrationFacts CalibrationPrograms.

Local Open Scope string_scope.
Local Open Scope seq_scope.

Lemma append_assoc (a b c : string) : ((a ++ b) ++ c = a ++ (b ++ c))%string.
Proof. by elim: a => [|x a IH] //=; rewrite IH. Qed.

Section Tabulated.

Variable V : Type.

Lemma dict_get_tabulate (keys : seq string) (g : string -> V) (q : string) :
  q \in keys -> dict_get (tabulate keys g) q = Some (g q).
Proof.
elim: keys => [|k keys IH] //=; rewrite in_cons.
have -> : String.eqb k q = (q == k) by rewrite eq_sym.
by case: eqP => [->|_] //=.
Qed.

Lemma dict_set_tabulate (keys : seq string) (g : string -> V) (q : string) (v : V) :
  uniq keys -> q \in keys ->
  dict_set (tabulate keys g) q v = tabulate keys (fun x => if x == q then v else g x).
Proof.
elim: keys => [|k keys IH] //= /andP [Hk Hu]; rewrite in_cons.
have -> : String.eqb k q = (k == q) by [].
case: (k =P q) => [Ekq|/eqP/negbTE Hkq] /=.
  move=> _; congr cons; apply/eq_in_map => x Hx.
  by case: (x =P q) => // Exq; move: Hk; rewrite Ekq -Exq Hx.
by rewrite eq_sym Hkq /= => Hq; rewrite IH.
Qed.

Lemma dict_set_absent (d : dict V) (q : string) (v : V) :
  q \notin [seq kv.1 | kv <- d] -> dict_set d q v = rcons d (q, v).
Proof.
elim: d => [|[k v0] d IH] //=; rewrite in_cons negb_or => /andP [Hk Hd].
have -> : String.eqb k q = (k == q) by [].
by rewrite eq_sym (negbTE Hk) IH.
Qed.

Lemma foldl_dict_set_tabulate (done todo : seq string) (v : V) :
  uniq (done ++ todo) ->
  foldl (fun d q => dict_set d q v) (tabulate done (fun _ => v)) todo =
    tabulate (done ++ todo) (fun _ => v).
Proof.
elim: todo done => [|q todo IH] done /=; first by rewrite cats0.
rewrite -cat_rcons => Hu; rewrite -IH //; congr foldl.
rewrite dict_set_absent /tabulate ?map_rcons // -map_comp map_id_in //.
by move: Hu; rewrite cat_uniq rcons_uniq => /andP [/andP []].
Qed.

End Tabulated.

Section Phases.

Variable waveform : Type.
Variable get_waveform : Z -> string -> result waveform.
Variable pulse_interpreter :
  config -> string -> string -> Z -> option Z -> result string.

Notation compiler := (compiler waveform).
Notation sequence := (sequence waveform).

(** A loop over the qudits whose body replaces the entry of its qudit. *)
Lemma for_each_tabulate (keys : seq string) (body : string -> compiler unit)
    (g g' : string -> sequence) :
  uniq keys ->
  (forall q, q \in keys -> forall d, dict_get d q = Some (g q) ->
     body q d = (Ok tt, dict_set d q (g' q))) ->
  for_each keys body (tabulate keys g) = (Ok tt, tabulate keys g').
Proof.
move=> Hu Hbody.
have Hgen : forall qs h, uniq qs -> {subset qs <= keys} ->
    (forall q, q \in qs -> h q = g q) ->
    for_each qs body (tabulate keys h) =
      (Ok tt, tabulate keys (fun q => if q \in qs then g' q else h q)).
  elim=> [|k qs IH] h //= /andP [Hk Hqs] Hsub Hh.
  have Hkin : k \in keys by apply: Hsub; rewrite in_cons eqxx.
  have Hget : dict_get (tabulate keys h) k = Some (g k).
    by rewrite dict_get_tabulate // Hh // in_cons eqxx.
  rewrite (bind_ok _ (Hbody k Hkin _ Hget)) (dict_set_tabulate _ _ Hu Hkin).
  have Hsub' : {subset qs <= keys}.
    by move=> q Hq; apply: Hsub; rewrite in_cons Hq orbT.
  have Hh' : forall q, q \in qs -> (if q == k then g' k else h q) = g q.
    move=> q Hq; case: eqP => [E|_]; first by move: Hk; rewrite -E Hq.
    by apply: Hh; rewrite in_cons Hq orbT.
  rewrite (IH _ Hqs Hsub' Hh').
  congr (_, _); apply/eq_in_map => q _; rewrite in_cons.
  by case: (q =P k) => [->|_] /=; rewrite ?(negbTE Hk).
rewrite (Hgen keys g Hu (fun q Hq => Hq) (fun q _ => erefl)).
by congr (_, _); apply/eq_in_map => q ->.
Qed.

Notation sequence_with := (@sequence_with waveform get_waveform).
Notation waveform_of := (@waveform_of waveform get_waveform).
Notation cell_text := (@cell_text pulse_interpreter).
Notation stage_text := (@stage_text pulse_interpreter).
Notation stage_ready := (@stage_ready pulse_interpreter).

(** Appending one text per qudit. *)
Lemma append_phase (self : Scan) (P text : string -> string) :
  uniq (qudits self) ->
  for_each (qudits self) (fun qudit => program_append qudit (text qudit))
    (tabulate (qudits self) (fun q => sequence_with self q (Some (P q)))) =
  (Ok tt, tabulate (qudits self)
            (fun q => sequence_with self q (Some (P q ++ text q)%string))).
Proof.
move=> Hu; apply: for_each_tabulate => // q Hq d Hd.
by rewrite /program_append Hd.
Qed.

Lemma stage_phase (self : Scan) (df : DataFrame) (name : string)
    (acq_index : option Z) (P : string -> string) :
  uniq (qudits self) -> stage_ready self df name acq_index ->
  add_stage pulse_interpreter self df name acq_index
    (tabulate (qudits self) (fun q => sequence_with self q (Some (P q)))) =
  (Ok tt, tabulate (qudits self)
            (fun q => sequence_with self q
                        (Some (P q ++ stage_text self df name acq_index q)%string))).
Proof.
move=> Hu; rewrite /add_stage.
elim: df P => [|column df IH] P /=.
  move=> _; congr (_, _); apply/eq_in_map => q _.
  by congr (_, sequence_with _ _ (Some _)); elim: (P q) => [|c s {1}->].
move=> /andP [Hcol Hdf].
have Hstep : for_each (qudits self)
     (fun qudit =>
        match dict_get (col_cells column) qudit with
        | Some init_pulse_str =>
            bind (lift (pulse_interpreter (cfg self) qudit init_pulse_str
                          (col_length column) acq_index))
                 (fun body => program_append qudit (stage_header name ++ body)%string)
        | None => raise (KeyError qudit)
        end)
     (tabulate (qudits self) (fun q => sequence_with self q (Some (P q)))) =
   (Ok tt, tabulate (qudits self)
             (fun q => sequence_with self q
                (Some (P q ++ text_of (cell_text self name acq_index column q))%string))).
  apply: for_each_tabulate => // q Hq d Hd.
  move/allP: Hcol => /(_ q Hq); rewrite /CalibrationPrograms.cell_text.
  case: dict_get => [init_pulse_str|] //.
  rewrite /bind /lift; case: pulse_interpreter => [body|e] //= _.
  by rewrite /program_append Hd.
rewrite (bind_ok _ Hstep) (IH _ Hdf).
congr (_, _); apply/eq_in_map => q _.
by rewrite append_assoc.
Qed.

(** X16. For a scan with distinct qudits and heralding disabled, whose
    configuration holds the pulse lengths, pulse shapes and relaxation
    time, and whose pulse tables hold for every qudit a pulse that
    [pulse_interpreter] understands, [make_sequence] returns, and
    [self.sequences] then holds for every qudit, in order: its waveform
    under index 0, no weights, the two acquisitions, and the program made
    of the initialisation, the main loop, the relaxation, the pre-gates,
    the post-gates, the readout and the stop, whatever [self.sequences]
    held before. *)
Theorem make_sequence_compiles (self : Scan) (seqs : dict sequence) :
  compilable get_waveform pulse_interpreter self ->
  make_sequence get_waveform pulse_interpreter self seqs =
    (Ok tt, tabulate (qudits self)
              (compiled_sequence get_waveform pulse_interpreter self)).
Proof.
move=> /and4P [Hu /negbTE Hh Hwf /and4P [Hrel Hpre Hpost Hro]].
rewrite /make_sequence /put {1}/bind.
have -> : foldl (fun d qudit => dict_set d qudit (empty_sequence waveform)) [::]
            (qudits self) =
          tabulate (qudits self) (fun _ => empty_sequence waveform).
  by rewrite (@foldl_dict_set_tabulate _ [::]).
have H1 : set_waveforms_acquisitions get_waveform self
            (tabulate (qudits self) (fun _ => empty_sequence waveform)) =
          (Ok tt, tabulate (qudits self) (fun q => sequence_with self q None)).
  apply: for_each_tabulate => // q Hq d Hd.
  move/allP: Hwf => /(_ q Hq).
  rewrite /CalibrationPrograms.sequence_with /CalibrationPrograms.waveform_of /bind /lift.
  case: cfg_float => [len|e] //=; case: cfg_str => [shape|e] //=.
  by case: get_waveform => [wf|e] //= _; rewrite Hd.
have H2 : init_program self
            (tabulate (qudits self) (fun q => sequence_with self q None)) =
          (Ok tt, tabulate (qudits self)
                    (fun q => sequence_with self q (Some init_text))).
  apply: for_each_tabulate => // q Hq d Hd.
  by rewrite /program_assign Hd.
rewrite (bind_ok _ H1) (bind_ok _ H2) {1}/bind /add_initparameter /ret.
rewrite /add_mainloop (bind_ok _ (append_phase (fun=> init_text) (fun=> mainloop_text) Hu)).
have H4 : add_relaxation self
            (tabulate (qudits self)
               (fun q => sequence_with self q (Some (init_text ++ mainloop_text)%string))) =
          (Ok tt, tabulate (qudits self)
                    (fun q => sequence_with self q
                       (Some ((init_text ++ mainloop_text) ++
                              relaxation_text (relaxation_time_us self))%string))).
  rewrite /add_relaxation /CalibrationPrograms.relaxation_time_us.
  move: Hrel; rewrite /relaxation_us /bind /lift.
  case: cfg_float => [s|e] //=; case: ceil_us => [us|e] //= _.
  exact: (append_phase (fun=> (init_text ++ mainloop_text)%string)
            (fun=> relaxation_text _) Hu).
rewrite (bind_ok _ H4) Hh {1}/bind /ret.
rewrite /add_prepulse (bind_ok _ (stage_phase _ Hu Hpre)).
rewrite {1}/bind /add_mainpulse /ret.
rewrite /add_postpulse (bind_ok _ (stage_phase _ Hu Hpost)).
rewrite /add_readout (bind_ok _ (stage_phase _ Hu Hro)).
rewrite /add_stop (append_phase _ (fun=> stop_text self) Hu).
congr (_, _); apply/eq_in_map => q _.
rewrite /compiled_sequence /compiled_program.
by congr (_, sequence_with _ _ (Some _)); rewrite !append_assoc.
Qed.

(** Appending to programs raises nothing but [KeyError]. *)
Lemma program_append_loop_outcome (qs : seq string) (text : string -> string)
    (seqs : dict sequence) :
  match (for_each qs (fun qudit => program_append qudit (text qudit)) seqs).1 with
  | Ok _ | Raise (KeyError _) => True
  | Raise _ => False
  end.
Proof.
elim: qs seqs => [|q qs IH] seqs //=; rewrite /bind {1}/program_append.
case: dict_get => [sq|] //; case: (program sq) => [p|] //.
exact: IH.
Qed.

(** X17. The durations that [add_wait] accepts, after rounding to
    nanoseconds: its assertion fails exactly for the durations of zero or
    more nanoseconds and for the negative ones whose low 16 bits are below
    4. No duration of the documented range [4, 65535) is accepted, and
    negative durations such as -1 ns are. *)
Theorem add_wait_ns_refused (self : Scan) (time_ns : Z) (seqs : dict sequence) :
  (add_wait_ns self time_ns seqs).1 = Raise (AssertionError wait_time_message) <->
  (0 <= time_ns \/ time_ns mod 65536 < 4)%Z.
Proof.
rewrite /add_wait_ns wait_time_check_spec.
case: Z.ltb_spec => Hneg /=; last by split=> // _; left.
case: Z.leb_spec => Hlow /=; last by split=> // _; right.
split; last by lia.
have := program_append_loop_outcome (qudits self) (fun=> wait_text time_ns) seqs.
by move=> H E; rewrite E in H.
Qed.

End Phases.

(** The example scan with heralding switched off and a relaxation time
    written 0.000123 compiles, to programs that start the relaxation loop
    with [move 124,R2]. *)
Lemma make_sequence_compiles_witness :
  make_sequence example_get_waveform example_pulse_interpreter example_scan_123us [::] =
    (Ok tt, tabulate [:: "Q3"; "R3"]
              (compiled_sequence example_get_waveform example_pulse_interpreter
                 example_scan_123us)) /\
  relaxation_time_us example_scan_123us = 124%Z.
Proof.
split; last by vm_compute.
apply: make_sequence_compiles.
by vm_compute.
Defined.

(** A wait of 100 ns on the example scan. *)
Lemma add_wait_ns_refused_witness :
  (add_wait_ns example_scan 100 example_sequences).1 =
    Raise (AssertionError wait_time_message).
Proof. by apply/add_wait_ns_refused; left. Defined.

End CalibrationProgramsFacts.

(** ** The pulse tables of a scan: properties *)

Module PulseFramesFacts.

Import Calibration Tones PulseFrames.

Local Open Scope string_scope.
Local Open Scope seq_scope.

Lemma dict_get_map_values {V W : Type} (f : V -> W) (d : dict V) (k : string) :
  dict_get [seq (kv.1, f kv.2) | kv <- d] k = omap f (dict_get d k).
Proof. by elim: d => [|[k0 v0] d IH] //=; case: String.eqb. Qed.

Lemma dict_get_fill_rows (dic : pulse_dict) (rows : seq string) (row : string) :
  dict_get (fill_rows dic rows) row =
    if dict_get dic row is Some l then Some l
    else if row \in rows then Some [::] else None.
Proof.
rewrite /fill_rows; elim: rows dic => [|r rows IH] dic /=.
  by case: dict_get.
rewrite IH in_cons; case Er: (dict_get dic r) => [l|].
  by case: (row =P r) => [->|_] //; rewrite Er.
rewrite dict_get_set; case: (r =P row) => [<-|Hr]; first by rewrite Er eqxx.
by case: (row =P r) => // E; case: Hr.
Qed.

(** X18. The table that [dict_to_DataFrame] builds, and the dictionary it
    leaves behind: the dictionary passed in gains an empty list for every
    row it lacked and is otherwise unchanged; the table has as many
    columns as the longest list, named [name_0], [name_1], ...; and the
    cell of a row in column [i] is the [i]-th pulse of the row, or the
    padding when the row has no [i]-th pulse. *)
Theorem dict_to_DataFrame_cells (dic : pulse_dict) (name : string) (rows : seq string)
    (padding : string) :
  let dic' := (dict_to_DataFrame dic name rows padding).1 in
  let df := (dict_to_DataFrame dic name rows padding).2 in
  [/\ forall row, dict_get dic' row =
        (if dict_get dic row is Some l then Some l
         else if row \in rows then Some [::] else None),
      size df = n_columns dic' &
      forall i, (i < size df)%nat ->
        (nth (EmptyString, [::]) df i).1 = (name ++ "_" ++ str_of_Z (Z.of_nat i))%string /\
        forall row,
          dict_get (nth (EmptyString, [::]) df i).2 row =
            omap (fun l => nth padding l i) (dict_get dic' row)].
Proof.
rewrite /dict_to_DataFrame /table_of /=; split.
- by move=> row; exact: dict_get_fill_rows.
- by rewrite size_map size_iota.
- move=> i; rewrite size_map size_iota => Hi.
  rewrite (nth_map 0%nat) ?size_iota // nth_iota // add0n /=; split=> // row.
  by rewrite (dict_get_map_values (fun l => nth padding l i)).
Qed.

(** Every row asked for has a cell in every column. *)
Lemma table_of_complete (dic : pulse_dict) (name : string) (rows : seq string)
    (padding : string) (length : Z) :
  complete (with_length length (table_of (fill_rows dic rows) name padding)) rows.
Proof.
rewrite /complete /with_length /table_of all_map; apply/allP => c.
move=> /mapP [i _ ->] /=; apply/allP => row Hrow.
rewrite (dict_get_map_values (fun l => nth padding l i)) dict_get_fill_rows.
by case: dict_get => [l|] //; rewrite Hrow.
Qed.

Lemma complete_cat (df1 df2 : DataFrame) (rows : seq string) :
  complete (df1 ++ df2) rows = complete df1 rows && complete df2 rows.
Proof. by rewrite /complete all_cat. Qed.

Lemma with_length_cat (length : Z) (df1 df2 : named_frame) :
  with_length length (df1 ++ df2) = with_length length df1 ++ with_length length df2.
Proof. by rewrite /with_length map_cat. Qed.

Lemma with_length_all (length : Z) (df : named_frame) :
  all (fun column => col_length column == length) (with_length length df).
Proof. by rewrite /with_length all_map; apply/allP => c _ /=. Qed.

(** The readout dictionary and its table. *)
Lemma dict_get_readout_pulses (rs : seq string) (r : string) :
  dict_get (readout_pulses rs) r = if r \in rs then Some [:: "RO"] else None.
Proof.
rewrite /readout_pulses.
have Hgen : forall d : pulse_dict,
    dict_get (foldl (fun d r => dict_set d r [:: "RO"]) d rs) r =
      if r \in rs then Some [:: "RO"] else dict_get d r.
  elim: rs => [|k rs IH] d //=; rewrite IH in_cons dict_get_set.
  rewrite [r == k]eq_sym.
  by case: (r \in rs); rewrite ?orbT //= orbF; case: eqP.
by rewrite Hgen.
Qed.

Lemma bounded_dict_set (m : nat) (d : pulse_dict) (k : string) (v : seq string) :
  bounded m d -> (size v <= m)%nat -> bounded m (dict_set d k v).
Proof.
rewrite /bounded => Hd Hv; elim: d Hd => [|[k0 v0] d IH] /=; first by rewrite Hv.
by move=> /andP [H0 Hd]; case: String.eqb => /=; rewrite ?Hv ?H0 ?Hd ?IH.
Qed.

Lemma bounded_fill_rows (m : nat) (d : pulse_dict) (rows : seq string) :
  bounded m d -> bounded m (fill_rows d rows).
Proof.
rewrite /fill_rows; elim: rows d => [|r rows IH] d Hd //=.
by apply: IH; case: dict_get => [l|] //; apply: bounded_dict_set.
Qed.

Lemma bounded_readout_pulses (rs : seq string) : bounded 1 (readout_pulses rs).
Proof.
rewrite /readout_pulses; move: (isT : bounded 1 [::]); move: [::] => d.
by elim: rs d => [|r rs IH] d Hd //=; apply: IH; apply: bounded_dict_set.
Qed.

Lemma n_columns_bounded (m : nat) (d : pulse_dict) : bounded m d -> (n_columns d <= m)%nat.
Proof.
rewrite /bounded /n_columns; elim: d => [|[k v] d IH] //= /andP [Hv Hd].
by rewrite geq_max Hv IH.
Qed.

Lemma n_columns_get (d : pulse_dict) (k : string) (v : seq string) :
  dict_get d k = Some v -> (size v <= n_columns d)%nat.
Proof.
rewrite /n_columns; elim: d => [|[k0 v0] d IH] //=.
case: String.eqb => [[->]|/IH H]; first by rewrite leq_maxl.
by rewrite leq_max H orbT.
Qed.

Lemma n_columns_readout (rs rows : seq string) :
  {subset rs <= rows} ->
  n_columns (fill_rows (readout_pulses rs) rows) = nat_of_bool (rs != [::]).
Proof.
move=> Hsub; case: rs Hsub => [|r rs] Hsub /=.
  apply/eqP; rewrite -leqn0; apply: n_columns_bounded.
  exact: bounded_fill_rows.
apply/eqP; rewrite eqn_leq; apply/andP; split.
  by apply: n_columns_bounded; apply: bounded_fill_rows; exact: bounded_readout_pulses.
have := @n_columns_get (fill_rows (readout_pulses (r :: rs)) rows) r [:: "RO"].
by apply; rewrite dict_get_fill_rows dict_get_readout_pulses in_cons eqxx.
Qed.

(** X19. When [generate_pulse_dataframe] returns, the three tables it
    leaves to [make_sequence] hold a pulse for every qudit of the scan in
    every column, so that no stage can fail for a missing cell; every
    pre-gate and post-gate column carries the qubit pulse length in ns and
    every readout column the time of flight plus the resonator pulse
    length; and the readout table has one column when there is a
    resonator (none otherwise), which holds 'RO' for every resonator and
    the identity 'I' for every other qudit. *)
Theorem generate_pulse_dataframe_tables (self : ScanTables) (tables : PulseTables) :
  generate_pulse_dataframe self = Ok tables ->
  [/\ [&& complete (tables_full_prepulse_df tables) (tables_qudits self),
          complete (tables_postpulse_df tables) (tables_qudits self) &
          complete (tables_readout_df tables) (tables_qudits self)],
      exists resonator_pulse_length tof qubit_pulse_length,
        [/\ cfg_float (tables_cfg self) "common/resonator_pulse_length" =
              Ok resonator_pulse_length,
            cfg_float (tables_cfg self) "common/tof" = Ok tof,
            cfg_float (tables_cfg self) "common/qubit_pulse_length" =
              Ok qubit_pulse_length,
            all (fun column => col_length column == ns qubit_pulse_length)
                (tables_full_prepulse_df tables ++ tables_postpulse_df tables) &
            all (fun column =>
                   col_length column == (ns tof + ns resonator_pulse_length)%Z)
                (tables_readout_df tables)],
      size (tables_readout_df tables) = nat_of_bool (readout_resonators self != [::]) &
      forall column qudit,
        column \in [seq col_cells c | c <- tables_readout_df tables] ->
        qudit \in tables_qudits self ->
        dict_get column qudit =
          Some (if qudit \in readout_resonators self then "RO" else "I")].
Proof.
rewrite /generate_pulse_dataframe.
case: subspace_pulses => [subspace_pulse|e] //=.
case Erl: cfg_float => [rl|e] //=; case Etof: cfg_float => [tof|e] //=.
case Eql: cfg_float => [ql|e] //= [<-] /=.
set rows := tables_qudits self.
have Hsub : {subset readout_resonators self <= rows}.
  by move=> r Hr; rewrite /rows /tables_qudits mem_cat Hr orbT.
have Hn := n_columns_readout Hsub.
split.
- by rewrite with_length_cat complete_cat !table_of_complete.
- exists rl, tof, ql; split=> //; last exact: with_length_all.
  by rewrite all_cat !with_length_all.
- by rewrite /with_length /table_of !size_map size_iota.
- move=> column qudit; rewrite /with_length /table_of -!map_comp.
  move=> /mapP [i]; rewrite mem_iota add0n Hn /= => Hi -> Hq.
  have {Hi} -> : i = 0%nat by move: Hi; case: (_ != _); case: i.
  rewrite (dict_get_map_values (fun l => nth "I" l 0)) dict_get_fill_rows.
  by rewrite dict_get_readout_pulses; case: ifP => //= _; rewrite Hq.
Qed.

(** The tables of the example: qubit Q3 driven in the 12 subspace with two
    pre-gates, resonator R3. *)
Lemma generate_pulse_dataframe_tables_witness :
  generate_pulse_dataframe example_tables =
    Ok (MkPulseTables
          [:: Column 40 [:: ("Q3", "X180_01"); ("R3", "I")];
              Column 40 [:: ("Q3", "Y90_12"); ("R3", "I")];
              Column 40 [:: ("Q3", "Z90_12"); ("R3", "I")]]
          [::]
          [:: Column 2300 [:: ("R3", "RO"); ("Q3", "I")]]) /\
  forall column qudit,
    column \in [:: [:: ("R3", "RO"); ("Q3", "I")]] -> qudit \in [:: "Q3"; "R3"] ->
    dict_get column qudit = Some (if qudit \in [:: "R3"] then "RO" else "I").
Proof.
have E : generate_pulse_dataframe example_tables =
    Ok (MkPulseTables
          [:: Column 40 [:: ("Q3", "X180_01"); ("R3", "I")];
              Column 40 [:: ("Q3", "Y90_12"); ("R3", "I")];
              Column 40 [:: ("Q3", "Z90_12"); ("R3", "I")]]
          [::]
          [:: Column 2300 [:: ("R3", "RO"); ("Q3", "I")]]) by vm_compute.
split=> //.
by have [_ _ _] := generate_pulse_dataframe_tables E.
Defined.

Section AddPulseFacts.

Variable waveform : Type.
Variable pulse_interpreter :
  config -> string -> string -> Z -> option Z -> result string.


End AddPulseFacts.

End PulseFramesFacts.

(** ** The reference tone of an anharmonicity *)

Module SubtonesFacts.

Import Subtones.

Local Open Scope string_scope.

Lemma string_of_uint_length (d : Decimal.uint) :
  String.length (NilEmpty.string_of_uint d) = Decimal.nb_digits d.
Proof. by elim: d => [|d IH|d IH|d IH|d IH|d IH|d IH|d IH|d IH|d IH|d IH] //=; rewrite IH. Qed.

Lemma string_of_uint_digits (d : Decimal.uint) : all_digits (NilEmpty.string_of_uint d).
Proof. by elim: d. Qed.

Lemma nb_digits_succ (d : Decimal.uint) :
  (Decimal.nb_digits d <= Decimal.nb_digits (Decimal.Little.succ d) <=
   (Decimal.nb_digits d).+1)%nat.
Proof.
elim: d => [|d IH|d IH|d IH|d IH|d IH|d IH|d IH|d IH|d IH|d IH] //=;
  by rewrite ?leqnn ?leqnSn.
Qed.

(** The decimal writing of a positive integer. *)
Lemma str_of_Zpos (p : positive) :
  str_of_Z (Zpos p) = NilEmpty.string_of_uint (Pos.to_uint p).
Proof.
rewrite /str_of_Z /= /NilZero.string_of_uint.
by case E: (Pos.to_uint p) => //; case: (DecimalPos.Unsigned.to_uint_nonnil _ E).
Qed.

Lemma nb_digits_pos (p : positive) : (0 < Decimal.nb_digits (Pos.to_uint p))%nat.
Proof.
rewrite lt0n; apply/eqP => /DecimalFacts.nb_digits_0.
exact: DecimalPos.Unsigned.to_uint_nonnil.
Qed.

Lemma nb_digits_Pos_succ (p : positive) :
  (Decimal.nb_digits (Pos.to_uint p) <= Decimal.nb_digits (Pos.to_uint (Pos.succ p)) <=
   (Decimal.nb_digits (Pos.to_uint p)).+1)%nat.
Proof.
rewrite /Pos.to_uint !DecimalFacts.nb_digits_rev.
have -> : Pos.to_little_uint (Pos.succ p) = Decimal.Little.succ (Pos.to_little_uint p).
  exact: (DecimalPos.Unsigned.to_lu_succ (Npos p)).
exact: nb_digits_succ.
Qed.

Lemma half_sum (a b : nat) : (a <= b <= a.+1)%nat -> ((a + b) %/ 2 = a)%nat.
Proof.
move=> /andP [Hab Hba]; have : b = a \/ b = a.+1.
  by move: Hab; rewrite leq_eqVlt => /orP [/eqP ->|H]; [left | right; apply/eqP; rewrite eqn_leq Hba H].
case=> ->; first by rewrite addnn -muln2 mulnK.
by rewrite addnS addnn -muln2 -addn1 divnMDl // divn_small ?addn0.
Qed.

Lemma string_drop_append (s1 s2 : string) :
  string_drop (String.length s1) (s1 ++ s2) = s2.
Proof. by elim: s1 => [|c s1 IH] //=; case: s2. Qed.

Lemma append_length (s1 s2 : string) :
  String.length (s1 ++ s2) = (String.length s1 + String.length s2)%nat.
Proof. by elim: s1 => [|c s1 IH] //=; rewrite IH. Qed.

Lemma all_digits_append (s1 s2 : string) :
  all_digits (s1 ++ s2) = all_digits s1 && all_digits s2.
Proof. by elim: s1 => [|c s1 IH] //=; rewrite IH andbA. Qed.

Lemma int_of_decimal_str (p : positive) :
  int_of_decimal (NilEmpty.string_of_uint (Pos.to_uint p)) = Ok (Zpos p).
Proof.
rewrite /int_of_decimal NilEmpty.usu.
have := nb_digits_pos p; rewrite -string_of_uint_length.
case: (NilEmpty.string_of_uint _) => // c s _.
by rewrite /Z.of_uint DecimalPos.Unsigned.of_to.
Qed.

(** X21. The reference tone of an anharmonicity. For the subtone of the
    subspace between level [n] and level [n + 1], written as the two
    numbers one after the other ('12', '910', '99100'), with [n >= 1],
    [set_parameters] takes the anharmonicity against the tone of the
    subspace just below, between [n - 1] and [n]: cutting the subtone in
    the middle finds the higher level whatever the number of digits. *)
Theorem last_tone_of_subspace (qudit : string) (n : Z) :
  (1 <= n)%Z ->
  last_tone qudit (str_of_Z n ++ str_of_Z (n + 1)) =
    Ok (Some (qudit ++ "/" ++ str_of_Z (n - 1) ++ str_of_Z n)).
Proof.
case: n => [|p|p] // _.
have -> : (Zpos p + 1 = Zpos (Pos.succ p))%Z by rewrite -Pos.add_1_r.
have Ea : (Zpos (Pos.succ p) - 2 = Zpos p - 1)%Z by lia.
have Eb : (Zpos (Pos.succ p) - 1 = Zpos p)%Z by lia.
set below := str_of_Z (Zpos p - 1).
rewrite !str_of_Zpos /last_tone.
set s1 := NilEmpty.string_of_uint (Pos.to_uint p).
set s2 := NilEmpty.string_of_uint (Pos.to_uint (Pos.succ p)).
have H1 : (0 < String.length s1)%nat by rewrite string_of_uint_length nb_digits_pos.
have H2 : (0 < String.length s2)%nat by rewrite string_of_uint_length nb_digits_pos.
have Hdec : isdecimal (s1 ++ s2).
  rewrite /isdecimal append_length addn_gt0 H1 /= all_digits_append.
  by rewrite !string_of_uint_digits.
have Hne : (s1 ++ s2 == "01") = false.
  apply/eqP => E; have := congr1 String.length E; rewrite append_length /= => El.
  have E1 : String.length s1 = 1%nat.
    move: H1 H2 El; case: (String.length s1) => [|[|a]] //.
    by case: (String.length s2) => [|b] //; rewrite !addSn !addnS.
  move: E E1 (NilEmpty.usu (Pos.to_uint p)); rewrite -/s1.
  case: (s1) => [|c [|c' s]] //= [-> _] _ [] E0.
  exact: (DecimalPos.Unsigned.to_uint_nonzero _ (esym E0)).
have Hhalf : ((String.length s1 + String.length s2) %/ 2 = String.length s1)%nat.
  by rewrite !string_of_uint_length; exact: half_sum (nb_digits_Pos_succ p).
rewrite Hdec Hne [~~ true || false]/= append_length Hhalf.
by rewrite string_drop_append int_of_decimal_str /result_bind Ea Eb str_of_Zpos.
Qed.

(** The subspaces between levels 1 and 2 and between levels 9 and 10. *)
Lemma last_tone_of_subspace_witness :
  last_tone "Q2" "12" = Ok (Some "Q2/01") /\
  last_tone "Q2" "910" = Ok (Some "Q2/89").
Proof.
by split; [exact: (@last_tone_of_subspace "Q2" 1) | exact: (@last_tone_of_subspace "Q2" 9)].
Defined.

End SubtonesFacts.
